(** * troika-three-text: the SDF glyph atlas of [TextBuilder.js]

    A shallow embedding of [packages/troika-three-text/src/TextBuilder.js]:
    the configuration registry ([CONFIG], [configureTextBuilder]), the
    per-font atlas (glyph map, slot counter, RGBA-packed texture) and the
    three phases of [getTextRenderInfo] (the synchronous part, the
    continuation run on the typesetter's answer, the continuation run on
    the rasterizers' answers).

    Conventions.
    - Integer-valued JS numbers (sizes, indices, counters, glyph ids) are
      [nat]; [Math.floor(a / b)] is [a / b] and [a % b] is [a mod b].
      The one quotient that need not be whole, [texImg.width /
      sdfGlyphSize], is an exact rational.
    - Geometry (path bounds, margins, view boxes) is written once over an
      arithmetic interface [JSNumber] and read in two ways: with exact
      rationals [Q], and with the kernel's binary64 floats, which is the
      arithmetic a JS engine performs.
    - A [Uint8Array] is a [list byte]; a store out of range is dropped, as
      typed arrays do, and a load out of range is [None] ([undefined]).
      What is stored into a [Float32Array] is rounded to binary32
      ([num_fround]; the exact reading rounds nothing).
    - The module-level variables ([CONFIG], [hasRequested], [atlases]) are
      the fields of one [World] record threaded through every operation. *)

From Stdlib Require Import QArith Qminmax Qround Floats.
From Stdlib.Strings Require Import Byte.
From stdpp Require Import gmap strings list pretty.

Set Default Proof Using "Type".

(** ** The atlas texture image *)

Module Texture.

(** [atlas.sdfTexture.image]: the byte array and its dimensions in texels
    (four bytes, R G B A, per texel). *)
Record TexImage := mkTexImage {
  data : list byte;
  width : nat;
  height : nat
}.

(** [new Uint8Array(n)]: n zero bytes. *)
Definition newUint8Array (n : nat) : list byte := replicate n x00.

(** [dst.set(src)]: copies [src] over the low range of [dst]. (JS throws
    when [src] is longer than [dst]; the only call site passes an array of
    half the length of [dst].) *)
Definition typedArraySet (dst src : list byte) : list byte :=
  src ++ drop (length src) dst.

(** The image of a new atlas:
    [new DataTexture(new Uint8Array(sdfGlyphSize * textureWidth * 4),
                     textureWidth, sdfGlyphSize, ...)]. *)
Definition newTexImage (sdfGlyphSize textureWidth : nat) : TexImage :=
  {| data := newUint8Array (sdfGlyphSize * textureWidth * 4);
     width := textureWidth;
     height := sdfGlyphSize |}.

(** One turn of the growth loop's body. *)
Definition growOnce (texImg : TexImage) : TexImage :=
  let biggerArray :=
    typedArraySet (newUint8Array (length (data texImg) * 2)) (data texImg) in
  {| data := biggerArray;
     width := width texImg;
     height := height texImg * 2 |}.

(** [while (texImg.data.length < (atlasIndex + 1) * sdfGlyphSize * sdfGlyphSize)
      { ... }].
    The loop does not terminate on an empty array; [None] stands for
    running out of [fuel]. *)
Fixpoint growLoop (fuel sdfGlyphSize atlasIndex : nat) (texImg : TexImage)
  : option TexImage :=
  match fuel with
  | O => None
  | S fuel' =>
      if length (data texImg) <? (atlasIndex + 1) * sdfGlyphSize * sdfGlyphSize
      then growLoop fuel' sdfGlyphSize atlasIndex (growOnce texImg)
      else Some texImg
  end.

(** Fuel that suffices whenever the array is not empty: each turn doubles
    a positive length, so fewer turns than bytes needed are taken. *)
Definition growFuel (sdfGlyphSize atlasIndex : nat) : nat :=
  S ((atlasIndex + 1) * sdfGlyphSize * sdfGlyphSize).

(** The packing address of a slot.  [texImg.width / sdfGlyphSize] is a
    division of JS numbers and need not be whole: it is taken exactly, as
    a rational, and so are [Math.floor(squareIndex / cols)] and
    [squareIndex % cols].  That is the value binary64 gives (for sizes
    and indices far below 2^53) whenever the quotient is a binary64
    number: when the glyph size divides the width, and when both are
    powers of two (as documented), the glyph size being larger than the
    width included. *)
Definition squareIndex (atlasIndex : nat) : nat := atlasIndex / 4.

Definition channel (atlasIndex : nat) : nat := atlasIndex mod 4.

Definition ofNat (n : nat) : Q := inject_Z (Z.of_nat n).

Definition cols (sdfGlyphSize : nat) (texImg : TexImage) : Q :=
  (ofNat (width texImg) / ofNat sdfGlyphSize)%Q.

(** [a % b] on numbers that are not negative. *)
Definition remainder (a b : Q) : Q := (a - b * inject_Z (Qfloor (a / b)))%Q.

(** The array index a number is.  It is applied to whole numbers only:
    with a width and a glyph size that are not 0 the address computed
    below is whole ([baseStartIndex_exact]), and otherwise nothing is
    stored. *)
Definition toIndex (q : Q) : nat := Z.to_nat (Qfloor q).

Definition baseStartIndex (sdfGlyphSize : nat) (texImg : TexImage)
    (atlasIndex : nat) : nat :=
  let squareIndex := ofNat (squareIndex atlasIndex) in
  let cols := cols sdfGlyphSize texImg in
  toIndex
    (inject_Z (Qfloor (squareIndex / cols))
       * ofNat (width texImg) * ofNat sdfGlyphSize * 4
     + remainder squareIndex cols * ofNat sdfGlyphSize * 4
     + ofNat (channel atlasIndex))%Q.

(** [textureData[i]] stored into a [Uint8Array]: [undefined] is stored
    as 0. *)
Definition srcByte (textureData : list byte) (i : nat) : byte :=
  default x00 (textureData !! i).

(** The inner loop: one row of the glyph. *)
Definition writeRow (sdfGlyphSize : nat) (textureData : list byte)
    (srcStartIndex rowStartIndex : nat) (d : list byte) : list byte :=
  fold_left
    (fun d x => <[rowStartIndex + x * 4 := srcByte textureData (srcStartIndex + x)]> d)
    (seq 0 sdfGlyphSize) d.

(** The two nested loops that copy a glyph's SDF into its channel. *)
Definition writeGlyph (sdfGlyphSize : nat) (texImg : TexImage)
    (atlasIndex : nat) (textureData : list byte) : list byte :=
  let base := baseStartIndex sdfGlyphSize texImg atlasIndex in
  fold_left
    (fun d y =>
       let srcStartIndex := y * sdfGlyphSize in
       let rowStartIndex := base + y * width texImg * 4 in
       writeRow sdfGlyphSize textureData srcStartIndex rowStartIndex d)
    (seq 0 sdfGlyphSize) (data texImg).

(** The body of [sdfResults.forEach]: grow if needed, then write. *)
Definition insertSDF (sdfGlyphSize atlasIndex : nat) (textureData : list byte)
    (texImg : TexImage) : option TexImage :=
  texImg' ← growLoop (growFuel sdfGlyphSize atlasIndex) sdfGlyphSize atlasIndex texImg;
  Some {| data := writeGlyph sdfGlyphSize texImg' atlasIndex textureData;
          width := width texImg';
          height := height texImg' |}.

(** [sdfResults.forEach(...)]: each result is an [atlasIndex] with its
    [textureData]. *)
Fixpoint insertAll (sdfGlyphSize : nat) (sdfResults : list (nat * list byte))
    (texImg : TexImage) : option TexImage :=
  match sdfResults with
  | [] => Some texImg
  | (atlasIndex, textureData) :: rest =>
      texImg' ← insertSDF sdfGlyphSize atlasIndex textureData texImg;
      insertAll sdfGlyphSize rest texImg'
  end.

(** Reading a slot back: the bytes found at the offsets the write loop
    uses, row by row ([None] where the array has no such offset).  The
    source has no reader (the shader samples the texture); this is the
    gather that undoes [writeGlyph]. *)
Definition slotByteIndex (sdfGlyphSize : nat) (texImg : TexImage)
    (atlasIndex x y : nat) : nat :=
  baseStartIndex sdfGlyphSize texImg atlasIndex + y * width texImg * 4 + x * 4.

Definition readSlot (sdfGlyphSize : nat) (texImg : TexImage) (atlasIndex : nat)
  : list (option byte) :=
  flat_map
    (fun y => map (fun x => data texImg !! slotByteIndex sdfGlyphSize texImg atlasIndex x y)
                  (seq 0 sdfGlyphSize))
    (seq 0 sdfGlyphSize).

(** Capacity in glyph slots: [data.length / sdfGlyphSize²]. *)
Definition slotCapacity (sdfGlyphSize : nat) (texImg : TexImage) : nat :=
  length (data texImg) / (sdfGlyphSize * sdfGlyphSize).

(** The shape every atlas image has when the glyph size divides the
    texture width: whole squares across and down, four bytes per texel. *)
Definition wellShaped (sdfGlyphSize : nat) (texImg : TexImage) : Prop :=
  ∃ c r, 0 < sdfGlyphSize ∧ 0 < c ∧ 0 < r ∧
         width texImg = c * sdfGlyphSize ∧
         height texImg = r * sdfGlyphSize ∧
         length (data texImg) = width texImg * height texImg * 4.

(** The rows written so far, as the outer loop advances. *)
Definition writeRows (g : nat) (texImg : TexImage) (s : nat) (td : list byte)
    (n : nat) : list byte :=
  fold_left
    (fun d y =>
       writeRow g td (y * g) (baseStartIndex g texImg s + y * width texImg * 4) d)
    (seq 0 n) (data texImg).

(** The rectangle an atlas image is, whatever the glyph size and width:
    [k] doublings of the height, the width as configured. *)
Definition rectangular (g W k : nat) (texImg : TexImage) : Prop :=
  width texImg = W ∧ height texImg = g * 2 ^ k ∧
  length (data texImg) = width texImg * height texImg * 4.

End Texture.

(** ** JS numbers *)

(** The arithmetic the geometry code performs on JS numbers.  [num_max]
    is [Math.max] of two arguments; [num_fround] is the conversion a
    store into a [Float32Array] performs ([Math.fround]). *)
Class JSNumber (num : Type) := {
  num_of_nat : nat → num;
  num_half : num;
  num_add : num → num → num;
  num_sub : num → num → num;
  num_mul : num → num → num;
  num_div : num → num → num;
  num_max : num → num → num;
  num_fround : num → num
}.

Declare Scope num_scope.
Delimit Scope num_scope with num.
Infix "+!" := num_add (at level 50, left associativity) : num_scope.
Infix "-!" := num_sub (at level 50, left associativity) : num_scope.
Infix "*!" := num_mul (at level 40, left associativity) : num_scope.
Infix "/!" := num_div (at level 40, left associativity) : num_scope.

(** Exact arithmetic over the rationals: no operation rounds, and no
    store does. *)
#[export] Instance Q_JSNumber : JSNumber Q := {
  num_of_nat n := inject_Z (Z.of_nat n);
  num_half := (1 # 2)%Q;
  num_add := Qplus;
  num_sub := Qminus;
  num_mul := Qmult;
  num_div := Qdiv;
  num_max a b := if Qle_bool a b then b else a;
  num_fround q := q
}.

(** [Math.max] on binary64: NaN if either argument is NaN, and +0 is
    larger than -0. *)
Definition float_max (a b : float) : float :=
  if (PrimFloat.eqb a a && PrimFloat.eqb b b)%bool then
    if PrimFloat.ltb a b then b
    else if PrimFloat.ltb b a then a
    else if PrimFloat.eqb a 0%float then PrimFloat.add a b
    else a
  else PrimFloat.nan.

(** [Math.fround] on binary64: the nearest binary32 number (24 bits of
    precision, exponents up to 128), ties to even, infinite beyond the
    binary32 range; NaN, the infinities and the zeros are kept.  Every
    binary32 number is a binary64 number. *)
Definition float_fround (x : float) : float :=
  match Prim2SF x with
  | S754_finite s m e => SF2Prim (binary_round 24 128 s m e)
  | _ => x
  end.

(** IEEE 754 binary64, the arithmetic of a JS engine (integers below 2^53
    convert exactly). *)
#[export] Instance float_JSNumber : JSNumber float := {
  num_of_nat n := PrimFloat.of_uint63 (Uint63.of_Z (Z.of_nat n));
  num_half := 0.5%float;
  num_add := PrimFloat.add;
  num_sub := PrimFloat.sub;
  num_mul := PrimFloat.mul;
  num_div := PrimFloat.div;
  num_max := float_max;
  num_fround := float_fround
}.

(** ** Data model *)

(** A four-element array [[minX, minY, maxX, maxY]]; [b0 .. b3] are its
    elements 0 to 3. *)
Record Bounds (num : Type) := mkBounds { b0 : num; b1 : num; b2 : num; b3 : num }.
Arguments mkBounds {num}.
Arguments b0 {num}.
Arguments b1 {num}.
Arguments b2 {num}.
Arguments b3 {num}.

(** An entry of [result.glyphData]; the path is an opaque string. *)
Record GlyphData (num : Type) := mkGlyphData {
  gdPath : string;
  pathBounds : Bounds num
}.
Arguments mkGlyphData {num}.
Arguments gdPath {num}.
Arguments pathBounds {num}.

(** A value of [atlas.glyphs]: [{ path, atlasIndex, sdfViewBox }]. *)
Record GlyphInfo (num : Type) := mkGlyphInfo {
  path : string;
  atlasIndex : nat;
  sdfViewBox : Bounds num
}.
Arguments mkGlyphInfo {num}.
Arguments path {num}.
Arguments atlasIndex {num}.
Arguments sdfViewBox {num}.

(** [atlas.sdfTexture]: the image, the [font] tag and the [needsUpdate]
    flag. *)
Record DataTexture := mkDataTexture {
  image : Texture.TexImage;
  font : string;
  needsUpdate : bool
}.

(** An element of [atlases]. *)
Record Atlas (num : Type) := mkAtlas {
  count : nat;
  glyphs : gmap nat (GlyphInfo num);
  sdfTexture : DataTexture
}.
Arguments mkAtlas {num}.
Arguments count {num}.
Arguments glyphs {num}.
Arguments sdfTexture {num}.

(** [CONFIG]. *)
Record Config (num : Type) := mkConfig {
  defaultFontURL : string;
  sdfGlyphSize : nat;
  sdfMargin : num;
  sdfExponent : num;
  textureWidth : nat
}.
Arguments mkConfig {num}.
Arguments defaultFontURL {num}.
Arguments sdfGlyphSize {num}.
Arguments sdfMargin {num}.
Arguments sdfExponent {num}.
Arguments textureWidth {num}.

(** The argument of [configureTextBuilder]: an object that has some of
    the configuration's keys. *)
Record ConfigOptions (num : Type) := mkConfigOptions {
  optDefaultFontURL : option string;
  optSdfGlyphSize : option nat;
  optSdfMargin : option num;
  optSdfExponent : option num;
  optTextureWidth : option nat
}.
Arguments mkConfigOptions {num}.
Arguments optDefaultFontURL {num}.
Arguments optSdfGlyphSize {num}.
Arguments optSdfMargin {num}.
Arguments optSdfExponent {num}.
Arguments optTextureWidth {num}.

(** The argument of [getTextRenderInfo] as the caller passes it (the
    colour ranges and the layout options, which the atlas code only hands
    on, are left out). *)
Record Args := mkArgs {
  argFont : option string;
  argText : string;
  argSdfGlyphSize : option nat
}.

(** The frozen, normalized [args]. *)
Record NormArgs := mkNormArgs {
  nFont : string;
  nText : string;
  nSdfGlyphSize : nat
}.

(** The typesetter's answer, as far as the atlas code reads it:
    [glyphPositions] is flat, two numbers per glyph. *)
Record TypesetResult (num : Type) := mkTypesetResult {
  glyphIds : list nat;
  glyphPositions : list num;
  glyphData : gmap nat (GlyphData num);
  fontSize : num;
  unitsPerEm : num
}.
Arguments mkTypesetResult {num}.
Arguments glyphIds {num}.
Arguments glyphPositions {num}.
Arguments glyphData {num}.
Arguments fontSize {num}.
Arguments unitsPerEm {num}.

(** One call of [generateSDFInWorker(sdfGlyphSize, sdfGlyphSize, path,
    sdfViewBox, maxDist, CONFIG.sdfExponent)], with what the closure
    around it holds: the atlas (by key) and the [atlasIndex]. *)
Record SDFCall (num : Type) := mkSDFCall {
  callWidth : nat;
  callHeight : nat;
  callPath : string;
  callViewBox : Bounds num;
  callMaxDist : num;
  callExponent : num;
  callAtlas : string;
  callAtlasIndex : nat
}.
Arguments mkSDFCall {num}.
Arguments callWidth {num}.
Arguments callHeight {num}.
Arguments callPath {num}.
Arguments callViewBox {num}.
Arguments callMaxDist {num}.
Arguments callExponent {num}.
Arguments callAtlas {num}.
Arguments callAtlasIndex {num}.

(** What a request holds while the typesetter works. *)
Record AwaitTypeset (num : Type) := mkAwaitTypeset {
  atArgs : NormArgs;
  atAtlasKey : string;
  atSdfExponent : num
}.
Arguments mkAwaitTypeset {num}.
Arguments atArgs {num}.
Arguments atAtlasKey {num}.
Arguments atSdfExponent {num}.

(** What a request holds while [Thenable.all] waits for its rasterizers.
    [asGlyphBounds] is the [Float32Array]; an entry is [None] where the
    position read was [undefined] (the sum is NaN). *)
Record AwaitSDFs (num : Type) := mkAwaitSDFs {
  asRequest : AwaitTypeset num;
  neededSDFs : list (GlyphInfo num);
  asGlyphBounds : list (option num);
  asGlyphIds : list nat
}.
Arguments mkAwaitSDFs {num}.
Arguments asRequest {num}.
Arguments neededSDFs {num}.
Arguments asGlyphBounds {num}.
Arguments asGlyphIds {num}.

(** The object handed to the callback; [riTexture] names the atlas whose
    texture object it refers to (the object is shared, not copied). *)
Record RenderInfo (num : Type) := mkRenderInfo {
  parameters : NormArgs;
  riTexture : string;
  riSdfGlyphSize : nat;
  riSdfExponent : num;
  glyphBounds : list (option num);
  glyphAtlasIndices : list nat
}.
Arguments mkRenderInfo {num}.
Arguments parameters {num}.
Arguments riTexture {num}.
Arguments riSdfGlyphSize {num}.
Arguments riSdfExponent {num}.
Arguments glyphBounds {num}.
Arguments glyphAtlasIndices {num}.

(** The module's state and its observable effects: [warnings] are the
    [console.warn] lines, [sdfCalls] the calls of [generateSDFInWorker] in
    call order, [delivered] the callback invocations in order. *)
Record World (num : Type) := mkWorld {
  CONFIG : Config num;
  hasRequested : bool;
  atlases : gmap string (Atlas num);
  warnings : list string;
  sdfCalls : list (SDFCall num);
  awaitingTypeset : list (AwaitTypeset num);
  awaitingSDFs : list (AwaitSDFs num);
  delivered : list (RenderInfo num)
}.
Arguments mkWorld {num}.
Arguments CONFIG {num}.
Arguments hasRequested {num}.
Arguments atlases {num}.
Arguments warnings {num}.
Arguments sdfCalls {num}.
Arguments awaitingTypeset {num}.
Arguments awaitingSDFs {num}.
Arguments delivered {num}.

(** ** Operations *)

Section Builder.
Context {num : Type} `{JSNumber num}.

(** [toAbsoluteURL] resolves a path through a DOM anchor element; it is
    left abstract. *)
Variable toAbsoluteURL : string → string.

Local Open Scope num_scope.

(** The initial [CONFIG]. *)
Definition defaultConfig : Config num :=
  {| defaultFontURL := "https://fonts.gstatic.com/s/roboto/v18/KFOmCnqEu92Fr1Mu4mxM.woff";
     sdfGlyphSize := 64;
     sdfMargin := num_of_nat 1 /! num_of_nat 16;
     sdfExponent := num_of_nat 9;
     textureWidth := 2048 |}.

(** The module as loaded: [hasRequested = false], no atlas. *)
Definition initialWorld : World num :=
  {| CONFIG := defaultConfig;
     hasRequested := false;
     atlases := ∅;
     warnings := [];
     sdfCalls := [];
     awaitingTypeset := [];
     awaitingSDFs := [];
     delivered := [] |}.

(** [assign(CONFIG, config)]: every key the argument has is copied. *)
Definition assign (toObj : Config num) (fromObj : ConfigOptions num) : Config num :=
  {| defaultFontURL := default (defaultFontURL toObj) (optDefaultFontURL fromObj);
     sdfGlyphSize := default (sdfGlyphSize toObj) (optSdfGlyphSize fromObj);
     sdfMargin := default (sdfMargin toObj) (optSdfMargin fromObj);
     sdfExponent := default (sdfExponent toObj) (optSdfExponent fromObj);
     textureWidth := default (textureWidth toObj) (optTextureWidth fromObj) |}.

Definition configWarning : string :=
  "configureTextBuilder called after first font request; will be ignored.".

Definition configureTextBuilder (w : World num) (config : ConfigOptions num)
  : World num :=
  if hasRequested w then
    {| CONFIG := CONFIG w;
       hasRequested := hasRequested w;
       atlases := atlases w;
       warnings := warnings w ++ [configWarning];
       sdfCalls := sdfCalls w;
       awaitingTypeset := awaitingTypeset w;
       awaitingSDFs := awaitingSDFs w;
       delivered := delivered w |}
  else
    {| CONFIG := assign (CONFIG w) config;
       hasRequested := hasRequested w;
       atlases := atlases w;
       warnings := warnings w;
       sdfCalls := sdfCalls w;
       awaitingTypeset := awaitingTypeset w;
       awaitingSDFs := awaitingSDFs w;
       delivered := delivered w |}.

(** [a || b] on an optional string and on an optional number: the empty
    string and 0 are falsy. *)
Definition orString (a : option string) (b : string) : string :=
  match a with
  | Some EmptyString | None => b
  | Some s => s
  end.

Definition orNat (a : option nat) (b : nat) : nat :=
  match a with
  | Some O | None => b
  | Some n => n
  end.

Definition atlasKeyOf (font : string) (sdfGlyphSize : nat) : string :=
  font +:+ "@" +:+ pretty sdfGlyphSize.

Definition newAtlas (font : string) (sdfGlyphSize textureWidth : nat) : Atlas num :=
  {| count := 0;
     glyphs := ∅;
     sdfTexture := {| image := Texture.newTexImage sdfGlyphSize textureWidth;
                      font := font;
                      needsUpdate := false |} |}.

(** The normalization of [args]: default font made absolute, text as it
    is (a string), default glyph size. *)
Definition normalizeArgs (config : Config num) (args : Args) : NormArgs :=
  {| nFont := toAbsoluteURL (orString (argFont args) (defaultFontURL config));
     nText := argText args;
     nSdfGlyphSize := orNat (argSdfGlyphSize args) (sdfGlyphSize config) |}.

(** The synchronous part of [getTextRenderInfo(args, callback)], up to the
    call of [typesetInWorker]. *)
Definition getTextRenderInfo (w : World num) (args : Args) : World num :=
  let nargs := normalizeArgs (CONFIG w) args in
  let font := nFont nargs in
  let size := nSdfGlyphSize nargs in
  let atlasKey := atlasKeyOf font size in
  let atlases' :=
    match atlases w !! atlasKey with
    | Some _ => atlases w
    | None => <[atlasKey := newAtlas font size (textureWidth (CONFIG w))]> (atlases w)
    end in
  {| CONFIG := CONFIG w;
     hasRequested := true;
     atlases := atlases';
     warnings := warnings w;
     sdfCalls := sdfCalls w;
     awaitingTypeset :=
       awaitingTypeset w ++
       [ {| atArgs := nargs; atAtlasKey := atlasKey;
            atSdfExponent := sdfExponent (CONFIG w) |} ];
     awaitingSDFs := awaitingSDFs w;
     delivered := delivered w |}.

(** The margin around a glyph's path, in font units. *)
Definition fontUnitsMargin (sdfMargin : num) (sdfGlyphSize : nat)
    (pathBounds : Bounds num) : num :=
  num_max (b2 pathBounds -! b0 pathBounds) (b3 pathBounds -! b1 pathBounds)
    /! num_of_nat sdfGlyphSize
    *! (sdfMargin *! num_of_nat sdfGlyphSize +! num_half).

Definition viewBoxOf (pathBounds : Bounds num) (fontUnitsMargin : num) : Bounds num :=
  {| b0 := b0 pathBounds -! fontUnitsMargin;
     b1 := b1 pathBounds -! fontUnitsMargin;
     b2 := b2 pathBounds +! fontUnitsMargin;
     b3 := b3 pathBounds +! fontUnitsMargin |}.

(** The variables the [glyphIds.forEach] callback reads and writes. *)
Record LoopState := mkLoopState {
  lsAtlas : Atlas num;
  lsNeededSDFs : list (GlyphInfo num);
  lsGlyphBounds : list (option num);
  lsPositionsIdx : nat;
  lsGlyphIds : list nat
}.

(** The loop variables as the continuation initializes them. *)
Definition newLoopState (atlas : Atlas num) : LoopState :=
  {| lsAtlas := atlas; lsNeededSDFs := []; lsGlyphBounds := [];
     lsPositionsIdx := 0; lsGlyphIds := [] |}.

(** The first half of the callback: look the glyph up, and add it to the
    atlas if it is new.  [None] is the TypeError thrown when
    [result.glyphData] has no entry for a new glyph. *)
Definition lookupOrAdd (sdfMargin : num) (sdfGlyphSize : nat)
    (glyphData : gmap nat (GlyphData num)) (atlas : Atlas num)
    (neededSDFs : list (GlyphInfo num)) (glyphId : nat)
  : option (Atlas num * list (GlyphInfo num) * GlyphInfo num) :=
  match glyphs atlas !! glyphId with
  | Some glyphInfo => Some (atlas, neededSDFs, glyphInfo)
  | None =>
      gd ← glyphData !! glyphId;
      let margin := fontUnitsMargin sdfMargin sdfGlyphSize (pathBounds gd) in
      let atlasIndex := count atlas in
      let glyphInfo :=
        {| path := gdPath gd; atlasIndex := atlasIndex;
           sdfViewBox := viewBoxOf (pathBounds gd) margin |} in
      Some ({| count := count atlas + 1;
               glyphs := <[glyphId := glyphInfo]> (glyphs atlas);
               sdfTexture := sdfTexture atlas |},
            neededSDFs ++ [glyphInfo],
            glyphInfo)
  end.

(** [glyphBounds[boundsIdx++] = pos + v * fontSizeMult]: the sum as the
    [Float32Array] keeps it.  [pos] may be [undefined]; the sum is then
    NaN, and so is the element stored. *)
Definition quadCoord (pos : option num) (v fontSizeMult : num) : option num :=
  (λ p, num_fround (p +! v *! fontSizeMult)) <$> pos.

(** The whole callback for one glyph id. *)
Definition visitGlyph (sdfMargin : num) (sdfGlyphSize : nat)
    (result : TypesetResult num) (st : LoopState) (glyphId : nat)
  : option LoopState :=
  '(atlas, needed, glyphInfo) ←
    lookupOrAdd sdfMargin sdfGlyphSize (glyphData result) (lsAtlas st)
                (lsNeededSDFs st) glyphId;
  let fontSizeMult := fontSize result /! unitsPerEm result in
  let vb := sdfViewBox glyphInfo in
  let posX := glyphPositions result !! lsPositionsIdx st in
  let posY := glyphPositions result !! (lsPositionsIdx st + 1) in
  Some {| lsAtlas := atlas;
          lsNeededSDFs := needed;
          lsGlyphBounds :=
            lsGlyphBounds st ++
            [ quadCoord posX (b0 vb) fontSizeMult;
              quadCoord posY (b1 vb) fontSizeMult;
              quadCoord posX (b2 vb) fontSizeMult;
              quadCoord posY (b3 vb) fontSizeMult ];
          lsPositionsIdx := lsPositionsIdx st + 2;
          lsGlyphIds := lsGlyphIds st ++ [atlasIndex glyphInfo] |}.

(** [glyphIds.forEach(...)]: the state when the loop ends, and whether it
    ended normally ([false]: the callback threw, the rest is skipped). *)
Fixpoint forEachGlyph (sdfMargin : num) (sdfGlyphSize : nat)
    (result : TypesetResult num) (ids : list nat) (st : LoopState)
  : LoopState * bool :=
  match ids with
  | [] => (st, true)
  | glyphId :: rest =>
      match visitGlyph sdfMargin sdfGlyphSize result st glyphId with
      | Some st' => forEachGlyph sdfMargin sdfGlyphSize result rest st'
      | None => (st, false)
      end
  end.

Definition maxDistOf (sdfViewBox : Bounds num) : num :=
  num_max (b2 sdfViewBox -! b0 sdfViewBox) (b3 sdfViewBox -! b1 sdfViewBox).

(** The rasterizer call made for one element of [neededSDFs]. *)
Definition sdfCallOf (atlasKey : string) (sdfGlyphSize : nat) (sdfExponent : num)
    (g : GlyphInfo num) : SDFCall num :=
  {| callWidth := sdfGlyphSize;
     callHeight := sdfGlyphSize;
     callPath := path g;
     callViewBox := sdfViewBox g;
     callMaxDist := maxDistOf (sdfViewBox g);
     callExponent := sdfExponent;
     callAtlas := atlasKey;
     callAtlasIndex := atlasIndex g |}.

(** The continuation run when the typesetter answers the [i]-th waiting
    request: the [forEach] over the glyph ids, then one rasterizer call
    per new glyph.  If the loop throws, the changes made to the atlas so
    far stay and nothing else happens. *)
Definition onTypesetResult (w : World num) (i : nat) (result : TypesetResult num)
  : World num :=
  match awaitingTypeset w !! i with
  | None => w
  | Some req =>
      match atlases w !! atAtlasKey req with
      | None => w
      | Some atlas =>
          let size := nSdfGlyphSize (atArgs req) in
          let '(st, completed) :=
            forEachGlyph (sdfMargin (CONFIG w)) size result (glyphIds result)
              (newLoopState atlas) in
          {| CONFIG := CONFIG w;
             hasRequested := hasRequested w;
             atlases := <[atAtlasKey req := lsAtlas st]> (atlases w);
             warnings := warnings w;
             sdfCalls :=
               if completed
               then sdfCalls w ++
                    map (sdfCallOf (atAtlasKey req) size (sdfExponent (CONFIG w)))
                        (lsNeededSDFs st)
               else sdfCalls w;
             awaitingTypeset := delete i (awaitingTypeset w);
             awaitingSDFs :=
               if completed
               then awaitingSDFs w ++
                    [ {| asRequest := req; neededSDFs := lsNeededSDFs st;
                         asGlyphBounds := lsGlyphBounds st;
                         asGlyphIds := lsGlyphIds st |} ]
               else awaitingSDFs w;
             delivered := delivered w |}
      end
  end.

(** The continuation run when all rasterizers of the [j]-th waiting
    request have answered; [textures] are their [textureData], in the
    order of [neededSDFs] ([Thenable.all] is taken to resolve once every
    task has, with the results in task order, hence at once for no task).
    It cannot run with another number of answers, and while the growth
    loop does not return there is no next state. *)
Definition onSDFResults (w : World num) (j : nat) (textures : list (list byte))
  : World num :=
  match awaitingSDFs w !! j with
  | None => w
  | Some p =>
      let req := asRequest p in
      match atlases w !! atAtlasKey req with
      | None => w
      | Some atlas =>
          if negb (length textures =? length (neededSDFs p)) then w
          else
            let size := nSdfGlyphSize (atArgs req) in
            let tex := sdfTexture atlas in
            let written :=
              match neededSDFs p with
              | [] => Some tex
              | _ =>
                  img ← Texture.insertAll size
                          (zip (atlasIndex <$> neededSDFs p) textures) (image tex);
                  Some {| image := img; font := font tex; needsUpdate := true |}
              end in
            match written with
            | None => w
            | Some tex' =>
                {| CONFIG := CONFIG w;
                   hasRequested := hasRequested w;
                   atlases :=
                     <[atAtlasKey req :=
                         {| count := count atlas; glyphs := glyphs atlas;
                            sdfTexture := tex' |}]> (atlases w);
                   warnings := warnings w;
                   sdfCalls := sdfCalls w;
                   awaitingTypeset := awaitingTypeset w;
                   awaitingSDFs := delete j (awaitingSDFs w);
                   delivered :=
                     delivered w ++
                     [ {| parameters := atArgs req;
                          riTexture := atAtlasKey req;
                          riSdfGlyphSize := size;
                          riSdfExponent := atSdfExponent req;
                          glyphBounds := asGlyphBounds p;
                          glyphAtlasIndices := asGlyphIds p |} ] |}
            end
      end
  end.

(** What can happen to the module, one event at a time: the two entry
    points, and the two kinds of answer arriving from the workers, for any
    waiting request in any order. *)
Inductive Event :=
  | Configure (config : ConfigOptions num)
  | Request (args : Args)
  | TypesetDone (i : nat) (result : TypesetResult num)
  | SDFsDone (j : nat) (textures : list (list byte)).

Definition step (w : World num) (e : Event) : World num :=
  match e with
  | Configure config => configureTextBuilder w config
  | Request args => getTextRenderInfo w args
  | TypesetDone i result => onTypesetResult w i result
  | SDFsDone j textures => onSDFResults w j textures
  end.

Definition run (evs : list Event) (w : World num) : World num :=
  fold_left step evs w.

End Builder.

Arguments LoopState num : clear implicits.
Arguments Event num : clear implicits.

(** ** Notions used to state the properties *)

Section Notions.
Context {num : Type} `{JSNumber num}.

(** What one answer of the typesetter does to an atlas, and what a
    series of answers does. *)
Definition typesetOn (sdfMargin : num) (sdfGlyphSize : nat) (atlas : Atlas num)
    (result : TypesetResult num) : Atlas num :=
  lsAtlas (forEachGlyph sdfMargin sdfGlyphSize result (glyphIds result)
             (newLoopState atlas)).1.


(** The typesetter's contract on [glyphData]: it has an entry for every
    glyph id of the answer. *)
Definition covered (result : TypesetResult num) : Prop :=
  Forall (λ glyphId, is_Some (glyphData result !! glyphId)) (glyphIds result).

(** The glyph ids of a sequence in the order of their first occurrence. *)
Definition firstSeenFrom (seen ids : list nat) : list nat :=
  fold_left (λ acc glyphId, if decide (glyphId ∈ acc) then acc else acc ++ [glyphId])
            ids seen.

Definition firstSeen (ids : list nat) : list nat := firstSeenFrom [] ids.


(** As many entries as slots handed out, each entry in a slot handed
    out. *)
Definition atlasOK (atlas : Atlas num) : Prop :=
  size (glyphs atlas) = count atlas ∧
  ∀ glyphId e, glyphs atlas !! glyphId = Some e → atlasIndex e < count atlas.

(** The slot a rasterizer call is for. *)
Definition callSlot (c : SDFCall num) : string * nat :=
  (callAtlas c, callAtlasIndex c).

(** What holds of the module after any sequence of events: every atlas is
    consistent, no two rasterizer calls are for the same slot, and every
    call is for a slot its atlas has handed out. *)
Definition worldOK (w : World num) : Prop :=
  (∀ k a, atlases w !! k = Some a → atlasOK a) ∧
  NoDup (callSlot <$> sdfCalls w) ∧
  (∀ c, c ∈ sdfCalls w →
        ∃ a, atlases w !! callAtlas c = Some a ∧ callAtlasIndex c < count a).

(** Modelled from the spec: the typesetting collaborator
    ([worker/Typesetter.js] is not among the sources).  Spec 4.5, step 3:
    it returns, for each character, a resolved glyph identifier and pen
    position. *)
Definition typesetterAnswers (args : NormArgs) (result : TypesetResult num) : Prop :=
  length (glyphIds result) = String.length (nText args) ∧
  length (glyphPositions result) = 2 * String.length (nText args).

(** What the loop keeps true, whether or not it ends normally: the
    entries the atlas had stay as they were, the texture is not touched,
    and the glyphs queued are exactly those put in the slots handed out
    since the loop began. *)
Definition loopInv (a0 : Atlas num) (st : LoopState num) : Prop :=
  atlasOK (lsAtlas st) ∧
  count (lsAtlas st) = count a0 + length (lsNeededSDFs st) ∧
  atlasIndex <$> lsNeededSDFs st = seq (count a0) (length (lsNeededSDFs st)) ∧
  (∀ glyphId e, glyphs a0 !! glyphId = Some e →
                glyphs (lsAtlas st) !! glyphId = Some e) ∧
  sdfTexture (lsAtlas st) = sdfTexture a0.

End Notions.

(** ** The end-to-end scenario of the specification

    [sdfGlyphSize = 32], [textureWidth = 128], the text "AA" in a font
    whose glyph "A" (glyph id 36 here) has path bounds [0, 0, 100, 100],
    [unitsPerEm = 1000], [fontSize = 10].  In a non-DOM context
    [toAbsoluteURL] gives its argument back. *)

Module Scenario.
Section Scenario.
Context {num : Type} `{JSNumber num}.

Definition url (p : string) : string := p.

Definition boundsA : Bounds num :=
  mkBounds (num_of_nat 0) (num_of_nat 0) (num_of_nat 100) (num_of_nat 100).

Definition config : ConfigOptions num :=
  {| optDefaultFontURL := None;
     optSdfGlyphSize := Some 32;
     optSdfMargin := None;
     optSdfExponent := None;
     optTextureWidth := Some 128 |}.

Definition request : Args :=
  {| argFont := Some "a.woff"; argText := "AA"; argSdfGlyphSize := None |}.

Definition typeset : TypesetResult num :=
  {| glyphIds := [36; 36];
     glyphPositions := [num_of_nat 0; num_of_nat 0; num_of_nat 6; num_of_nat 0];
     glyphData := {[ 36 := {| gdPath := "M0,0L100,0L100,100L0,100Z";
                              pathBounds := boundsA |} ]};
     fontSize := num_of_nat 10;
     unitsPerEm := num_of_nat 1000 |}.

(** Up to the rasterizer calls, and up to the callback. *)
Definition dispatched : World num :=
  run url [Configure config; Request request; TypesetDone 0 typeset] initialWorld.

Definition completed (textureData : list byte) : World num :=
  onSDFResults dispatched 0 [textureData].

(** The atlas and the entry the first answer leaves behind. *)
Definition entryA : GlyphInfo num :=
  {| path := "M0,0L100,0L100,100L0,100Z";
     atlasIndex := 0;
     sdfViewBox :=
       viewBoxOf boundsA (fontUnitsMargin (sdfMargin defaultConfig) 32 boundsA) |}.

Definition atlasA : Atlas num :=
  typesetOn (sdfMargin defaultConfig) 32 (newAtlas "a.woff" 32 128) typeset.

(** The same text requested again, and the first request completed. *)
Definition again : list (Event num) :=
  [Request request; TypesetDone 0 typeset; SDFsDone 0 [[]]; SDFsDone 0 []].

(** Two answers over three glyphs: ids 7, 3, 7 and then 9, 3. *)
Definition glyph (name : string) : GlyphData num :=
  {| gdPath := name; pathBounds := boundsA |}.

Definition answer (ids : list nat) : TypesetResult num :=
  {| glyphIds := ids;
     glyphPositions := [];
     glyphData := {[ 3 := glyph "three"; 7 := glyph "seven"; 9 := glyph "nine" ]};
     fontSize := num_of_nat 10;
     unitsPerEm := num_of_nat 1000 |}.

(** The typesetter's answer for the empty string. *)
Definition emptyRequest : Args :=
  {| argFont := None; argText := ""; argSdfGlyphSize := None |}.

Definition emptyAnswer : TypesetResult num :=
  {| glyphIds := [];
     glyphPositions := [];
     glyphData := ∅;
     fontSize := num_of_nat 10;
     unitsPerEm := num_of_nat 1000 |}.

End Scenario.
End Scenario.

(** ** Slots never written *)


(** ** Preloading *)

Section Preload.
Context {num : Type} `{JSNumber num}.
Variable toAbsoluteURL : string → string.

(** The [characters] option of [preloadFont]: an array of strings, one
    string, or left out. *)
Inductive Characters :=
  | CharsArray (sequences : list string)
  | CharsString (s : string)
  | CharsUndefined.

(** The argument of [preloadFont]. *)
Record PreloadOptions := mkPreloadOptions {
  poFont : option string;
  poCharacters : Characters;
  poSdfGlyphSize : option nat
}.

Definition newline : string := String (Ascii.ascii_of_nat 10) EmptyString.

(** [Array.isArray(characters) ? characters.join('\n') : '' + characters];
    [undefined] concatenates as the nine letters of its name. *)
Definition preloadText (characters : Characters) : string :=
  match characters with
  | CharsArray sequences => String.concat newline sequences
  | CharsString s => s
  | CharsUndefined => "undefined"
  end.

(** [preloadFont({font, characters, sdfGlyphSize}, callback)], up to the
    call of the typesetter. *)
Definition preloadFont (w : World num) (options : PreloadOptions) : World num :=
  getTextRenderInfo toAbsoluteURL w
    {| argFont := poFont options;
       argText := preloadText (poCharacters options);
       argSdfGlyphSize := poSdfGlyphSize options |}.

End Preload.

(** ** The pool of rasterizer workers *)

Module Pool.

Definition threadCount : nat := 4.

Definition workerIdOf (lane : nat) : string :=
  "TroikaTextSDFGenerator_" +:+ pretty lane.

(** An element of [threads]; its [workerModule] is determined by the
    worker id it is stored under.  [idleTimer] is [null] or the id the
    last [setTimeout] returned. *)
Record Thread := mkThread {
  requests : Z;
  idleTimer : option nat
}.

(** The closure state of [generateSDFInWorker] and what it acts on:
    [timers] are the timeouts set and neither fired nor cleared, each with
    the worker id its callback holds; [nextTimer] is the id the next
    [setTimeout] returns (ids are never reused); [inFlight] are the worker
    ids of the calls whose promise has not resolved yet, oldest first;
    [dispatched] lists the worker modules invoked, and [terminated] the
    [terminateWorker] calls, in order. *)
Record State := mkState {
  threads : gmap string Thread;
  callNum : nat;
  timers : gmap nat string;
  nextTimer : nat;
  inFlight : list string;
  dispatched : list string;
  terminated : list string
}.

Definition initial : State :=
  {| threads := ∅; callNum := 0; timers := ∅; nextTimer := 1;
     inFlight := []; dispatched := []; terminated := [] |}.

(** [clearTimeout(id)]: nothing happens for [null] or for a timer that is
    no longer pending. *)
Definition clearTimeout (id : option nat) (timers : gmap nat string)
  : gmap nat string :=
  match id with
  | Some i => delete i timers
  | None => timers
  end.

(** One call of [generateSDFInWorker(...args)], up to the return of the
    promise. *)
Definition call (p : State) : State :=
  let workerId := workerIdOf (callNum p mod threadCount) in
  let thread :=
    match threads p !! workerId with
    | Some thread => thread
    | None => {| requests := 0; idleTimer := None |}
    end in
  {| threads :=
       <[workerId := {| requests := requests thread + 1;
                        idleTimer := idleTimer thread |}]> (threads p);
     callNum := callNum p + 1;
     timers := clearTimeout (idleTimer thread) (timers p);
     nextTimer := nextTimer p;
     inFlight := inFlight p ++ [workerId];
     dispatched := dispatched p ++ [workerId];
     terminated := terminated p |}.

(** The [then] callback of the [i]-th call in flight, run when its worker
    answers. *)
Definition resolve (p : State) (i : nat) : State :=
  match inFlight p !! i with
  | None => p
  | Some workerId =>
      match threads p !! workerId with
      | None => p
      | Some thread =>
          let requests' := (requests thread - 1)%Z in
          if (requests' =? 0)%Z then
            {| threads :=
                 <[workerId := {| requests := requests';
                                  idleTimer := Some (nextTimer p) |}]> (threads p);
               callNum := callNum p;
               timers := <[nextTimer p := workerId]> (timers p);
               nextTimer := nextTimer p + 1;
               inFlight := delete i (inFlight p);
               dispatched := dispatched p;
               terminated := terminated p |}
          else
            {| threads :=
                 <[workerId := {| requests := requests';
                                  idleTimer := idleTimer thread |}]> (threads p);
               callNum := callNum p;
               timers := timers p;
               nextTimer := nextTimer p;
               inFlight := delete i (inFlight p);
               dispatched := dispatched p;
               terminated := terminated p |}
      end
  end.

(** A pending timeout fires: [terminateWorker(workerId)]. *)
Definition timeout (p : State) (id : nat) : State :=
  match timers p !! id with
  | None => p
  | Some workerId =>
      {| threads := threads p;
         callNum := callNum p;
         timers := delete id (timers p);
         nextTimer := nextTimer p;
         inFlight := inFlight p;
         dispatched := dispatched p;
         terminated := terminated p ++ [workerId] |}
  end.

(** What can happen to the pool.  Time is not measured: a timeout may
    fire at any moment after it was set. *)
Inductive PoolEvent :=
  | Call
  | Resolve (i : nat)
  | Timeout (id : nat).

#[export] Instance PoolEvent_eq_dec : EqDecision PoolEvent.
Proof. solve_decision. Defined.

Definition poolStep (p : State) (e : PoolEvent) : State :=
  match e with
  | Call => call p
  | Resolve i => resolve p i
  | Timeout id => timeout p id
  end.

Definition poolRun (evs : list PoolEvent) (p : State) : State :=
  fold_left poolStep evs p.

(** The calls in flight on one worker. *)
Definition inFlightOn (workerId : string) (p : State) : nat :=
  length (filter (λ w, w = workerId) (inFlight p)).

(** What holds of the pool after any sequence of events. *)
Definition poolOK (p : State) : Prop :=
  (∀ workerId t, threads p !! workerId = Some t →
     requests t = Z.of_nat (inFlightOn workerId p) ∧
     (∃ lane, lane < threadCount ∧ workerId = workerIdOf lane) ∧
     (∀ id, idleTimer t = Some id → id < nextTimer p)) ∧
  (∀ workerId, workerId ∈ inFlight p → is_Some (threads p !! workerId)) ∧
  (∀ id workerId, timers p !! id = Some workerId →
     id < nextTimer p ∧
     ∃ t, threads p !! workerId = Some t ∧ requests t = 0%Z ∧ idleTimer t = Some id) ∧
  (∀ workerId workerId' t t' id,
     threads p !! workerId = Some t → threads p !! workerId' = Some t' →
     idleTimer t = Some id → idleTimer t' = Some id → workerId = workerId').

End Pool.

(** ** Counting requests *)

(** Whether an event is a call of [getTextRenderInfo]. *)
Definition isRequest {num : Type} (ev : Event num) : bool :=
  match ev with
  | Request _ => true
  | _ => false
  end.

(** The requests that are under way or done: waiting for the typesetter,
    waiting for the rasterizers, or called back. *)
Definition accountedFor {num : Type} (w : World num) : nat :=
  length (awaitingTypeset w) + length (awaitingSDFs w) + length (delivered w).

(** The indices handed to a callback, or about to be, are slots of their
    atlas, and come with four bounds each. *)
Definition outputsOK {num : Type} (w : World num) : Prop :=
  (∀ p, p ∈ awaitingSDFs w →
     ∃ a, atlases w !! atAtlasKey (asRequest p) = Some a ∧
          Forall (λ i, i < count a) (asGlyphIds p) ∧
          length (asGlyphBounds p) = 4 * length (asGlyphIds p)) ∧
  (∀ ri, ri ∈ delivered w →
     ∃ a, atlases w !! riTexture ri = Some a ∧
          Forall (λ i, i < count a) (glyphAtlasIndices ri) ∧
          length (glyphBounds ri) = 4 * length (glyphAtlasIndices ri)).

(** ** Atlases and their keys *)

(** A waiting request names its atlas by the key made of its own font
    and glyph size. *)
Definition ownKey {num : Type} (req : AwaitTypeset num) : Prop :=
  atAtlasKey req = atlasKeyOf (nFont (atArgs req)) (nSdfGlyphSize (atArgs req)).

(** No atlas before the first request; every waiting request has its
    atlas; and every atlas is the one of the font and glyph size its key
    is made of, its image being as wide as configured and the glyph size
    high, doubled some number of times. *)
Definition texturesOK {num : Type} (w : World num) : Prop :=
  (hasRequested w = false → atlases w = ∅) ∧
  (∀ req, req ∈ awaitingTypeset w →
     ownKey req ∧ is_Some (atlases w !! atAtlasKey req)) ∧
  (∀ p, p ∈ awaitingSDFs w →
     ownKey (asRequest p) ∧ is_Some (atlases w !! atAtlasKey (asRequest p))) ∧
  (∀ k a, atlases w !! k = Some a →
     ∃ f g j, k = atlasKeyOf f g ∧ font (sdfTexture a) = f ∧
              Texture.rectangular g (textureWidth (CONFIG w)) j (image (sdfTexture a))).

(** * Properties *)

(** ** The texture: growth *)

Module TextureFacts.
Import Texture.

#[local] Arguments growOnce : simpl never.

Lemma growOnce_data texImg :
  data (growOnce texImg) = data texImg ++ replicate (length (data texImg)) x00.
Proof.
  unfold growOnce, typedArraySet, newUint8Array; simpl.
  rewrite drop_replicate. do 2 f_equal. lia.
Qed.

Lemma growOnce_length texImg :
  length (data (growOnce texImg)) = length (data texImg) * 2.
Proof. rewrite growOnce_data, length_app, length_replicate. lia. Qed.

Lemma growOnce_width texImg : width (growOnce texImg) = width texImg.
Proof. reflexivity. Qed.

Lemma growOnce_height texImg : height (growOnce texImg) = height texImg * 2.
Proof. reflexivity. Qed.

Lemma iter_S {A} (f : A → A) k x : Nat.iter (S k) f x = f (Nat.iter k f x).
Proof. reflexivity. Qed.

(** [k] turns of the loop body. *)
Lemma grown_length k texImg :
  length (data (Nat.iter k growOnce texImg)) = length (data texImg) * 2 ^ k.
Proof.
  induction k as [|k IH]; [simpl; lia|].
  rewrite iter_S, growOnce_length, IH, Nat.pow_succ_r'. lia.
Qed.

Lemma grown_width k texImg : width (Nat.iter k growOnce texImg) = width texImg.
Proof. induction k as [|k IH]; [done|]. by rewrite iter_S, growOnce_width. Qed.

Lemma grown_height k texImg :
  height (Nat.iter k growOnce texImg) = height texImg * 2 ^ k.
Proof.
  induction k as [|k IH]; [simpl; lia|].
  rewrite iter_S, growOnce_height, IH, Nat.pow_succ_r'. lia.
Qed.

Lemma grown_data k texImg :
  data (Nat.iter k growOnce texImg)
  = data texImg ++ replicate (length (data texImg) * 2 ^ k - length (data texImg)) x00.
Proof.
  induction k as [|k IH].
  - simpl. replace (_ - _) with 0 by lia. by rewrite app_nil_r.
  - rewrite iter_S, growOnce_data, grown_length, IH, <- app_assoc, <- replicate_add.
    do 2 f_equal. rewrite Nat.pow_succ_r'.
    assert (1 <= 2 ^ k) by (pose proof (Nat.pow_nonzero 2 k); lia). nia.
Qed.

Lemma iter_growOnce_comm k texImg :
  Nat.iter k growOnce (growOnce texImg) = growOnce (Nat.iter k growOnce texImg).
Proof. induction k as [|k IH]; [done|]. by rewrite !iter_S, IH. Qed.

(** What the loop returns: the image after the least number of doublings
    that makes room. *)
Lemma growLoop_Some fuel g s texImg texImg' :
  growLoop fuel g s texImg = Some texImg' →
  ∃ k, texImg' = Nat.iter k growOnce texImg ∧
       (s + 1) * g * g ≤ length (data texImg) * 2 ^ k ∧
       ∀ j, j < k → length (data texImg) * 2 ^ j < (s + 1) * g * g.
Proof.
  revert texImg. induction fuel as [|fuel IH]; intros texImg; simpl; [done|].
  destruct (Nat.ltb_spec (length (data texImg)) ((s + 1) * g * g)) as [Hlt|Hge].
  - intros (k & -> & Hk & Hmin)%IH. exists (S k). split; [|split].
    + by rewrite iter_S, <- iter_growOnce_comm.
    + rewrite growOnce_length in Hk. rewrite Nat.pow_succ_r'. lia.
    + intros [|j] Hj; [simpl; lia|].
      specialize (Hmin j ltac:(lia)). rewrite growOnce_length in Hmin.
      rewrite Nat.pow_succ_r'. lia.
  - intros [= <-]. exists 0. simpl. split; [done|]. split; [lia|]. lia.
Qed.

(** The loop returns whenever the array is not empty. *)
Lemma growLoop_enough fuel g s texImg :
  0 < length (data texImg) →
  (s + 1) * g * g ≤ length (data texImg) * 2 ^ fuel →
  is_Some (growLoop (S fuel) g s texImg).
Proof.
  revert texImg. induction fuel as [|fuel IH]; intros texImg Hpos Hfuel.
  - simpl in *. destruct (Nat.ltb_spec (length (data texImg)) ((s + 1) * g * g)); [lia|eauto].
  - cbn [growLoop].
    destruct (Nat.ltb_spec (length (data texImg)) ((s + 1) * g * g)); [|eauto].
    rewrite Nat.pow_succ_r' in Hfuel. apply IH; rewrite growOnce_length; lia.
Qed.

Lemma growLoop_total g s texImg :
  0 < length (data texImg) →
  is_Some (growLoop (growFuel g s) g s texImg).
Proof.
  intros Hpos. apply growLoop_enough; [done|].
  pose proof (Nat.pow_gt_lin_r 2 ((s + 1) * g * g) ltac:(lia)). nia.
Qed.

(** ** The texture: shape *)

Lemma wellShaped_new g c :
  0 < g → 0 < c → wellShaped g (newTexImage g (c * g)).
Proof.
  intros Hg Hc. exists c, 1. unfold newTexImage, newUint8Array; simpl.
  rewrite length_replicate. repeat split; lia.
Qed.

Lemma wellShaped_growOnce g texImg :
  wellShaped g texImg → wellShaped g (growOnce texImg).
Proof.
  intros (c & r & Hg & Hc & Hr & Hw & Hh & Hlen).
  exists c, (r * 2). rewrite growOnce_length, growOnce_width, growOnce_height.
  repeat split; try lia.
Qed.

Lemma wellShaped_grown g k texImg :
  wellShaped g texImg → wellShaped g (Nat.iter k growOnce texImg).
Proof. intros Hws. induction k; [done|]. rewrite iter_S. by apply wellShaped_growOnce. Qed.

Lemma wellShaped_pos g texImg : wellShaped g texImg → 0 < length (data texImg).
Proof. intros (c & r & Hg & Hc & Hr & Hw & Hh & Hlen). nia. Qed.

(** A well-shaped image holds a whole number of slots. *)
Lemma wellShaped_capacity g texImg :
  wellShaped g texImg →
  0 < slotCapacity g texImg ∧
  length (data texImg) = slotCapacity g texImg * (g * g).
Proof.
  intros (c & r & Hg & Hc & Hr & Hw & Hh & Hlen). unfold slotCapacity.
  assert (length (data texImg) = (4 * c * r) * (g * g)) as -> by nia.
  rewrite Nat.div_mul by nia. split; nia.
Qed.

Lemma grown_capacity g k texImg :
  wellShaped g texImg →
  slotCapacity g (Nat.iter k growOnce texImg) = slotCapacity g texImg * 2 ^ k.
Proof.
  intros Hws. destruct (wellShaped_capacity _ _ Hws) as [_ Hlen].
  destruct Hws as (c & r & Hg & _).
  unfold slotCapacity at 1. rewrite grown_length, Hlen.
  replace (slotCapacity g texImg * (g * g) * 2 ^ k)
    with (slotCapacity g texImg * 2 ^ k * (g * g)) by lia.
  apply Nat.div_mul. nia.
Qed.

(** ** The texture: packing addresses *)

Lemma split_unique n a b a' b' :
  b < n → b' < n → a * n + b = a' * n + b' → a = a' ∧ b = b'.
Proof.
  intros Hb Hb' Heq.
  assert (a = a') as ->; [|lia].
  destruct (Nat.lt_trichotomy a a') as [Hlt|[?|Hlt]]; [exfalso | done | exfalso].
  - assert ((a + 1) * n ≤ a' * n) by (apply Nat.mul_le_mono_r; lia). lia.
  - assert ((a' + 1) * n ≤ a * n) by (apply Nat.mul_le_mono_r; lia). lia.
Qed.

(** The address is a whole number: in exact arithmetic
    [Math.floor(squareIndex / cols)] is the whole part of
    [squareIndex * sdfGlyphSize / width] and
    [(squareIndex % cols) * sdfGlyphSize] is what is left of
    [squareIndex * sdfGlyphSize]. *)
Lemma baseStartIndex_exact g texImg s :
  0 < g → 0 < width texImg →
  baseStartIndex g texImg s
  = squareIndex s * g / width texImg * width texImg * g * 4
    + (squareIndex s * g) mod width texImg * 4
    + channel s.
Proof.
  intros Hg HW. unfold baseStartIndex, toIndex, cols, remainder, ofNat.
  set (a := Z.of_nat (squareIndex s)). set (W := Z.of_nat (width texImg)).
  set (G := Z.of_nat g). set (ch := Z.of_nat (channel s)).
  assert (¬ (inject_Z W == 0)%Q) as HW0.
  { unfold Qeq. simpl. unfold W. lia. }
  assert (¬ (inject_Z G == 0)%Q) as HG0.
  { unfold Qeq. simpl. unfold G. lia. }
  assert (Qfloor (inject_Z a / (inject_Z W / inject_Z G)) = (a * G / W)%Z) as ->.
  { rewrite Zdiv_Qdiv. apply Qfloor_comp. rewrite inject_Z_mult. by field. }
  assert ((inject_Z (a * G / W) * inject_Z W * inject_Z G * 4
           + (inject_Z a - inject_Z W / inject_Z G * inject_Z (a * G / W)) * inject_Z G * 4
           + inject_Z ch
           == inject_Z (a * G / W * W * G * 4 + (a * G) mod W * 4 + ch))%Q) as ->.
  { rewrite Z.mod_eq by (unfold W; lia).
    rewrite !inject_Z_plus, !inject_Z_mult.
    unfold Zminus. rewrite inject_Z_plus, inject_Z_opp, !inject_Z_mult.
    change (inject_Z 4) with 4%Q. by field. }
  rewrite Qfloor_Z. unfold a, W, G, ch.
  rewrite <- !Nat2Z.inj_mul, <- Nat2Z.inj_div, <- Nat2Z.inj_mod.
  change 4%Z with (Z.of_nat 4).
  rewrite <- !Nat2Z.inj_mul, <- !Nat2Z.inj_add. apply Nat2Z.id.
Qed.

(** With whole squares across: the byte a slot's pixel lands on is
    channel [s mod 4] of the texel at column [x] and row [y] of square
    [s / 4], squares tiling the image left to right, then top to
    bottom. *)
Lemma baseStartIndex_squares g c texImg s :
  0 < g → 0 < c → width texImg = c * g →
  baseStartIndex g texImg s
  = squareIndex s / c * width texImg * g * 4 + squareIndex s mod c * g * 4 + channel s.
Proof.
  intros Hg Hc Hw. rewrite baseStartIndex_exact by lia. rewrite Hw.
  rewrite Nat.Div0.div_mul_cancel_r by lia.
  rewrite Nat.Div0.mul_mod_distr_r. lia.
Qed.

Lemma slotByteIndex_texel g c texImg s x y :
  0 < g → 0 < c → width texImg = c * g →
  slotByteIndex g texImg s x y
  = 4 * ((squareIndex s / c * g + y) * (c * g) + (squareIndex s mod c * g + x))
    + channel s.
Proof.
  intros Hg Hc Hw. unfold slotByteIndex.
  rewrite (baseStartIndex_squares g c) by done. rewrite Hw. lia.
Qed.

Lemma slotByteIndex_inj g c texImg s t x y x' y' :
  0 < g → 0 < c → width texImg = c * g →
  x < g → y < g → x' < g → y' < g →
  slotByteIndex g texImg s x y = slotByteIndex g texImg t x' y' →
  s = t ∧ x = x' ∧ y = y'.
Proof.
  intros Hg Hc Hw Hx Hy Hx' Hy'.
  rewrite !(slotByteIndex_texel g c) by done. unfold channel, squareIndex.
  intros Heq.
  pose proof (Nat.mod_upper_bound s 4 ltac:(lia)).
  pose proof (Nat.mod_upper_bound t 4 ltac:(lia)).
  pose proof (Nat.mod_upper_bound (s / 4) c ltac:(lia)) as Hcs.
  pose proof (Nat.mod_upper_bound (t / 4) c ltac:(lia)) as Hct.
  assert (s mod 4 = t mod 4 ∧
          (s / 4 / c * g + y) * (c * g) + (s / 4 mod c * g + x)
          = (t / 4 / c * g + y') * (c * g) + (t / 4 mod c * g + x')) as [Hch Htex]
    by lia.
  apply split_unique in Htex as [Hrow Hcol]; [| nia | nia].
  apply split_unique in Hrow as [Hr ->]; [| done | done].
  apply split_unique in Hcol as [Hcl ->]; [| done | done].
  pose proof (Nat.div_mod_eq (s / 4) c). pose proof (Nat.div_mod_eq (t / 4) c).
  assert (s / 4 = t / 4) by nia.
  pose proof (Nat.div_mod_eq s 4). pose proof (Nat.div_mod_eq t 4).
  repeat split; lia.
Qed.

(** Every byte of a slot below the capacity lies inside the array. *)
Lemma slotByteIndex_inside g texImg s x y :
  wellShaped g texImg → s < slotCapacity g texImg → x < g → y < g →
  slotByteIndex g texImg s x y < length (data texImg).
Proof.
  intros Hws Hs Hx Hy.
  destruct (wellShaped_capacity _ _ Hws) as [_ Hcap].
  destruct Hws as (c & r & Hg & Hc & Hr & Hw & Hh & Hlen).
  rewrite (slotByteIndex_texel g c) by done. unfold channel, squareIndex.
  assert (slotCapacity g texImg = 4 * c * r) as Hcr by nia.
  pose proof (Nat.mod_upper_bound s 4 ltac:(lia)).
  pose proof (Nat.mod_upper_bound (s / 4) c ltac:(lia)).
  assert (s / 4 < c * r) as Hsq
    by (apply Nat.Div0.div_lt_upper_bound; lia).
  assert (s / 4 / c < r) by (apply Nat.Div0.div_lt_upper_bound; lia).
  rewrite Hlen, Hw, Hh.
  assert (s / 4 / c * g + y + 1 ≤ r * g) by nia.
  assert (s / 4 mod c * g + x + 1 ≤ c * g) by nia.
  nia.
Qed.

(** ** The texture: writing a glyph *)

Lemma writeRow_length g td src row d :
  length (writeRow g td src row d) = length d.
Proof.
  unfold writeRow. generalize (seq 0 g). intros l. revert d.
  induction l as [|x l IH]; intros d; simpl; [done|].
  by rewrite IH, length_insert.
Qed.

Lemma writeRow_other g td src row d i :
  (∀ x, x < g → i ≠ row + x * 4) →
  writeRow g td src row d !! i = d !! i.
Proof.
  unfold writeRow. induction g as [|g IH]; intros Hi; [done|].
  rewrite seq_S, fold_left_app. simpl.
  rewrite list_lookup_insert_ne by (intros Heq; eapply (Hi g); [lia | done]).
  apply IH. intros x Hx. apply Hi. lia.
Qed.

Lemma writeRow_same g td src row d x :
  x < g → row + x * 4 < length d →
  writeRow g td src row d !! (row + x * 4) = Some (srcByte td (src + x)).
Proof.
  unfold writeRow. induction g as [|g IH]; intros Hx Hin; [lia|].
  rewrite seq_S, fold_left_app. simpl.
  destruct (decide (x = g)) as [->|Hne].
  - apply list_lookup_insert_eq. fold (writeRow g td src row d).
    by rewrite writeRow_length.
  - rewrite list_lookup_insert_ne by lia. apply IH; [lia | done].
Qed.

Lemma writeGlyph_rows g texImg s td :
  writeGlyph g texImg s td = writeRows g texImg s td g.
Proof. reflexivity. Qed.

Lemma writeRows_S g texImg s td n :
  writeRows g texImg s td (S n)
  = writeRow g td (n * g) (baseStartIndex g texImg s + n * width texImg * 4)
      (writeRows g texImg s td n).
Proof. unfold writeRows. by rewrite seq_S, fold_left_app. Qed.

Lemma writeRows_length g texImg s td n :
  length (writeRows g texImg s td n) = length (data texImg).
Proof.
  induction n as [|n IH]; [done|]. by rewrite writeRows_S, writeRow_length.
Qed.

Lemma writeRows_other g texImg s td n i :
  (∀ x y, x < g → y < n → i ≠ slotByteIndex g texImg s x y) →
  writeRows g texImg s td n !! i = data texImg !! i.
Proof.
  induction n as [|n IH]; intros Hi; [done|].
  rewrite writeRows_S, writeRow_other.
  - apply IH. intros x y Hx Hy. apply Hi; lia.
  - intros x Hx. apply (Hi x n); lia.
Qed.

Lemma writeRows_same g c texImg s td n x y :
  0 < g → 0 < c → width texImg = c * g →
  x < g → y < n → n ≤ g →
  slotByteIndex g texImg s x y < length (data texImg) →
  writeRows g texImg s td n !! slotByteIndex g texImg s x y
  = Some (srcByte td (y * g + x)).
Proof.
  intros Hg Hc Hw Hx. induction n as [|n IH]; intros Hy Hn Hin; [lia|].
  rewrite writeRows_S. destruct (decide (y = n)) as [->|Hne].
  - apply writeRow_same; [done|]. rewrite writeRows_length. exact Hin.
  - rewrite writeRow_other; [apply IH; [lia | lia | done] |].
    intros x' Hx' Heq.
    destruct (slotByteIndex_inj g c texImg s s x y x' n) as (_ & _ & ?);
      try done; try lia.
Qed.

(** ** The texture: reading a slot back *)

Lemma flat_map_seq_ext {A} (f f' : nat → list A) n :
  (∀ y, y < n → f y = f' y) → flat_map f (seq 0 n) = flat_map f' (seq 0 n).
Proof.
  intros Hf. induction n as [|n IH]; [done|].
  rewrite seq_S, !flat_map_app. simpl. rewrite IH, Hf by (intros; auto with lia).
  done.
Qed.

Lemma map_seq_ext {A} (f f' : nat → A) n :
  (∀ x, x < n → f x = f' x) → map f (seq 0 n) = map f' (seq 0 n).
Proof.
  intros Hf. apply map_ext_in. intros x [_ Hx]%in_seq. apply Hf. lia.
Qed.

(** Two images that agree on a slot's bytes read the same there. *)
Lemma readSlot_ext g texImg texImg' s :
  width texImg' = width texImg →
  (∀ x y, x < g → y < g →
     data texImg' !! slotByteIndex g texImg s x y
     = data texImg !! slotByteIndex g texImg s x y) →
  readSlot g texImg' s = readSlot g texImg s.
Proof.
  intros Hw Hd. unfold readSlot.
  apply flat_map_seq_ext. intros y Hy. apply map_seq_ext. intros x Hx.
  rewrite <- Hd by done. f_equal.
  unfold slotByteIndex, baseStartIndex, cols. by rewrite Hw.
Qed.

Lemma map_seq_from {A} (f : nat → A) a g :
  map f (seq a g) = map (λ x, f (a + x)) (seq 0 g).
Proof.
  revert a. induction g as [|g IH]; intros a; simpl; [done|].
  rewrite Nat.add_0_r. f_equal.
  rewrite IH, <- seq_shift, map_map. apply map_ext. intros x. f_equal. lia.
Qed.

(** Row by row, the indices [y * g + x] run through [0 .. g * g - 1]. *)
Lemma row_major {A} (f : nat → A) g n :
  flat_map (λ y, map (λ x, f (y * g + x)) (seq 0 g)) (seq 0 n)
  = map f (seq 0 (n * g)).
Proof.
  induction n as [|n IH]; [done|].
  rewrite seq_S, flat_map_app, IH. simpl. rewrite app_nil_r.
  replace (g + n * g) with (n * g + g) by lia.
  rewrite seq_app, map_app. f_equal. simpl.
  by rewrite (map_seq_from f).
Qed.

Lemma map_lookup_seq (td : list byte) :
  map (λ i, Some (srcByte td i)) (seq 0 (length td)) = Some <$> td.
Proof.
  apply list_eq. intros i. change (map ?f ?l) with (f <$> l).
  rewrite !list_lookup_fmap.
  destruct (td !! i) as [b|] eqn:E.
  - rewrite lookup_seq_lt by (by eapply lookup_lt_Some). simpl.
    unfold srcByte. by rewrite E.
  - rewrite lookup_seq_ge by (by apply lookup_ge_None). done.
Qed.

(** A slot whose bytes are those of [td] reads as [td]. *)
Lemma readSlot_is g texImg s (td : list byte) :
  length td = g * g →
  (∀ x y, x < g → y < g →
     data texImg !! slotByteIndex g texImg s x y = Some (srcByte td (y * g + x))) →
  readSlot g texImg s = Some <$> td.
Proof.
  intros Hlen Hd. unfold readSlot.
  rewrite <- map_lookup_seq, Hlen, <- (row_major (λ i, Some (srcByte td i)) g g).
  apply flat_map_seq_ext. intros y Hy. apply map_seq_ext. intros x Hx.
  by apply Hd.
Qed.

(** ** The texture: one insertion *)

Lemma slotByteIndex_width g texImg texImg' s x y :
  width texImg' = width texImg →
  slotByteIndex g texImg' s x y = slotByteIndex g texImg s x y.
Proof. intros Hw. unfold slotByteIndex, baseStartIndex, cols. by rewrite Hw. Qed.

(** An insertion is: the least number [k] of doublings that makes room,
    then the write into the grown array. *)
Lemma insertSDF_Some g s td texImg texImg' :
  insertSDF g s td texImg = Some texImg' →
  ∃ k, let grown := Nat.iter k growOnce texImg in
       texImg' = {| data := writeGlyph g grown s td;
                    width := width texImg;
                    height := height texImg * 2 ^ k |} ∧
       (s + 1) * g * g ≤ length (data texImg) * 2 ^ k ∧
       (∀ j, j < k → length (data texImg) * 2 ^ j < (s + 1) * g * g).
Proof.
  unfold insertSDF. intros Hins.
  destruct (growLoop _ g s texImg) as [grown|] eqn:Hloop; [|done].
  simpl in Hins. injection Hins as <-.
  apply growLoop_Some in Hloop as (k & -> & Hk & Hmin).
  exists k. simpl. by rewrite grown_width, grown_height.
Qed.

Lemma insertSDF_total g s td texImg :
  0 < length (data texImg) → is_Some (insertSDF g s td texImg).
Proof.
  intros Hpos. unfold insertSDF.
  destruct (growLoop_total g s texImg Hpos) as [grown ->]. simpl. eauto.
Qed.

Lemma insertSDF_length g s td texImg texImg' k :
  texImg' = {| data := writeGlyph g (Nat.iter k growOnce texImg) s td;
               width := width texImg;
               height := height texImg * 2 ^ k |} →
  length (data texImg') = length (data texImg) * 2 ^ k.
Proof. intros ->. simpl. by rewrite writeGlyph_rows, writeRows_length, grown_length. Qed.

Lemma insertSDF_wellShaped g s td texImg texImg' :
  wellShaped g texImg → insertSDF g s td texImg = Some texImg' →
  wellShaped g texImg'.
Proof.
  intros Hws (k & Heq & _)%insertSDF_Some. simpl in Heq.
  pose proof (insertSDF_length _ _ _ _ _ _ Heq) as Hlen.
  destruct (wellShaped_grown g k _ Hws) as (c & r & Hg & Hc & Hr & Hw & Hh & Hl).
  rewrite grown_width in Hw. rewrite grown_height in Hh.
  rewrite grown_length, grown_width, grown_height in Hl.
  exists c, r. rewrite Hlen. subst texImg'. simpl. repeat split; try done.
Qed.

(** Capacity after an insertion: the old one times [2 ^ k], [k] least. *)
Lemma insertSDF_capacity g s td texImg texImg' :
  wellShaped g texImg → insertSDF g s td texImg = Some texImg' →
  ∃ k, slotCapacity g texImg' = slotCapacity g texImg * 2 ^ k ∧
       height texImg' = height texImg * 2 ^ k ∧
       s < slotCapacity g texImg' ∧
       (∀ j, j < k → slotCapacity g texImg * 2 ^ j ≤ s).
Proof.
  intros Hws Hins.
  pose proof (insertSDF_wellShaped _ _ _ _ _ Hws Hins) as Hws'.
  apply insertSDF_Some in Hins as (k & Heq & Hk & Hmin). simpl in Heq.
  pose proof (insertSDF_length _ _ _ _ _ _ Heq) as Hlen.
  destruct (wellShaped_capacity _ _ Hws) as [Hpos Hcap].
  destruct (wellShaped_capacity _ _ Hws') as [Hpos' Hcap'].
  assert (0 < g * g) as Hgg by (destruct Hws as (? & ? & ? & _); nia).
  assert (slotCapacity g texImg' = slotCapacity g texImg * 2 ^ k) as Hc.
  { rewrite Hcap, Hcap' in Hlen. nia. }
  exists k. split; [done|]. split; [by subst texImg'|]. split.
  - rewrite Hc. rewrite Hcap in Hk. nia.
  - intros j Hj. specialize (Hmin j Hj). rewrite Hcap in Hmin. nia.
Qed.

(** The slot just written reads back as the data written. *)
Lemma insertSDF_read_same g s td texImg texImg' :
  wellShaped g texImg → length td = g * g →
  insertSDF g s td texImg = Some texImg' →
  readSlot g texImg' s = Some <$> td.
Proof.
  intros Hws Hlen Hins.
  destruct (insertSDF_capacity _ _ _ _ _ Hws Hins) as (k' & _ & _ & Hs & _).
  pose proof (insertSDF_wellShaped _ _ _ _ _ Hws Hins) as Hws'.
  apply insertSDF_Some in Hins as (k & Heq & _). simpl in Heq.
  apply readSlot_is; [done|]. intros x y Hx Hy.
  pose proof (slotByteIndex_inside g texImg' s x y Hws' Hs Hx Hy) as Hin.
  destruct Hws as (c & r & Hg & Hc & Hr & Hw & _).
  set (grown := Nat.iter k growOnce texImg) in *.
  assert (width grown = width texImg) as Hwg by apply grown_width.
  assert (width texImg' = width grown) as Hw' by (subst texImg'; by rewrite Hwg).
  rewrite (slotByteIndex_width g grown texImg') in * by done.
  subst texImg'. simpl in *. rewrite writeGlyph_rows in *.
  rewrite writeRows_length in Hin.
  apply (writeRows_same g c); try done. by rewrite Hwg.
Qed.

(** A slot below the capacity is left as it was by an insertion into
    another slot, growth included. *)
Lemma insertSDF_read_other g s t td texImg texImg' :
  wellShaped g texImg → t ≠ s → t < slotCapacity g texImg →
  insertSDF g s td texImg = Some texImg' →
  readSlot g texImg' t = readSlot g texImg t.
Proof.
  intros Hws Hne Ht (k & Heq & _)%insertSDF_Some. simpl in Heq.
  apply readSlot_ext; [by subst texImg'|]. intros x y Hx Hy.
  pose proof (slotByteIndex_inside g texImg t x y Hws Ht Hx Hy) as Hin.
  destruct Hws as (c & r & Hg & Hc & Hr & Hw & _).
  set (grown := Nat.iter k growOnce texImg) in *.
  assert (width grown = width texImg) as Hwg by apply grown_width.
  subst texImg'. simpl. rewrite writeGlyph_rows, writeRows_other.
  - unfold grown. rewrite grown_data. by apply lookup_app_l.
  - intros x' y' Hx' Hy' Heq.
    rewrite <- (slotByteIndex_width g texImg grown t) in Heq by done.
    destruct (slotByteIndex_inj g c grown t s x y x' y') as (? & _);
      try done; by rewrite Hwg.
Qed.


(** ** The texture: sequences of insertions *)


Lemma insertAll_wellShaped g ws texImg texImg' :
  wellShaped g texImg → insertAll g ws texImg = Some texImg' →
  wellShaped g texImg' ∧
  ∃ k, slotCapacity g texImg' = slotCapacity g texImg * 2 ^ k.
Proof.
  revert texImg. induction ws as [|[s td] ws IH]; intros texImg Hws; simpl.
  - intros [= <-]. split; [done|]. exists 0. simpl. lia.
  - destruct (insertSDF g s td texImg) as [texImg1|] eqn:Hins; [|done]. simpl.
    intros Hall.
    pose proof (insertSDF_wellShaped _ _ _ _ _ Hws Hins) as Hws1.
    destruct (insertSDF_capacity _ _ _ _ _ Hws Hins) as (k1 & Hc1 & _).
    destruct (IH _ Hws1 Hall) as (Hws' & k & Hc). split; [done|].
    exists (k1 + k). rewrite Hc, Hc1, Nat.pow_add_r. lia.
Qed.

Lemma insertAll_total g ws texImg :
  wellShaped g texImg → is_Some (insertAll g ws texImg).
Proof.
  revert texImg. induction ws as [|[s td] ws IH]; intros texImg Hws; simpl; [eauto|].
  destruct (insertSDF_total g s td texImg (wellShaped_pos _ _ Hws)) as [texImg1 Hins].
  rewrite Hins. simpl. apply IH. by eapply insertSDF_wellShaped.
Qed.

Lemma insertAll_read_other g ws t texImg texImg' :
  wellShaped g texImg → t < slotCapacity g texImg →
  Forall (λ w, w.1 ≠ t) ws →
  insertAll g ws texImg = Some texImg' →
  readSlot g texImg' t = readSlot g texImg t.
Proof.
  revert texImg. induction ws as [|[s td] ws IH]; intros texImg Hws Ht Hne; simpl.
  - by intros [= <-].
  - destruct (insertSDF g s td texImg) as [texImg1|] eqn:Hins; [|done]. simpl.
    intros Hall. apply Forall_cons in Hne as [Hs Hne]. simpl in Hs.
    pose proof (insertSDF_wellShaped _ _ _ _ _ Hws Hins) as Hws1.
    destruct (insertSDF_capacity _ _ _ _ _ Hws Hins) as (k1 & Hc1 & _).
    rewrite (IH texImg1); try done.
    + by apply (insertSDF_read_other g s t td).
    + rewrite Hc1. pose proof (Nat.pow_nonzero 2 k1). nia.
Qed.



Lemma rectangular_new g W : rectangular g W 0 (newTexImage g W).
Proof.
  unfold rectangular, newTexImage, newUint8Array. simpl.
  rewrite length_replicate. lia.
Qed.

Lemma insertSDF_rectangular g W k0 s td texImg :
  0 < g → 0 < W → rectangular g W k0 texImg →
  ∃ texImg' k,
    insertSDF g s td texImg = Some texImg' ∧
    rectangular g W (k0 + k) texImg' ∧
    height texImg' = height texImg * 2 ^ k ∧
    (s + 1) * g * g ≤ length (data texImg) * 2 ^ k ∧
    (∀ j, j < k → length (data texImg) * 2 ^ j < (s + 1) * g * g).
Proof.
  intros Hg HW (Hw & Hh & Hlen).
  assert (0 < length (data texImg)) as Hpos.
  { rewrite Hlen, Hw, Hh. pose proof (Nat.pow_nonzero 2 k0). nia. }
  destruct (insertSDF_total g s td texImg Hpos) as [texImg' Hins].
  destruct (insertSDF_Some _ _ _ _ _ Hins) as (k & Heq & Hk & Hmin). simpl in Heq.
  pose proof (insertSDF_length _ _ _ _ _ _ Heq) as Hlen'.
  exists texImg', k. split; [done|]. split; [|split; [|done]].
  - unfold rectangular. rewrite Hlen'. subst texImg'. simpl.
    rewrite Hlen, Hw, Hh, Nat.pow_add_r. lia.
  - by subst texImg'.
Qed.

Lemma insertAll_rectangular g W k0 ws texImg :
  0 < g → 0 < W → rectangular g W k0 texImg →
  ∃ texImg' k, insertAll g ws texImg = Some texImg' ∧ rectangular g W k texImg'.
Proof.
  intros Hg HW. revert k0 texImg.
  induction ws as [|[s td] ws IH]; intros k0 texImg Hrect; simpl; [eauto|].
  destruct (insertSDF_rectangular g W k0 s td texImg Hg HW Hrect)
    as (texImg1 & k & -> & Hrect1 & _).
  simpl. eapply IH, Hrect1.
Qed.

End TextureFacts.

(** ** Claims about the texture *)

Section TextureClaims.
Import Texture TextureFacts.



(** C3 (amended).  The packing address of slot [s] is square [s / 4],
    channel [s mod 4].  In an image that is whole squares across (the
    glyph size divides the width), pixel [(x, y)] of the slot is byte
    [s mod 4] of the texel at column [x], row [y] of that square, the
    squares tiling the image left to right, then top to bottom; writing
    a block of [g * g] bytes to slot [s] and reading the slot back gives
    the block, and it still does after any insertions into other slots.
    The other slots of the same square are in its other channels; slots
    [s + 4] and [s - 4] are in the neighbouring squares, in the same
    channel as [s]. *)
Theorem slot_write_then_read (g : nat) (texImg : TexImage) (s : nat)
    (td : list byte) (others : list (nat * list byte)) :
  wellShaped g texImg → length td = g * g →
  Forall (λ w, w.1 ≠ s) others →
  squareIndex s = s / 4 ∧ channel s = s mod 4 ∧
  (∀ x y,
     slotByteIndex g texImg s x y
     = 4 * ((squareIndex s / (width texImg / g) * g + y) * width texImg
            + (squareIndex s mod (width texImg / g) * g + x))
       + channel s) ∧
  (∃ texImg1 texImg2,
     insertSDF g s td texImg = Some texImg1 ∧
     insertAll g others texImg1 = Some texImg2 ∧
     readSlot g texImg1 s = Some <$> td ∧
     readSlot g texImg2 s = Some <$> td) ∧
  (∀ t, squareIndex t = squareIndex s → t ≠ s → channel t ≠ channel s) ∧
  squareIndex (s + 4) = squareIndex s + 1 ∧ channel (s + 4) = channel s ∧
  (4 ≤ s → squareIndex (s - 4) + 1 = squareIndex s ∧ channel (s - 4) = channel s).
Proof.
  intros Hws Hlen Hothers. unfold squareIndex, channel.
  split; [done|]. split; [done|].
  split.
  { intros x y. destruct Hws as (c & r & Hg & Hc & _ & Hw & _).
    rewrite (slotByteIndex_texel g c) by done.
    rewrite Hw, Nat.div_mul by lia. done. }
  split; [|split; [|split; [|split]]].
  - destruct (insertSDF_total g s td texImg (wellShaped_pos _ _ Hws)) as [texImg1 H1].
    pose proof (insertSDF_wellShaped _ _ _ _ _ Hws H1) as Hws1.
    destruct (insertAll_total g others texImg1 Hws1) as [texImg2 H2].
    destruct (insertSDF_capacity _ _ _ _ _ Hws H1) as (k & _ & _ & Hs & _).
    pose proof (insertSDF_read_same _ _ _ _ _ Hws Hlen H1) as Hread.
    exists texImg1, texImg2. repeat split; try done.
    by rewrite (insertAll_read_other g others s texImg1 texImg2).
  - intros t Hsq Hne Hch.
    pose proof (Nat.div_mod_eq s 4). pose proof (Nat.div_mod_eq t 4). lia.
  - pose proof (Nat.div_mod_eq s 4). pose proof (Nat.div_mod_eq (s + 4) 4).
    pose proof (Nat.mod_upper_bound s 4). pose proof (Nat.mod_upper_bound (s + 4) 4).
    lia.
  - pose proof (Nat.div_mod_eq s 4). pose proof (Nat.div_mod_eq (s + 4) 4).
    pose proof (Nat.mod_upper_bound s 4). pose proof (Nat.mod_upper_bound (s + 4) 4).
    lia.
  - pose proof (Nat.div_mod_eq s 4). pose proof (Nat.div_mod_eq (s - 4) 4).
    pose proof (Nat.mod_upper_bound s 4). pose proof (Nat.mod_upper_bound (s - 4) 4).
    lia.
Qed.

Lemma slot_write_then_read_witness :
  ∃ texImg1 texImg2,
    insertSDF 2 1 [x01; x02; x03; x04] (newTexImage 2 (1 * 2)) = Some texImg1 ∧
    insertAll 2 [(5, [x05; x06; x07; x08]); (0, [x09; x0a; x0b; x0c])] texImg1
      = Some texImg2 ∧
    readSlot 2 texImg1 1 = Some <$> [x01; x02; x03; x04] ∧
    readSlot 2 texImg2 1 = Some <$> [x01; x02; x03; x04].
Proof.
  refine (proj1 (proj2 (proj2 (proj2 (slot_write_then_read 2 (newTexImage 2 (1 * 2)) 1
            [x01; x02; x03; x04]
            [(5, [x05; x06; x07; x08]); (0, [x09; x0a; x0b; x0c])] _ _ _))))).
  - exists 1, 1. vm_compute. repeat split; lia.
  - reflexivity.
  - repeat constructor; simpl; lia.
Defined.

(** C3 as stated fails: slot 1 + 4 is not in the square of slot 1, and it
    is in the same channel. *)
Lemma slot_plus_four_other_square :
  squareIndex (1 + 4) ≠ squareIndex 1 ∧ channel (1 + 4) = channel 1.
Proof. vm_compute. split; [lia | reflexivity]. Qed.

(** Whole squares across are needed.  With glyph size 2 in an image 1
    texel wide, [cols] is one half: slot 4 starts at byte 16, two rows of
    squares down; the second row of a slot begins one texel after the
    first, so the second pixel of the first row is overwritten by the
    first of the second row, and in a new image the last pixel falls
    outside the array. *)
Remark read_back_needs_whole_squares :
  (cols 2 (newTexImage 2 1) == 1 # 2)%Q ∧
  baseStartIndex 2 (newTexImage 2 1) 4 = 16 ∧
  ∃ texImg',
    insertSDF 2 0 [x01; x02; x03; x04] (newTexImage 2 1) = Some texImg' ∧
    data texImg' = [x01; x00; x00; x00; x03; x00; x00; x00] ∧
    readSlot 2 texImg' 0 = [Some x01; Some x03; Some x03; None].
Proof.
  split; [reflexivity|]. split; [reflexivity|].
  eexists. split; [vm_compute; reflexivity|]. split; reflexivity.
Qed.

(** C5.  Along the life of an atlas image the slot capacity is the
    initial capacity times a power of two; and an insertion at slot [s]
    multiplies the capacity by [2 ^ k] for the least [k] that makes the
    capacity exceed [s]: no growth when [s] is below the capacity, exactly
    one doubling when [s] is the capacity. *)
Theorem capacity_doubles (g c : nat) (writes : list (nat * list byte))
    (s : nat) (td : list byte) :
  0 < g → 0 < c →
  ∃ texImg k0 texImg' k,
    insertAll g writes (newTexImage g (c * g)) = Some texImg ∧
    slotCapacity g texImg = slotCapacity g (newTexImage g (c * g)) * 2 ^ k0 ∧
    insertSDF g s td texImg = Some texImg' ∧
    slotCapacity g texImg' = slotCapacity g texImg * 2 ^ k ∧
    s < slotCapacity g texImg' ∧
    (∀ j, j < k → slotCapacity g texImg * 2 ^ j ≤ s) ∧
    (s < slotCapacity g texImg → k = 0) ∧
    (s = slotCapacity g texImg → k = 1).
Proof.
  intros Hg Hc. pose proof (wellShaped_new g c Hg Hc) as Hws0.
  destruct (insertAll_total g writes _ Hws0) as [texImg H1].
  destruct (insertAll_wellShaped _ _ _ _ Hws0 H1) as (Hws & k0 & Hk0).
  destruct (insertSDF_total g s td texImg (wellShaped_pos _ _ Hws)) as [texImg' H2].
  destruct (insertSDF_capacity _ _ _ _ _ Hws H2) as (k & Hcap & _ & Hs & Hmin).
  destruct (wellShaped_capacity _ _ Hws) as [Hpos _].
  exists texImg, k0, texImg', k. repeat split; try done.
  - intros Hlt. destruct k as [|k]; [done|].
    specialize (Hmin 0 ltac:(lia)). simpl in Hmin. lia.
  - intros ->. destruct k as [|[|k]]; [rewrite Hcap in Hs; simpl in Hs; lia | done |].
    specialize (Hmin 1 ltac:(lia)). simpl in Hmin. lia.
Qed.

Lemma capacity_doubles_witness :
  ∃ texImg k0 texImg' k,
    insertAll 2 [(0, [x01; x02; x03; x04])] (newTexImage 2 (1 * 2)) = Some texImg ∧
    slotCapacity 2 texImg = slotCapacity 2 (newTexImage 2 (1 * 2)) * 2 ^ k0 ∧
    insertSDF 2 4 [x05; x06; x07; x08] texImg = Some texImg' ∧
    slotCapacity 2 texImg' = slotCapacity 2 texImg * 2 ^ k ∧
    4 < slotCapacity 2 texImg' ∧
    (∀ j, j < k → slotCapacity 2 texImg * 2 ^ j ≤ 4) ∧
    (4 < slotCapacity 2 texImg → k = 0) ∧
    (4 = slotCapacity 2 texImg → k = 1).
Proof.
  apply (capacity_doubles 2 1 [(0, [x01; x02; x03; x04])] 4 [x05; x06; x07; x08]); lia.
Defined.

(** C6 (amended).  A new atlas image is [textureWidth] wide and
    [sdfGlyphSize] high.  Along its life the width stays [textureWidth],
    the height is [sdfGlyphSize] times a power of two, and the array holds
    four bytes per texel of that rectangle; an insertion at slot [s]
    multiplies the height by [2 ^ k] for the least [k] that gives the
    array room for slot [s]: no change while there is room, one doubling
    when one is enough. *)
Theorem width_fixed_height_doubles (g W : nat) (writes : list (nat * list byte))
    (s : nat) (td : list byte) :
  0 < g → 0 < W →
  width (newTexImage g W) = W ∧ height (newTexImage g W) = g ∧
  ∃ texImg k0 texImg' k,
    insertAll g writes (newTexImage g W) = Some texImg ∧
    width texImg = W ∧ height texImg = g * 2 ^ k0 ∧
    length (data texImg) = width texImg * height texImg * 4 ∧
    insertSDF g s td texImg = Some texImg' ∧
    width texImg' = W ∧ height texImg' = height texImg * 2 ^ k ∧
    length (data texImg') = width texImg' * height texImg' * 4 ∧
    (s + 1) * g * g ≤ length (data texImg) * 2 ^ k ∧
    (∀ j, j < k → length (data texImg) * 2 ^ j < (s + 1) * g * g) ∧
    ((s + 1) * g * g ≤ length (data texImg) → k = 0) ∧
    (length (data texImg) < (s + 1) * g * g ≤ length (data texImg) * 2 → k = 1).
Proof.
  intros Hg HW. split; [done|]. split; [done|].
  destruct (insertAll_rectangular g W 0 writes _ Hg HW (rectangular_new g W))
    as (texImg & k0 & H1 & Hrect).
  destruct (insertSDF_rectangular g W k0 s td texImg Hg HW Hrect)
    as (texImg' & k & H2 & (Hw' & Hh' & Hl') & Hh & Hk & Hmin).
  destruct Hrect as (Hw & Hh0 & Hl).
  exists texImg, k0, texImg', k.
  do 10 (split; [done|]). split.
  - intros Hfit. destruct k as [|k]; [done|].
    specialize (Hmin 0 ltac:(lia)). simpl in Hmin. lia.
  - intros [Hlt Hle]. destruct k as [|[|k]]; [simpl in Hk; lia | done |].
    specialize (Hmin 1 ltac:(lia)). simpl in Hmin. lia.
Qed.

Lemma width_fixed_height_doubles_witness :
  width (newTexImage 2 4) = 4 ∧ height (newTexImage 2 4) = 2 ∧
  ∃ texImg k0 texImg' k,
    insertAll 2 [(0, [x01; x02; x03; x04])] (newTexImage 2 4) = Some texImg ∧
    width texImg = 4 ∧ height texImg = 2 * 2 ^ k0 ∧
    length (data texImg) = width texImg * height texImg * 4 ∧
    insertSDF 2 8 [x05; x06; x07; x08] texImg = Some texImg' ∧
    width texImg' = 4 ∧ height texImg' = height texImg * 2 ^ k ∧
    length (data texImg') = width texImg' * height texImg' * 4 ∧
    (8 + 1) * 2 * 2 ≤ length (data texImg) * 2 ^ k ∧
    (∀ j, j < k → length (data texImg) * 2 ^ j < (8 + 1) * 2 * 2) ∧
    ((8 + 1) * 2 * 2 ≤ length (data texImg) → k = 0) ∧
    (length (data texImg) < (8 + 1) * 2 * 2 ≤ length (data texImg) * 2 → k = 1).
Proof.
  apply (width_fixed_height_doubles 2 4 [(0, [x01; x02; x03; x04])] 8
           [x05; x06; x07; x08]); lia.
Defined.

(** C6 as stated fails: glyph size 2, texture width 4, so 8 slots; the
    insertion at slot 8 leaves the width at 4 and makes the height 4. *)
Lemma height_grows_width_does_not :
  slotCapacity 2 (newTexImage 2 4) = 8 ∧
  ∃ texImg,
    insertSDF 2 8 [x01; x02; x03; x04] (newTexImage 2 4) = Some texImg ∧
    height texImg = 4 ∧ height texImg ≠ 2 ∧
    width texImg = 4 ∧ width texImg ≠ 2 * 4.
Proof.
  split; [reflexivity|]. eexists. split; [vm_compute; reflexivity|].
  simpl. repeat split; lia.
Qed.

End TextureClaims.

(** ** The glyph loop *)

Section BuilderFacts.
Context {num : Type} `{JSNumber num}.
Variable toAbsoluteURL : string → string.

Implicit Types (a atlas : Atlas num) (st : LoopState num) (w : World num).
Implicit Types (e : GlyphInfo num) (result : TypesetResult num).

(** A glyph the atlas has: the entry is returned, nothing changes. *)
Lemma lookupOrAdd_present m g gd a needed glyphId e :
  glyphs a !! glyphId = Some e →
  lookupOrAdd m g gd a needed glyphId = Some (a, needed, e).
Proof. intros He. unfold lookupOrAdd. by rewrite He. Qed.

(** A glyph the atlas does not have: one entry is made, in the next
    slot, and queued once. *)
Lemma lookupOrAdd_new m g gd a needed glyphId d :
  glyphs a !! glyphId = None → gd !! glyphId = Some d →
  let e := {| path := gdPath d; atlasIndex := count a;
              sdfViewBox := viewBoxOf (pathBounds d)
                              (fontUnitsMargin m g (pathBounds d)) |} in
  lookupOrAdd m g gd a needed glyphId
  = Some ({| count := count a + 1;
             glyphs := <[glyphId := e]> (glyphs a);
             sdfTexture := sdfTexture a |},
          needed ++ [e], e).
Proof. intros Ha Hd. unfold lookupOrAdd. by rewrite Ha, Hd. Qed.

(** The cases of one visit. *)
Lemma lookupOrAdd_cases m g gd a needed glyphId a' needed' e :
  lookupOrAdd m g gd a needed glyphId = Some (a', needed', e) →
  (glyphs a !! glyphId = Some e ∧ a' = a ∧ needed' = needed) ∨
  (glyphs a !! glyphId = None ∧ atlasIndex e = count a ∧
   a' = {| count := count a + 1; glyphs := <[glyphId := e]> (glyphs a);
           sdfTexture := sdfTexture a |} ∧
   needed' = needed ++ [e]).
Proof.
  unfold lookupOrAdd. destruct (glyphs a !! glyphId) as [e0|] eqn:Ha.
  - intros [= <- <- <-]. by left.
  - destruct (gd !! glyphId) as [d|]; [|done]. simpl.
    intros [= <- <- <-]. right. done.
Qed.

Lemma visitGlyph_atlas m g result st glyphId st' :
  visitGlyph m g result st glyphId = Some st' →
  ∃ e, lookupOrAdd m g (glyphData result) (lsAtlas st) (lsNeededSDFs st) glyphId
       = Some (lsAtlas st', lsNeededSDFs st', e) ∧
       lsGlyphIds st' = lsGlyphIds st ++ [atlasIndex e] ∧
       length (lsGlyphBounds st') = length (lsGlyphBounds st) + 4.
Proof.
  unfold visitGlyph.
  destruct (lookupOrAdd _ _ _ _ _ _) as [[[a' needed'] e]|]; [|done]. simpl.
  intros [= <-]. simpl. exists e. rewrite length_app. simpl. split; [done|]. split; [done|lia].
Qed.

Lemma loopInv_start a : atlasOK a → loopInv a (newLoopState a).
Proof. intros Ha. unfold loopInv. simpl. repeat split; try done; try lia; apply Ha. Qed.

Lemma visitGlyph_inv m g result a0 st glyphId st' :
  loopInv a0 st → visitGlyph m g result st glyphId = Some st' → loopInv a0 st'.
Proof.
  intros ((Hsize & Hidx) & Hcount & Hneeded & Hkeep & Htex).
  intros (e & Hvisit & _)%visitGlyph_atlas.
  apply lookupOrAdd_cases in Hvisit as [(He & Ha & Hn)|(Hnone & Hi & Ha & Hn)];
    unfold loopInv, atlasOK; rewrite Ha, Hn.
  - done.
  - simpl. rewrite length_app, fmap_app. simpl.
    repeat split.
    + rewrite map_size_insert_None by done. lia.
    + intros glyphId' e' [[-> <-]|[Hne He']]%lookup_insert_Some; [lia|].
      apply Hidx in He'. lia.
    + lia.
    + rewrite seq_app, Hneeded. simpl. do 2 f_equal. lia.
    + intros glyphId' e' He'. rewrite lookup_insert_ne; [by apply Hkeep|].
      intros ->. apply Hkeep in He'. congruence.
    + done.
Qed.

Lemma forEachGlyph_inv m g result a0 ids st :
  loopInv a0 st → loopInv a0 (forEachGlyph m g result ids st).1.
Proof.
  revert st. induction ids as [|glyphId ids IH]; intros st Hinv; simpl; [done|].
  destruct (visitGlyph m g result st glyphId) as [st'|] eqn:Hv; [|done].
  apply IH. by eapply visitGlyph_inv.
Qed.

(** With the typesetter's contract the loop ends normally. *)
Lemma visitGlyph_covered m g result st glyphId :
  is_Some (glyphData result !! glyphId) →
  is_Some (visitGlyph m g result st glyphId).
Proof.
  intros [d Hd]. unfold visitGlyph, lookupOrAdd.
  destruct (glyphs (lsAtlas st) !! glyphId); simpl; [eauto|].
  rewrite Hd. simpl. eauto.
Qed.

Lemma forEachGlyph_covered m g result ids st :
  Forall (λ glyphId, is_Some (glyphData result !! glyphId)) ids →
  (forEachGlyph m g result ids st).2 = true.
Proof.
  revert st. induction ids as [|glyphId ids IH]; intros st Hcov; simpl; [done|].
  apply Forall_cons in Hcov as [Hd Hcov].
  destruct (visitGlyph_covered m g result st glyphId Hd) as [st' ->].
  by apply IH.
Qed.

(** ** Slots in first-seen order *)




Lemma firstSeenFrom_cons seen glyphId ids :
  firstSeenFrom seen (glyphId :: ids)
  = firstSeenFrom (firstSeenFrom seen [glyphId]) ids.
Proof. reflexivity. Qed.

Lemma firstSeenFrom_app seen ids ids' :
  firstSeenFrom seen (ids ++ ids') = firstSeenFrom (firstSeenFrom seen ids) ids'.
Proof. apply fold_left_app. Qed.





(** ** The module, event by event *)

Abbreviation step' := (step toAbsoluteURL).
Abbreviation run' := (run toAbsoluteURL).

Lemma run_app evs evs' w : run' (evs ++ evs') w = run' evs' (run' evs w).
Proof. apply fold_left_app. Qed.

Lemma run_snoc evs ev w : run' (evs ++ [ev]) w = step' (run' evs w) ev.
Proof. by rewrite run_app. Qed.

Lemma worldOK_initial : worldOK (initialWorld (num:=num)).
Proof.
  split; [|split]; simpl.
  - intros k a. by rewrite lookup_empty.
  - constructor.
  - intros c Hc. by apply elem_of_nil in Hc.
Qed.

Lemma atlasOK_new font g W : atlasOK (newAtlas (num:=num) font g W).
Proof.
  split; simpl; [by rewrite map_size_empty|].
  intros glyphId e. by rewrite lookup_empty.
Qed.

(** The calls made for the glyphs a loop queued. *)
Lemma callSlot_needed key size ex (needed : list (GlyphInfo num)) :
  callSlot <$> (sdfCallOf key size ex <$> needed)
  = (λ i, (key, i)) <$> (atlasIndex <$> needed).
Proof. rewrite <- !list_fmap_compose. by apply list_fmap_ext. Qed.

Lemma onTypesetResult_OK w i result :
  worldOK w → worldOK (onTypesetResult w i result).
Proof.
  intros (Hat & Hnd & Hcalls). unfold onTypesetResult.
  destruct (awaitingTypeset w !! i) as [req|]; [|done].
  destruct (atlases w !! atAtlasKey req) as [a0|] eqn:Ha0; [|done].
  pose proof (forEachGlyph_inv (sdfMargin (CONFIG w)) (nSdfGlyphSize (atArgs req))
                result a0 (glyphIds result) (newLoopState a0)
                (loopInv_start a0 (Hat _ _ Ha0)))
    as (Hok & Hcount & Hneeded & Hkeep & Htex).
  destruct (forEachGlyph _ _ _ _ _) as [st completed]. simpl in *.
  split; [|split]; simpl.
  - intros k a [[<- <-]|[Hne Ha]]%lookup_insert_Some; [done|by eapply Hat].
  - destruct completed; [|done].
    rewrite fmap_app, callSlot_needed, Hneeded. apply NoDup_app.
    split; [done|]. split.
    + intros slot (c & -> & Hc)%list_elem_of_fmap (j & Hslot & Hj)%list_elem_of_fmap.
      destruct (Hcalls c Hc) as (a & Ha & Hlt).
      unfold callSlot in Hslot. injection Hslot as Hkey Hidx.
      rewrite Hkey, Ha0 in Ha. injection Ha as <-.
      apply elem_of_seq in Hj. lia.
    + apply NoDup_fmap_2; [|apply NoDup_seq]. by intros j j' [= ->].
  - intros c Hc.
    assert (c ∈ sdfCalls w ∨
            completed = true ∧
            c ∈ sdfCallOf (atAtlasKey req) (nSdfGlyphSize (atArgs req))
                  (sdfExponent (CONFIG w)) <$> lsNeededSDFs st) as [Hold|[-> Hnew]].
    { destruct completed; [|by left].
      apply elem_of_app in Hc as [?|?]; [by left | by right]. }
    + destruct (Hcalls c Hold) as (a & Ha & Hlt).
      destruct (decide (callAtlas c = atAtlasKey req)) as [Heq|Hne].
      * rewrite Heq in *. rewrite Ha0 in Ha. injection Ha as <-.
        exists (lsAtlas st). rewrite lookup_insert_eq. split; [done|]. lia.
      * exists a. by rewrite lookup_insert_ne.
    + apply list_elem_of_fmap in Hnew as (e & -> & He). simpl.
      exists (lsAtlas st). rewrite lookup_insert_eq. split; [done|].
      assert (atlasIndex e ∈ atlasIndex <$> lsNeededSDFs st) as Hin
        by (apply list_elem_of_fmap; eauto).
      rewrite Hneeded in Hin. apply elem_of_seq in Hin. lia.
Qed.

Lemma onSDFResults_atlases w j textures k a :
  atlases (onSDFResults w j textures) !! k = Some a →
  ∃ a0, atlases w !! k = Some a0 ∧ count a = count a0 ∧ glyphs a = glyphs a0.
Proof.
  unfold onSDFResults.
  destruct (awaitingSDFs w !! j) as [p|]; [|eauto].
  destruct (atlases w !! atAtlasKey (asRequest p)) as [a0|] eqn:Ha0; [|eauto].
  destruct (negb _); [eauto|].
  match goal with |- context [match ?x with Some _ => _ | None => w end] =>
    destruct x as [tex'|] end; [|eauto].
  simpl. intros [[<- <-]|[Hne Ha]]%lookup_insert_Some; eauto.
Qed.

Lemma onSDFResults_calls w j textures :
  sdfCalls (onSDFResults w j textures) = sdfCalls w.
Proof.
  unfold onSDFResults.
  destruct (awaitingSDFs w !! j) as [p|]; [|done].
  destruct (atlases w !! atAtlasKey (asRequest p)) as [a0|]; [|done].
  destruct (negb _); [done|].
  match goal with |- context [match ?x with Some _ => _ | None => w end] =>
    destruct x as [tex'|] end; done.
Qed.

Lemma onSDFResults_keeps w j textures k a0 :
  atlases w !! k = Some a0 →
  ∃ a, atlases (onSDFResults w j textures) !! k = Some a ∧
       count a = count a0 ∧ glyphs a = glyphs a0.
Proof.
  intros Hk. unfold onSDFResults.
  destruct (awaitingSDFs w !! j) as [p|]; [|eauto].
  destruct (atlases w !! atAtlasKey (asRequest p)) as [a1|] eqn:Ha1; [|eauto].
  destruct (negb _); [eauto|].
  match goal with |- context [match ?x with Some _ => _ | None => w end] =>
    destruct x as [tex'|] end; [|eauto].
  simpl. destruct (decide (atAtlasKey (asRequest p) = k)) as [<-|Hne].
  - rewrite lookup_insert_eq. rewrite Ha1 in Hk. injection Hk as <-. eauto.
  - rewrite lookup_insert_ne by done. eauto.
Qed.

Lemma onSDFResults_OK w j textures :
  worldOK w → worldOK (onSDFResults w j textures).
Proof.
  intros (Hat & Hnd & Hcalls). split; [|split].
  - intros k a (a0 & Ha0 & Hc & Hg)%onSDFResults_atlases.
    destruct (Hat _ _ Ha0) as [Hsize Hidx].
    split; rewrite Hc, Hg; done.
  - by rewrite onSDFResults_calls.
  - rewrite onSDFResults_calls. intros c Hc.
    destruct (Hcalls c Hc) as (a0 & Ha0 & Hlt).
    destruct (onSDFResults_keeps w j textures _ _ Ha0) as (a & Ha & Hcount & _).
    exists a. split; [done|]. lia.
Qed.

Lemma getTextRenderInfo_keeps w args k a :
  atlases w !! k = Some a →
  atlases (getTextRenderInfo toAbsoluteURL w args) !! k = Some a.
Proof.
  intros Hk. unfold getTextRenderInfo. simpl.
  destruct (atlases w !! atlasKeyOf _ _) eqn:Hkey; [done|].
  rewrite lookup_insert_ne; [done|]. intros <-. congruence.
Qed.

Lemma getTextRenderInfo_OK w args :
  worldOK w → worldOK (getTextRenderInfo toAbsoluteURL w args).
Proof.
  intros (Hat & Hnd & Hcalls). split; [|split]; [| done |].
  - intros k a. unfold getTextRenderInfo. simpl.
    destruct (atlases w !! atlasKeyOf _ _) eqn:Hkey; [apply Hat|].
    intros [[<- <-]|[Hne Ha]]%lookup_insert_Some; [apply atlasOK_new | by eapply Hat].
  - intros c Hc. destruct (Hcalls c Hc) as (a & Ha & Hlt).
    exists a. split; [|done]. by apply getTextRenderInfo_keeps.
Qed.

Lemma configureTextBuilder_OK w config :
  worldOK w → worldOK (configureTextBuilder w config).
Proof. unfold configureTextBuilder. by destruct (hasRequested w). Qed.

Lemma step_OK w ev : worldOK w → worldOK (step' w ev).
Proof.
  destruct ev; simpl.
  - apply configureTextBuilder_OK.
  - apply getTextRenderInfo_OK.
  - apply onTypesetResult_OK.
  - apply onSDFResults_OK.
Qed.

Lemma run_OK evs w : worldOK w → worldOK (run' evs w).
Proof.
  revert w. induction evs as [|ev evs IH]; intros w Hw; [done|].
  simpl. apply IH. by apply step_OK.
Qed.

(** An entry, once in an atlas, is there unchanged after every event. *)
Lemma step_entry_stable w ev k a glyphId e :
  worldOK w → atlases w !! k = Some a → glyphs a !! glyphId = Some e →
  ∃ a', atlases (step' w ev) !! k = Some a' ∧ glyphs a' !! glyphId = Some e.
Proof.
  intros Hw Hk He. destruct ev as [config|args|i result|j textures]; simpl.
  - unfold configureTextBuilder. destruct (hasRequested w); simpl; eauto.
  - exists a. split; [|done]. by apply getTextRenderInfo_keeps.
  - unfold onTypesetResult.
    destruct (awaitingTypeset w !! i) as [req|]; [|eauto].
    destruct (atlases w !! atAtlasKey req) as [a0|] eqn:Ha0; [|eauto].
    pose proof (forEachGlyph_inv (sdfMargin (CONFIG w)) (nSdfGlyphSize (atArgs req))
                  result a0 (glyphIds result) (newLoopState a0)
                  (loopInv_start a0 (proj1 Hw _ _ Ha0)))
      as (_ & _ & _ & Hkeep & _).
    destruct (forEachGlyph _ _ _ _ _) as [st completed]. simpl in *.
    destruct (decide (atAtlasKey req = k)) as [<-|Hne].
    + rewrite lookup_insert_eq. rewrite Ha0 in Hk. injection Hk as <-. eauto.
    + rewrite lookup_insert_ne by done. eauto.
  - destruct (onSDFResults_keeps w j textures _ _ Hk) as (a' & Ha' & _ & Hg).
    exists a'. by rewrite Hg.
Qed.

Lemma run_entry_stable evs w k a glyphId e :
  worldOK w → atlases w !! k = Some a → glyphs a !! glyphId = Some e →
  ∃ a', atlases (run' evs w) !! k = Some a' ∧ glyphs a' !! glyphId = Some e.
Proof.
  revert w a. induction evs as [|ev evs IH]; intros w a Hw Hk He; simpl; [eauto|].
  destruct (step_entry_stable w ev k a glyphId e Hw Hk He) as (a1 & Hk1 & He1).
  eapply IH; [by apply step_OK | done | done].
Qed.

Lemma filter_none {A} (P : A → Prop) `{∀ x, Decision (P x)} (l : list A) :
  (∀ x, x ∈ l → ¬ P x) → filter P l = [].
Proof.
  induction l as [|x l IH]; intros Hl; [done|].
  rewrite filter_cons_False by (apply Hl; left).
  apply IH. intros y Hy. apply Hl. by right.
Qed.

(** With no two calls for one slot, at most one call is for a given
    slot. *)
Lemma filter_slot_le_1 (calls : list (SDFCall num)) (slot : string * nat) :
  NoDup (callSlot <$> calls) →
  length (filter (λ c, callSlot c = slot) calls) ≤ 1.
Proof.
  induction calls as [|c calls IH]; simpl; [lia|].
  intros [Hnotin Hnd]%NoDup_cons. rewrite filter_cons.
  case_decide as Hc; [|by apply IH].
  assert (filter (λ c, callSlot c = slot) calls = []) as ->; [|simpl; lia].
  apply filter_none. intros c' Hc' Heq.
  apply Hnotin. rewrite Hc, <- Heq. by apply list_elem_of_fmap_2.
Qed.

Lemma firstSeenFrom_elem seen ids glyphId :
  glyphId ∈ firstSeenFrom seen ids ↔ glyphId ∈ seen ∨ glyphId ∈ ids.
Proof.
  revert seen. induction ids as [|x ids IH]; intros seen.
  - simpl. rewrite elem_of_nil. tauto.
  - rewrite firstSeenFrom_cons, IH, elem_of_cons. unfold firstSeenFrom. simpl.
    case_decide as Hx.
    + split; [tauto|]. intros [?|[->|?]]; tauto.
    + rewrite elem_of_app, list_elem_of_singleton. tauto.
Qed.


(** A glyph id goes to the end of the order the first time it is seen,
    and nowhere afterwards. *)
Lemma firstSeen_snoc ids glyphId :
  firstSeen (ids ++ [glyphId])
  = if decide (glyphId ∈ ids) then firstSeen ids else firstSeen ids ++ [glyphId].
Proof.
  unfold firstSeen. rewrite firstSeenFrom_app. unfold firstSeenFrom at 1. simpl.
  fold (firstSeenFrom [] ids).
  destruct (decide (glyphId ∈ ids)) as [Hin|Hnin].
  - rewrite decide_True; [done|]. apply firstSeenFrom_elem. by right.
  - rewrite decide_False; [done|].
    rewrite firstSeenFrom_elem, elem_of_nil. tauto.
Qed.

Lemma run_calls_maxDist evs w :
  Forall (λ c, callMaxDist c = maxDistOf (callViewBox c)) (sdfCalls w) →
  Forall (λ c, callMaxDist c = maxDistOf (callViewBox c)) (sdfCalls (run' evs w)).
Proof.
  revert w. induction evs as [|ev evs IH]; intros w Hw; [done|].
  simpl. apply IH. destruct ev as [config|args|i result|j textures]; simpl.
  - unfold configureTextBuilder. by destruct (hasRequested w).
  - done.
  - unfold onTypesetResult.
    destruct (awaitingTypeset w !! i) as [req|]; [|done].
    destruct (atlases w !! atAtlasKey req) as [a0|]; [|done].
    destruct (forEachGlyph _ _ _ _ _) as [st [|]]; simpl; [|done].
    apply Forall_app. split; [done|].
    apply Forall_fmap, Forall_true. done.
  - by rewrite onSDFResults_calls.
Qed.

Lemma run_configures configs w :
  hasRequested w = false →
  hasRequested (run' (Configure <$> configs) w) = false ∧
  CONFIG (run' (Configure <$> configs) w) = fold_left assign configs (CONFIG w) ∧
  warnings (run' (Configure <$> configs) w) = warnings w.
Proof.
  revert w. induction configs as [|config configs IH]; intros w Hw; [done|].
  change (run' (Configure <$> config :: configs) w)
    with (run' (Configure <$> configs) (configureTextBuilder w config)).
  assert (configureTextBuilder w config
          = {| CONFIG := assign (CONFIG w) config;
               hasRequested := hasRequested w; atlases := atlases w;
               warnings := warnings w; sdfCalls := sdfCalls w;
               awaitingTypeset := awaitingTypeset w;
               awaitingSDFs := awaitingSDFs w;
               delivered := delivered w |}) as ->
    by (unfold configureTextBuilder; by rewrite Hw).
  match goal with |- context [run' _ ?w1] => exact (IH w1 Hw) end.
Qed.

Lemma onSDFResults_hasRequested w j textures :
  hasRequested (onSDFResults w j textures) = hasRequested w.
Proof.
  unfold onSDFResults.
  destruct (awaitingSDFs w !! j) as [p|]; [|done].
  destruct (atlases w !! atAtlasKey (asRequest p)) as [a0|]; [|done].
  destruct (negb _); [done|].
  match goal with |- context [match ?x with Some _ => _ | None => w end] =>
    destruct x as [tex'|] end; done.
Qed.

Lemma step_hasRequested w ev :
  hasRequested w = true → hasRequested (step' w ev) = true.
Proof.
  intros Hw. destruct ev as [config|args|i result|j textures]; simpl.
  - unfold configureTextBuilder. by rewrite Hw.
  - done.
  - unfold onTypesetResult.
    destruct (awaitingTypeset w !! i) as [req|]; [|done].
    destruct (atlases w !! atAtlasKey req) as [a0|]; [|done].
    by destruct (forEachGlyph _ _ _ _ _) as [st completed].
  - by rewrite onSDFResults_hasRequested.
Qed.

Lemma run_hasRequested evs w :
  hasRequested w = true → hasRequested (run' evs w) = true.
Proof.
  revert w. induction evs as [|ev evs IH]; intros w Hw; [done|].
  simpl. by apply IH, step_hasRequested.
Qed.

(** ** Claims about the glyph cache and the requests *)

(** C1.  The first visit of a glyph id an atlas does not have makes its
    entry, in the next free slot, and queues it once.  From then on, at
    every state the module can reach and whatever requests interleave: the
    atlas has as many entries as slots handed out, a visit of that glyph id
    returns the same entry and changes and queues nothing, the entry stays
    in the atlas unchanged, and at most one rasterizer call was ever made
    for its slot. *)
Theorem one_entry_per_glyph (evs evs' : list (Event num)) (k : string)
    (a : Atlas num) (glyphId : nat) (e : GlyphInfo num) :
  atlases (run' evs initialWorld) !! k = Some a →
  glyphs a !! glyphId = Some e →
  (∀ m g gd a0 needed d,
     glyphs a0 !! glyphId = None → gd !! glyphId = Some d →
     ∃ e0, lookupOrAdd m g gd a0 needed glyphId
           = Some ({| count := count a0 + 1;
                      glyphs := <[glyphId := e0]> (glyphs a0);
                      sdfTexture := sdfTexture a0 |},
                   needed ++ [e0], e0) ∧
           atlasIndex e0 = count a0) ∧
  size (glyphs a) = count a ∧
  (∀ m g gd needed, lookupOrAdd m g gd a needed glyphId = Some (a, needed, e)) ∧
  (∃ a', atlases (run' (evs ++ evs') initialWorld) !! k = Some a' ∧
         glyphs a' !! glyphId = Some e) ∧
  length (filter (λ c, callSlot c = (k, atlasIndex e))
                 (sdfCalls (run' (evs ++ evs') initialWorld))) ≤ 1.
Proof.
  intros Hk He.
  pose proof (run_OK evs _ worldOK_initial) as Hw.
  pose proof (run_OK (evs ++ evs') _ worldOK_initial) as Hw'.
  split; [|split; [|split; [|split]]].
  - intros m g gd a0 needed d Ha0 Hd. eexists. split.
    + by apply lookupOrAdd_new.
    + done.
  - by destruct (proj1 Hw _ _ Hk).
  - intros m g gd needed. by apply lookupOrAdd_present.
  - rewrite run_app. by eapply run_entry_stable.
  - apply filter_slot_le_1, Hw'.
Qed.


(** C8.  A request for the empty string, answered by the typesetter
    within its contract, runs to its callback: the loop ends normally, no
    rasterizer is called, the request is no longer waiting, and the
    callback gets an empty [glyphBounds] and an empty
    [glyphAtlasIndices]. *)
Theorem empty_text_completes (w : World num) (args : Args)
    (result : TypesetResult num) :
  argText args = "" →
  typesetterAnswers (normalizeArgs toAbsoluteURL (CONFIG w) args) result →
  let w1 := getTextRenderInfo toAbsoluteURL w args in
  let w2 := onTypesetResult w1 (length (awaitingTypeset w)) result in
  let w3 := onSDFResults w2 (length (awaitingSDFs w)) [] in
  sdfCalls w3 = sdfCalls w ∧
  awaitingTypeset w3 = awaitingTypeset w ∧
  awaitingSDFs w3 = awaitingSDFs w ∧
  ∃ ri, delivered w3 = delivered w ++ [ri] ∧
        parameters ri = normalizeArgs toAbsoluteURL (CONFIG w) args ∧
        glyphBounds ri = [] ∧
        glyphAtlasIndices ri = [].
Proof.
  intros Htext [Hids _]. simpl in Hids. rewrite Htext in Hids. simpl in Hids.
  apply nil_length_inv in Hids.
  remember (normalizeArgs toAbsoluteURL (CONFIG w) args) as nargs eqn:Hnargs.
  remember (atlasKeyOf (nFont nargs) (nSdfGlyphSize nargs)) as key eqn:Hkey.
  remember {| atArgs := nargs; atAtlasKey := key;
              atSdfExponent := sdfExponent (CONFIG w) |} as req eqn:Hreq.
  intros w1 w2 w3.
  assert (∃ ats a, ats !! key = Some a ∧
            w1 = {| CONFIG := CONFIG w; hasRequested := true; atlases := ats;
                    warnings := warnings w; sdfCalls := sdfCalls w;
                    awaitingTypeset := awaitingTypeset w ++ [req];
                    awaitingSDFs := awaitingSDFs w;
                    delivered := delivered w |}) as (ats & a & Ha & Hw1).
  { unfold w1, getTextRenderInfo. cbv zeta. rewrite <- Hnargs, <- Hkey, <- Hreq.
    destruct (atlases w !! key) as [a|] eqn:Hlook.
    - by exists (atlases w), a.
    - eexists _, _. split; [apply lookup_insert_eq | done]. }
  assert (w2 = {| CONFIG := CONFIG w; hasRequested := true;
                  atlases := <[key := a]> ats;
                  warnings := warnings w; sdfCalls := sdfCalls w ++ [];
                  awaitingTypeset := awaitingTypeset w;
                  awaitingSDFs :=
                    awaitingSDFs w ++
                    [ {| asRequest := req; neededSDFs := [];
                         asGlyphBounds := []; asGlyphIds := [] |} ];
                  delivered := delivered w |}) as Hw2.
  { unfold w2. rewrite Hw1. unfold onTypesetResult. cbn [awaitingTypeset].
    rewrite list_lookup_middle by done.
    assert (atAtlasKey req = key) as -> by (by subst req).
    cbn [atlases]. rewrite Ha, Hids. simpl.
    by rewrite delete_middle, !app_nil_r. }
  assert (w3 = {| CONFIG := CONFIG w; hasRequested := true;
                  atlases :=
                    <[key := {| count := count a; glyphs := glyphs a;
                                sdfTexture := sdfTexture a |}]> (<[key := a]> ats);
                  warnings := warnings w; sdfCalls := sdfCalls w ++ [];
                  awaitingTypeset := awaitingTypeset w;
                  awaitingSDFs := awaitingSDFs w;
                  delivered :=
                    delivered w ++
                    [ {| parameters := nargs; riTexture := key;
                         riSdfGlyphSize := nSdfGlyphSize nargs;
                         riSdfExponent := sdfExponent (CONFIG w);
                         glyphBounds := []; glyphAtlasIndices := [] |} ] |}) as Hw3.
  { unfold w3. rewrite Hw2. unfold onSDFResults. cbn [awaitingSDFs].
    rewrite list_lookup_middle by done. cbn [asRequest neededSDFs].
    assert (atAtlasKey req = key) as -> by (by subst req).
    cbn [atlases]. rewrite lookup_insert_eq. simpl.
    rewrite delete_middle, !app_nil_r. by subst req. }
  rewrite Hw3. simpl. rewrite ?app_nil_r. repeat split; try done. eauto.
Qed.

(** C9.  Before any request, every [configureTextBuilder] call takes
    effect: the configuration is the defaults with each call's keys
    assigned in turn, and each key of a further call overrides the
    matching field without any warning.  Once a request has been issued,
    at any later state, a call changes nothing but the list of warnings,
    which gets one more line. *)
Theorem configure_only_before_first_request (configs : list (ConfigOptions num))
    (evs evs' : list (Event num)) (args : Args) (config : ConfigOptions num) :
  let early := run' (Configure <$> configs) initialWorld in
  let late := run' (evs ++ Request args :: evs') initialWorld in
  hasRequested early = false ∧
  CONFIG early = fold_left assign configs defaultConfig ∧
  CONFIG (configureTextBuilder early config) = assign (CONFIG early) config ∧
  (∀ v, optDefaultFontURL config = Some v →
        defaultFontURL (CONFIG (configureTextBuilder early config)) = v) ∧
  (∀ v, optSdfGlyphSize config = Some v →
        sdfGlyphSize (CONFIG (configureTextBuilder early config)) = v) ∧
  (∀ v, optSdfMargin config = Some v →
        sdfMargin (CONFIG (configureTextBuilder early config)) = v) ∧
  (∀ v, optSdfExponent config = Some v →
        sdfExponent (CONFIG (configureTextBuilder early config)) = v) ∧
  (∀ v, optTextureWidth config = Some v →
        textureWidth (CONFIG (configureTextBuilder early config)) = v) ∧
  warnings (configureTextBuilder early config) = [] ∧
  hasRequested late = true ∧
  configureTextBuilder late config
  = {| CONFIG := CONFIG late;
       hasRequested := hasRequested late;
       atlases := atlases late;
       warnings := warnings late ++ [configWarning];
       sdfCalls := sdfCalls late;
       awaitingTypeset := awaitingTypeset late;
       awaitingSDFs := awaitingSDFs late;
       delivered := delivered late |}.
Proof.
  intros early late.
  destruct (run_configures configs initialWorld eq_refl) as (Hreq & Hcfg & Hwarn).
  fold early in Hreq, Hcfg, Hwarn.
  assert (hasRequested late = true) as Hlate.
  { unfold late. rewrite run_app. simpl. by apply run_hasRequested. }
  unfold configureTextBuilder. rewrite Hreq, Hlate. simpl.
  repeat split; try done; by intros v ->.
Qed.

End BuilderFacts.

(** ** Exact arithmetic *)

Module QFacts.

Lemma num_max_Q_compat (a a' b b' : Q) :
  (a == a')%Q → (b == b')%Q → (num_max a b == num_max a' b')%Q.
Proof.
  intros Ha Hb. simpl.
  destruct (Qle_bool a b) eqn:E; destruct (Qle_bool a' b') eqn:E'; try done.
  - apply Qle_bool_iff in E. rewrite Ha, Hb in E. apply Qle_bool_iff in E. congruence.
  - apply Qle_bool_iff in E'. rewrite <- Ha, <- Hb in E'. apply Qle_bool_iff in E'.
    congruence.
Qed.

Lemma num_max_Q_plus (a b c : Q) :
  (num_max (a + c) (b + c) == num_max a b + c)%Q.
Proof.
  simpl. destruct (Qle_bool a b) eqn:E; destruct (Qle_bool (a + c) (b + c)) eqn:E';
    try reflexivity.
  - apply Qle_bool_iff in E.
    assert (a + c <= b + c)%Q as Hle by (apply Qplus_le_l; done).
    apply Qle_bool_iff in Hle. congruence.
  - apply Qle_bool_iff in E'. apply Qplus_le_l in E'.
    apply Qle_bool_iff in E'. congruence.
Qed.

(** Widening a box by a margin on each side adds twice the margin to its
    larger extent. *)
Lemma maxDist_viewBox (pb : Bounds Q) (m : Q) :
  (maxDistOf (viewBoxOf pb m)
   == num_max (b2 pb - b0 pb) (b3 pb - b1 pb) + 2 * m)%Q.
Proof.
  unfold maxDistOf, viewBoxOf. cbn [b0 b1 b2 b3 num_sub num_add Q_JSNumber].
  rewrite <- num_max_Q_plus. apply num_max_Q_compat; ring.
Qed.

End QFacts.

(** ** Binary64 *)

(** In binary64 the sum is rounded: with the fractional path bounds
    [0.1, 0.2, 0.7, 0.9] the larger side of the view box and the larger
    extent plus twice the margin differ in the last place. *)
Remark maxDist_binary64_is_rounded :
  let pb := mkBounds 0x1.999999999999ap-4%float 0x1.999999999999ap-3%float
                     0x1.6666666666666p-1%float 0x1.ccccccccccccdp-1%float in
  let margin := fontUnitsMargin (sdfMargin defaultConfig) 64 pb in
  maxDistOf (viewBoxOf pb margin)
  ≠ PrimFloat.add (num_max (PrimFloat.sub (b2 pb) (b0 pb)) (PrimFloat.sub (b3 pb) (b1 pb)))
                  (PrimFloat.mul 2 margin).
Proof.
  intros pb margin Heq.
  apply (f_equal (λ z, PrimFloat.eqb z (maxDistOf (viewBoxOf pb margin)))) in Heq.
  vm_compute in Heq. discriminate.
Qed.

(** ** Claims about the geometry *)

(** C7 (amended).  In the scenario one rasterizer call is made, for slot
    0, with glyph size 32; the margin is 100/32 * (1/16*32 + 0.5) =
    7.8125 exactly, in exact arithmetic and in binary64 alike, so the view
    box is [-7.8125, -7.8125, 107.8125, 107.8125]; and the callback gets
    the slot indices [0, 0]. *)
Theorem scenario_one_call_margin :
  (fontUnitsMargin (sdfMargin (CONFIG (Scenario.dispatched (num:=Q)))) 32
     Scenario.boundsA == 125 # 16)%Q ∧
  (∃ c, sdfCalls (Scenario.dispatched (num:=Q)) = [c] ∧
        callWidth c = 32 ∧ callHeight c = 32 ∧ callAtlasIndex c = 0 ∧
        (b0 (callViewBox c) == - (125 # 16))%Q ∧
        (b1 (callViewBox c) == - (125 # 16))%Q ∧
        (b2 (callViewBox c) == 100 + (125 # 16))%Q ∧
        (b3 (callViewBox c) == 100 + (125 # 16))%Q) ∧
  fontUnitsMargin (sdfMargin (CONFIG (Scenario.dispatched (num:=float)))) 32
    Scenario.boundsA = 7.8125%float ∧
  (∃ c, sdfCalls (Scenario.dispatched (num:=float)) = [c] ∧
        callViewBox c
        = mkBounds (-7.8125)%float (-7.8125)%float 107.8125%float 107.8125%float) ∧
  ∀ textureData,
    ∃ ri, delivered (Scenario.completed (num:=Q) textureData) = [ri] ∧
          glyphAtlasIndices ri = [0; 0] ∧
          length (glyphBounds ri) = 8.
Proof.
  split; [vm_compute; reflexivity|].
  split; [eexists; split; [vm_compute; reflexivity|]; by vm_compute|].
  split; [vm_compute; reflexivity|].
  split; [eexists; split; vm_compute; reflexivity|].
  intros textureData.
  eexists. split; [vm_compute; reflexivity|]. split; reflexivity.
Qed.

(** C7 as stated fails: the margin of the scenario is 7.8125, not a
    number that rounds to 16.56. *)
Lemma scenario_margin_not_16_56 :
  (fontUnitsMargin (1 # 16)%Q 32 Scenario.boundsA == 125 # 16)%Q ∧
  ¬ (16555 # 1000 <= fontUnitsMargin (1 # 16)%Q 32 Scenario.boundsA)%Q.
Proof.
  split; [vm_compute; reflexivity|].
  intros Hle%Qle_bool_iff. vm_compute in Hle. discriminate.
Qed.

(** ** The claims at work on the scenario *)

Lemma one_entry_per_glyph_witness :
  length (filter (λ c, callSlot c = ("a.woff@32", atlasIndex (Scenario.entryA (num:=Q))))
            (sdfCalls
               (run Scenario.url
                  ([Configure Scenario.config; Request Scenario.request;
                    TypesetDone 0 Scenario.typeset] ++ Scenario.again)
                  (initialWorld (num:=Q))))) ≤ 1.
Proof.
  refine (proj2 (proj2 (proj2 (proj2
    (one_entry_per_glyph (num:=Q) Scenario.url
       [Configure Scenario.config; Request Scenario.request;
        TypesetDone 0 Scenario.typeset]
       Scenario.again "a.woff@32" Scenario.atlasA 36 Scenario.entryA _ _))))).
  - vm_compute. reflexivity.
  - vm_compute. reflexivity.
Defined.


Lemma empty_text_completes_witness :
  let w := initialWorld (num:=Q) in
  let w1 := getTextRenderInfo Scenario.url w Scenario.emptyRequest in
  let w2 := onTypesetResult w1 (length (awaitingTypeset w)) Scenario.emptyAnswer in
  let w3 := onSDFResults w2 (length (awaitingSDFs w)) [] in
  sdfCalls w3 = sdfCalls w ∧
  awaitingTypeset w3 = awaitingTypeset w ∧
  awaitingSDFs w3 = awaitingSDFs w ∧
  ∃ ri, delivered w3 = delivered w ++ [ri] ∧
        parameters ri = normalizeArgs Scenario.url (CONFIG w) Scenario.emptyRequest ∧
        glyphBounds ri = [] ∧
        glyphAtlasIndices ri = [].
Proof.
  apply (empty_text_completes (num:=Q) Scenario.url initialWorld
           Scenario.emptyRequest Scenario.emptyAnswer).
  - reflexivity.
  - split; reflexivity.
Defined.

(** * More of the module *)

(** ** The pool of rasterizer workers *)

Module PoolFacts.
Import Pool.

Lemma workerIdOf_inj lane lane' : workerIdOf lane = workerIdOf lane' → lane = lane'.
Proof.
  unfold workerIdOf. intros Heq%(inj (String.app _)). by apply (inj pretty) in Heq.
Qed.

Lemma inFlightOn_snoc workerId w p l :
  inFlight p = l ++ [w] →
  inFlightOn workerId p
  = length (filter (λ w', w' = workerId) l) + (if decide (w = workerId) then 1 else 0).
Proof.
  intros Hl. unfold inFlightOn. rewrite Hl, filter_app, length_app. f_equal.
  rewrite filter_cons, filter_nil. by case_decide.
Qed.

Lemma filter_delete_length {A} (P : A → Prop) `{∀ x, Decision (P x)}
    (l : list A) i x :
  l !! i = Some x →
  length (filter P l)
  = length (filter P (delete i l)) + (if decide (P x) then 1 else 0).
Proof.
  revert i. induction l as [|y l IH]; intros i Hi; [done|].
  destruct i as [|i]; simpl in Hi.
  - injection Hi as ->. simpl. rewrite filter_cons. case_decide; simpl; lia.
  - change (delete (S i) (y :: l)) with (y :: delete i l). rewrite !filter_cons.
    specialize (IH i Hi).
    destruct (decide (P y)); destruct (decide (P x)); simpl in *; lia.
Qed.

Lemma elem_of_delete {A} (l : list A) i x : x ∈ delete i l → x ∈ l.
Proof.
  revert i. induction l as [|y l IH]; intros [|i]; simpl; try done.
  - intros Hx. by right.
  - change (list_delete i l) with (delete i l).
    intros [->|Hx]%elem_of_cons; [left | right; by eapply IH].
Qed.

Lemma filter_pos_elem (w : string) (l : list string) :
  w ∈ l → 0 < length (filter (λ w', w' = w) l).
Proof.
  induction l as [|y l IH]; [by intros ?%elem_of_nil|].
  rewrite filter_cons. intros [->|Hin]%elem_of_cons.
  - rewrite decide_True by done. simpl. lia.
  - specialize (IH Hin). case_decide; simpl; lia.
Qed.

Lemma poolOK_initial : poolOK initial.
Proof.
  split; [|split; [|split]]; simpl.
  - intros workerId t. by rewrite lookup_empty.
  - intros workerId ?%elem_of_nil. done.
  - intros id workerId. by rewrite lookup_empty.
  - intros workerId workerId' t t' id. by rewrite lookup_empty.
Qed.

Lemma call_OK p : poolOK p → poolOK (call p).
Proof.
  intros (Hthreads & Hflight & Htimers & Huniq).
  set (wid := workerIdOf (callNum p mod threadCount)).
  assert (∀ t, threads p !! wid = Some t ∨
               (threads p !! wid = None ∧ t = {| requests := 0; idleTimer := None |}) →
          requests t = Z.of_nat (inFlightOn wid p) ∧
          (∀ id, idleTimer t = Some id → id < nextTimer p)) as Hold.
  { intros t [Ht|[Hnone ->]].
    - destruct (Hthreads _ _ Ht) as (? & _ & ?). done.
    - simpl. split; [|done].
      unfold inFlightOn. rewrite filter_none; [done|].
      intros w Hw ->. destruct (Hflight _ Hw) as [? ?]. congruence. }
  unfold call. fold wid.
  set (thread := match threads p !! wid with
                 | Some thread => thread
                 | None => {| requests := 0; idleTimer := None |}
                 end).
  assert (threads p !! wid = Some thread ∨
          (threads p !! wid = None ∧ thread = {| requests := 0; idleTimer := None |}))
    as Hthread by (unfold thread; destruct (threads p !! wid); eauto).
  destruct (Hold thread Hthread) as [Hreq Hidle].
  split; [|split; [|split]]; simpl.
  - intros workerId t [[<- <-]|[Hne Ht]]%lookup_insert_Some; simpl.
    + rewrite (inFlightOn_snoc wid wid _ (inFlight p)) by done.
      rewrite decide_True by done. fold (inFlightOn wid p). split; [lia|].
      split; [|done]. exists (callNum p mod threadCount). split; [|done].
      apply Nat.mod_upper_bound. done.
    + destruct (Hthreads _ _ Ht) as (Hr & Hl & Hi).
      rewrite (inFlightOn_snoc workerId wid _ (inFlight p)) by done.
      rewrite decide_False by done. fold (inFlightOn workerId p).
      split; [lia|]. done.
  - intros workerId [Hin| ->%list_elem_of_singleton]%elem_of_app.
    + destruct (decide (workerId = wid)) as [->|Hne].
      * rewrite lookup_insert_eq. eauto.
      * rewrite lookup_insert_ne by done. by apply Hflight.
    + rewrite lookup_insert_eq. eauto.
  - intros id workerId Hid.
    assert (timers p !! id = Some workerId ∧ idleTimer thread ≠ Some id) as [Hid' Hne].
    { unfold clearTimeout in Hid. destruct (idleTimer thread) as [i|] eqn:Hi.
      - apply lookup_delete_Some in Hid as [? ?]. split; [done|]. congruence.
      - done. }
    destruct (Htimers _ _ Hid') as (Hlt & t & Ht & Hr & Hi).
    split; [done|]. exists t. split; [|done].
    rewrite lookup_insert_ne; [done|]. intros <-.
    destruct Hthread as [Hthread|[Hthread _]]; [|congruence].
    rewrite Hthread in Ht. injection Ht as <-. done.
  - assert (∀ workerId t id,
              <[wid := {| requests := requests thread + 1;
                          idleTimer := idleTimer thread |}]> (threads p) !! workerId
              = Some t →
              idleTimer t = Some id →
              ∃ t0, threads p !! workerId = Some t0 ∧ idleTimer t0 = Some id) as Hback.
    { intros workerId t id [[<- <-]|[Hne Ht]]%lookup_insert_Some Hid; [|eauto].
      simpl in Hid. destruct Hthread as [Hthread|[_ Hnew]]; [eauto|].
      rewrite Hnew in Hid. done. }
    intros workerId workerId' t t' id Ht Ht' Hid Hid'.
    destruct (Hback _ _ _ Ht Hid) as (t0 & Ht0 & Hid0).
    destruct (Hback _ _ _ Ht' Hid') as (t0' & Ht0' & Hid0').
    by eapply Huniq.
Qed.

Lemma resolve_OK p i : poolOK p → poolOK (resolve p i).
Proof.
  intros (Hthreads & Hflight & Htimers & Huniq). unfold resolve.
  destruct (inFlight p !! i) as [wid|] eqn:Hi; [|done].
  destruct (threads p !! wid) as [thread|] eqn:Hthread; [|done].
  destruct (Hthreads _ _ Hthread) as (Hreq & Hlane & Hidle).
  assert (∀ workerId,
            inFlightOn workerId p
            = length (filter (λ w', w' = workerId) (delete i (inFlight p)))
              + (if decide (wid = workerId) then 1 else 0)) as Hcount
    by (intros workerId;
        exact (filter_delete_length (λ w', w' = workerId) (inFlight p) i wid Hi)).
  assert (∀ id, timers p !! id ≠ Some wid) as Hnotimer.
  { intros id Hid. destruct (Htimers _ _ Hid) as (_ & t & Ht & Hr & _).
    rewrite Hthread in Ht. injection Ht as <-.
    specialize (Hcount wid). rewrite decide_True in Hcount by done. lia. }
  assert ((requests thread - 1)%Z
          = Z.of_nat (length (filter (λ w', w' = wid) (delete i (inFlight p)))))
    as Hreq'.
  { specialize (Hcount wid). rewrite decide_True in Hcount by done. lia. }
  assert (∀ workerId t, workerId ≠ wid → threads p !! workerId = Some t →
            requests t = Z.of_nat (length (filter (λ w', w' = workerId)
                                             (delete i (inFlight p))))) as Hother.
  { intros workerId t Hne Ht. destruct (Hthreads _ _ Ht) as (Hr & _).
    specialize (Hcount workerId). rewrite decide_False in Hcount by done. lia. }
  destruct (Z.eqb_spec (requests thread - 1) 0) as [Hzero|Hnz];
    (split; [|split; [|split]]); simpl; unfold inFlightOn; simpl.
  - intros workerId t [[<- <-]|[Hne Ht]]%lookup_insert_Some; simpl.
    + split; [exact Hreq'|]. split; [done|]. intros id [= <-]. lia.
    + split; [by apply Hother|]. destruct (Hthreads _ _ Ht) as (_ & ? & Hi').
      split; [done|]. intros id Hid. specialize (Hi' id Hid). lia.
  - intros workerId Hin%elem_of_delete.
    destruct (decide (workerId = wid)) as [->|Hne].
    + rewrite lookup_insert_eq. eauto.
    + rewrite lookup_insert_ne by done. by apply Hflight.
  - intros id workerId [[<- <-]|[Hne Hid]]%lookup_insert_Some.
    + split; [lia|]. eexists. rewrite lookup_insert_eq. split; [done|]. done.
    + destruct (Htimers _ _ Hid) as (Hlt & t & Ht & Hr & Hi').
      split; [lia|]. exists t. split; [|done].
      rewrite lookup_insert_ne; [done|]. intros <-. by apply (Hnotimer id).
  - intros workerId workerId' t t' id
      [[<- <-]|[Hne Ht]]%lookup_insert_Some [[<- <-]|[Hne' Ht']]%lookup_insert_Some;
      simpl; try done.
    + intros [= <-] Hid'. destruct (Hthreads _ _ Ht') as (_ & _ & Hb).
      specialize (Hb _ Hid'). lia.
    + intros Hid [= <-]. destruct (Hthreads _ _ Ht) as (_ & _ & Hb).
      specialize (Hb _ Hid). lia.
    + by eapply Huniq.
  - intros workerId t [[<- <-]|[Hne Ht]]%lookup_insert_Some; simpl.
    + split; [exact Hreq'|]. done.
    + split; [by apply Hother|]. by destruct (Hthreads _ _ Ht) as (_ & ? & ?).
  - intros workerId Hin%elem_of_delete.
    destruct (decide (workerId = wid)) as [->|Hne].
    + rewrite lookup_insert_eq. eauto.
    + rewrite lookup_insert_ne by done. by apply Hflight.
  - intros id workerId Hid.
    destruct (Htimers _ _ Hid) as (Hlt & t & Ht & Hr & Hi').
    split; [done|]. exists t. split; [|done].
    rewrite lookup_insert_ne; [done|]. intros <-. by apply (Hnotimer id).
  - intros workerId workerId' t t' id
      [[<- <-]|[Hne Ht]]%lookup_insert_Some [[<- <-]|[Hne' Ht']]%lookup_insert_Some;
      simpl; try done.
    + intros Hid Hid'. by eapply Huniq.
    + intros Hid Hid'. by eapply Huniq.
    + by eapply Huniq.
Qed.

Lemma timeout_OK p id : poolOK p → poolOK (timeout p id).
Proof.
  intros (Hthreads & Hflight & Htimers & Huniq). unfold timeout.
  destruct (timers p !! id) as [wid|] eqn:Hid; [|done].
  split; [|split; [|split]]; simpl; [done | done | | done].
  intros id' workerId [? Hid']%lookup_delete_Some. by apply Htimers.
Qed.

Lemma poolStep_OK p e : poolOK p → poolOK (poolStep p e).
Proof.
  destruct e; simpl; [apply call_OK | apply resolve_OK | apply timeout_OK].
Qed.

Lemma poolRun_OK evs p : poolOK p → poolOK (poolRun evs p).
Proof.
  revert p. induction evs as [|e evs IH]; intros p Hp; [done|].
  simpl. by apply IH, poolStep_OK.
Qed.

Lemma poolRun_calls evs p :
  callNum (poolRun evs p) = callNum p + length (filter (λ e, e = Call) evs) ∧
  dispatched (poolRun evs p)
  = dispatched p
    ++ ((λ n, workerIdOf (n mod threadCount))
          <$> seq (callNum p) (length (filter (λ e, e = Call) evs))).
Proof.
  revert p. induction evs as [|e evs IH]; intros p.
  - simpl. rewrite app_nil_r. split; [lia | done].
  - destruct (IH (poolStep p e)) as [Hnum Hdisp].
    change (poolRun (e :: evs) p) with (poolRun evs (poolStep p e)).
    rewrite Hnum, Hdisp, filter_cons. destruct e as [|i|id].
    + rewrite decide_True by done. cbn [poolStep call callNum dispatched length].
      split; [lia|]. rewrite <- app_assoc. f_equal.
      replace (callNum p + 1) with (S (callNum p)) by lia. done.
    + rewrite decide_False by done. cbn [poolStep]. unfold resolve.
      destruct (inFlight p !! i) as [w|]; [|done].
      destruct (threads p !! w); [|done].
      by destruct (_ =? _)%Z.
    + rewrite decide_False by done. cbn [poolStep]. unfold timeout.
      by destruct (timers p !! id).
Qed.

Lemma workerIds_NoDup : NoDup (workerIdOf <$> seq 0 threadCount).
Proof.
  apply NoDup_fmap_2; [|apply NoDup_seq]. intros a b. apply workerIdOf_inj.
Qed.

End PoolFacts.

Section PoolClaims.
Import Pool PoolFacts.

(** X1.  The calls of [generateSDFInWorker] go round the four workers in
    turn: the n-th call since the module was loaded (from 0) invokes the
    worker module of lane [n mod 4], whatever answers and timeouts happen
    in between; and no thread record is ever made for another worker, so
    there are at most four. *)
Theorem calls_go_round_robin (evs : list PoolEvent) :
  let p := poolRun evs initial in
  callNum p = length (filter (λ e, e = Call) evs) ∧
  dispatched p = (λ n, workerIdOf (n mod threadCount)) <$> seq 0 (callNum p) ∧
  (∀ workerId, is_Some (threads p !! workerId) →
               ∃ lane, lane < threadCount ∧ workerId = workerIdOf lane) ∧
  size (threads p) ≤ threadCount.
Proof.
  intros p. destruct (poolRun_calls evs initial) as [Hnum Hdisp]. fold p in Hnum, Hdisp.
  simpl in Hnum, Hdisp.
  pose proof (poolRun_OK evs initial poolOK_initial) as (Hthreads & _). fold p in Hthreads.
  split; [done|]. split; [by rewrite Hnum|].
  assert (∀ workerId, is_Some (threads p !! workerId) →
                      ∃ lane, lane < threadCount ∧ workerId = workerIdOf lane) as Hlanes.
  { intros workerId [t Ht]. by destruct (Hthreads _ _ Ht) as (_ & ? & _). }
  split; [done|].
  rewrite <- size_dom.
  trans (size (list_to_set (C:=gset string) (workerIdOf <$> seq 0 threadCount))).
  - apply subseteq_size. intros workerId Hin%elem_of_dom.
    destruct (Hlanes _ Hin) as (lane & Hlt & ->).
    apply elem_of_list_to_set, list_elem_of_fmap. exists lane. split; [done|].
    apply elem_of_seq. lia.
  - rewrite size_list_to_set by apply workerIds_NoDup.
    by rewrite length_fmap, length_seq.
Qed.

(** X2.  In every state the pool can reach, the [requests] counter of a
    thread is the number of calls in flight on its worker, and a worker
    with no thread record has no call in flight. *)
Theorem requests_counts_calls_in_flight (evs : list PoolEvent) (workerId : string) :
  let p := poolRun evs initial in
  match threads p !! workerId with
  | Some t => requests t = Z.of_nat (inFlightOn workerId p)
  | None => inFlightOn workerId p = 0
  end.
Proof.
  intros p.
  pose proof (poolRun_OK evs initial poolOK_initial) as (Hthreads & Hflight & _).
  fold p in Hthreads, Hflight.
  destruct (threads p !! workerId) as [t|] eqn:Ht.
  - by destruct (Hthreads _ _ Ht) as (? & _).
  - unfold inFlightOn. rewrite filter_none; [done|].
    intros w Hw ->. destruct (Hflight _ Hw) as [? ?]. congruence.
Qed.

(** X3.  A teardown timeout is pending only for a worker with no call in
    flight, and at most one is pending per worker: so when it fires,
    [terminateWorker] is called for an idle worker, once. *)
Theorem teardown_only_when_idle (evs : list PoolEvent) (id : nat) (workerId : string) :
  let p := poolRun evs initial in
  timers p !! id = Some workerId →
  inFlightOn workerId p = 0 ∧
  (workerId ∉ inFlight p) ∧
  (∀ id', timers p !! id' = Some workerId → id' = id) ∧
  terminated (timeout p id) = terminated p ++ [workerId] ∧
  timers (timeout p id) = delete id (timers p).
Proof.
  intros p Hid.
  pose proof (poolRun_OK evs initial poolOK_initial) as (Hthreads & Hflight & Htimers & _).
  fold p in Hthreads, Hflight, Htimers.
  destruct (Htimers _ _ Hid) as (_ & t & Ht & Hr & Hi).
  destruct (Hthreads _ _ Ht) as (Hcount & _).
  assert (inFlightOn workerId p = 0) as Hzero by lia.
  split; [done|]. split; [|split; [|split]].
  - intros Hin%filter_pos_elem. unfold inFlightOn in Hzero. lia.
  - intros id' Hid'. destruct (Htimers _ _ Hid') as (_ & t' & Ht' & _ & Hi').
    congruence.
  - unfold timeout. by rewrite Hid.
  - unfold timeout. by rewrite Hid.
Qed.

Lemma teardown_only_when_idle_witness :
  inFlightOn (workerIdOf 0) (poolRun [Call; Call; Resolve 0] initial) = 0.
Proof.
  refine (proj1 (teardown_only_when_idle [Call; Call; Resolve 0] 1 (workerIdOf 0) _)).
  vm_compute. reflexivity.
Defined.

(** X4.  A call cancels the teardown pending for the worker it goes to,
    and no other: right after the call no timeout is pending for that
    worker, and the timeouts pending for the other workers are those
    pending before. *)
Theorem call_cancels_teardown (evs : list PoolEvent) (id : nat) (workerId : string) :
  let p := poolRun evs initial in
  let called := workerIdOf (callNum p mod threadCount) in
  timers (call p) !! id ≠ Some called ∧
  (workerId ≠ called →
   (timers (call p) !! id = Some workerId ↔ timers p !! id = Some workerId)) ∧
  terminated (call p) = terminated p.
Proof.
  intros p called.
  pose proof (poolRun_OK evs initial poolOK_initial) as (Hthreads & Hflight & Htimers & Huniq).
  fold p in Hthreads, Hflight, Htimers, Huniq.
  unfold call. fold called. simpl. split; [|split; [|done]].
  - intros Hid. destruct (threads p !! called) as [t|] eqn:Ht.
    + unfold clearTimeout in Hid. destruct (idleTimer t) as [i|] eqn:Hi.
      * apply lookup_delete_Some in Hid as [Hne Hid].
        destruct (Htimers _ _ Hid) as (_ & t' & Ht' & _ & Hi'). congruence.
      * destruct (Htimers _ _ Hid) as (_ & t' & Ht' & _ & Hi'). congruence.
    + simpl in Hid. destruct (Htimers _ _ Hid) as (_ & t' & Ht' & _). congruence.
  - intros Hne. destruct (threads p !! called) as [t|] eqn:Ht; [|done].
    unfold clearTimeout. destruct (idleTimer t) as [i|] eqn:Hi; [|done].
    rewrite lookup_delete_Some. split; [tauto|]. intros Hid. split; [|done].
    intros <-. destruct (Htimers _ _ Hid) as (_ & t' & Ht' & _ & Hi').
    apply Hne. by eapply (Huniq workerId called t' t i).
Qed.

End PoolClaims.

(** ** More about the texture *)

Module TextureMore.
Import Texture TextureFacts.








(** The loop on an empty array never gets anywhere. *)
Lemma growLoop_empty fuel g s texImg :
  length (data texImg) = 0 → 0 < g → growLoop fuel g s texImg = None.
Proof.
  revert texImg. induction fuel as [|fuel IH]; intros texImg Hlen Hg; [done|].
  simpl. destruct (Nat.ltb_spec (length (data texImg)) ((s + 1) * g * g)) as [_|Hge].
  - apply IH; [|done]. rewrite growOnce_length. lia.
  - rewrite Hlen in Hge. nia.
Qed.

End TextureMore.

Section TextureExtras.
Import Texture TextureFacts TextureMore.





(** X7.  The growth loop comes to an end exactly when the array is not
    empty (or the glyph size is 0, when there is nothing to make room
    for): on the empty array of an atlas made with [textureWidth = 0] it
    doubles a length of 0 for ever. *)
Theorem growth_ends_iff_array_not_empty (g s : nat) (texImg : TexImage) :
  (∃ fuel texImg', growLoop fuel g s texImg = Some texImg')
  ↔ (0 < length (data texImg) ∨ g = 0).
Proof.
  split.
  - intros (fuel & texImg' & Hloop).
    destruct (decide (0 < length (data texImg))) as [?|Hempty]; [by left|].
    right. destruct (decide (g = 0)) as [?|Hg]; [done|].
    rewrite growLoop_empty in Hloop by lia. done.
  - intros [Hpos| ->].
    + destruct (growLoop_total g s texImg Hpos) as [texImg' Hloop]. eauto.
    + exists 1, texImg. simpl. replace ((s + 1) * 0 * 0) with 0 by lia. done.
Qed.

End TextureExtras.

(** ** More about the glyph loop and the requests *)

Section BuilderMore.
Context {num : Type} `{JSNumber num}.
Variable toAbsoluteURL : string → string.

Local Open Scope num_scope.

Implicit Types (a atlas : Atlas num) (st : LoopState num) (w : World num).
Implicit Types (e : GlyphInfo num) (result : TypesetResult num).

Abbreviation step'' := (step toAbsoluteURL).
Abbreviation run'' := (run toAbsoluteURL).

(** Entries are never changed by the loop. *)
Lemma visitGlyph_keeps m g result st glyphId st' glyphId' e :
  visitGlyph m g result st glyphId = Some st' →
  glyphs (lsAtlas st) !! glyphId' = Some e →
  glyphs (lsAtlas st') !! glyphId' = Some e.
Proof.
  intros (e0 & Hvisit & _)%visitGlyph_atlas He.
  apply lookupOrAdd_cases in Hvisit as [(_ & -> & _)|(Hnone & _ & -> & _)]; [done|].
  simpl. rewrite lookup_insert_ne; [done|]. intros ->. congruence.
Qed.

Lemma forEachGlyph_keeps m g result ids st glyphId e :
  glyphs (lsAtlas st) !! glyphId = Some e →
  glyphs (lsAtlas (forEachGlyph m g result ids st).1) !! glyphId = Some e.
Proof.
  revert st. induction ids as [|id ids IH]; intros st He; simpl; [done|].
  destruct (visitGlyph m g result st id) as [st'|] eqn:Hv; [|done].
  apply IH. by eapply visitGlyph_keeps.
Qed.

(** A loop over glyph ids the atlas has. *)
Lemma forEachGlyph_known m g result ids st :
  Forall (λ glyphId, is_Some (glyphs (lsAtlas st) !! glyphId)) ids →
  ∃ st' indices,
    forEachGlyph m g result ids st = (st', true) ∧
    lsAtlas st' = lsAtlas st ∧
    lsNeededSDFs st' = lsNeededSDFs st ∧
    lsGlyphIds st' = lsGlyphIds st ++ indices ∧
    Forall2 (λ glyphId i, ∃ e, glyphs (lsAtlas st) !! glyphId = Some e ∧ atlasIndex e = i)
            ids indices.
Proof.
  revert st. induction ids as [|id ids IH]; intros st Hknown.
  - exists st, []. simpl. by rewrite app_nil_r.
  - apply Forall_cons in Hknown as [[e He] Hknown].
    cbn [forEachGlyph]. unfold visitGlyph.
    rewrite (lookupOrAdd_present _ _ _ _ _ _ e He). cbn [mbind option_bind].
    match goal with |- context [forEachGlyph m g result ids ?s] => set (st1 := s) end.
    destruct (IH st1) as (st' & indices & Hloop & Ha & Hn & Hi & Hall); [done|].
    exists st', (atlasIndex e :: indices). rewrite Hloop, Ha, Hn, Hi. simpl.
    rewrite <- app_assoc. repeat split; try done. constructor; [eauto|done].
Qed.

(** A loop that meets a new glyph id without glyph data throws. *)
Lemma forEachGlyph_missing m g result ids st glyphId :
  glyphId ∈ ids →
  glyphs (lsAtlas st) !! glyphId = None →
  glyphData result !! glyphId = None →
  (forEachGlyph m g result ids st).2 = false.
Proof.
  revert st. induction ids as [|id ids IH]; intros st Hin Ha Hd.
  - by apply elem_of_nil in Hin.
  - cbn [forEachGlyph].
    destruct (visitGlyph m g result st id) as [st'|] eqn:Hv; [|done].
    destruct (visitGlyph_atlas _ _ _ _ _ _ Hv) as (e0 & Hvisit & _).
    apply elem_of_cons in Hin as [->|Hin].
    + unfold lookupOrAdd in Hvisit. rewrite Ha, Hd in Hvisit. done.
    + apply IH; [done| |done].
      apply lookupOrAdd_cases in Hvisit as [(_ & -> & _)|(_ & _ & -> & _)]; [done|].
      simpl. rewrite lookup_insert_ne; [done|]. intros ->.
      unfold visitGlyph, lookupOrAdd in Hv. rewrite Ha, Hd in Hv. done.
Qed.

(** The entries a loop adds are in slots from the old [count] on. *)
Lemma forEachGlyph_added m g result a0 ids st glyphId e :
  loopInv a0 st →
  glyphs a0 !! glyphId = None →
  glyphs (lsAtlas (forEachGlyph m g result ids st).1) !! glyphId = Some e →
  glyphs (lsAtlas st) !! glyphId = Some e ∨ count (lsAtlas st) ≤ atlasIndex e.
Proof.
  revert st. induction ids as [|id ids IH]; intros st Hinv Ha0; simpl; [by left|].
  destruct (visitGlyph m g result st id) as [st'|] eqn:Hv; [|by left].
  intros He. pose proof (visitGlyph_inv _ _ _ _ _ _ _ Hinv Hv) as Hinv'.
  destruct (IH st' Hinv' Ha0 He) as [He'|Hle].
  - destruct (visitGlyph_atlas _ _ _ _ _ _ Hv) as (e0 & Hvisit & _).
    apply lookupOrAdd_cases in Hvisit as [(_ & Heq & _)|(Hnone & Hidx & Heq & _)].
    + left. by rewrite <- Heq.
    + rewrite Heq in He'. simpl in He'.
      apply lookup_insert_Some in He' as [[<- <-]|[_ He']]; [right; lia | by left].
  - right. destruct (visitGlyph_atlas _ _ _ _ _ _ Hv) as (e0 & Hvisit & _).
    apply lookupOrAdd_cases in Hvisit as [(_ & Heq & _)|(_ & _ & Heq & _)];
      rewrite Heq in Hle; simpl in Hle; lia.
Qed.

(** X8.  When every glyph id of the typesetter's answer is already in
    the atlas, the continuation reads no glyph data (the answer need not
    have any), leaves every atlas as it is, calls no rasterizer, and hands
    on the slot indices stored for the glyphs. *)
Theorem known_glyphs_dispatch_nothing (w : World num) (i : nat)
    (req : AwaitTypeset num) (a : Atlas num) (result : TypesetResult num) :
  awaitingTypeset w !! i = Some req →
  atlases w !! atAtlasKey req = Some a →
  Forall (λ glyphId, is_Some (glyphs a !! glyphId)) (glyphIds result) →
  let w' := onTypesetResult w i result in
  atlases w' = atlases w ∧
  sdfCalls w' = sdfCalls w ∧
  awaitingTypeset w' = delete i (awaitingTypeset w) ∧
  ∃ p, awaitingSDFs w' = awaitingSDFs w ++ [p] ∧
       asRequest p = req ∧ neededSDFs p = [] ∧
       Forall2 (λ glyphId idx, ∃ e, glyphs a !! glyphId = Some e ∧ atlasIndex e = idx)
               (glyphIds result) (asGlyphIds p).
Proof.
  intros Hreq Ha Hknown w'. unfold w', onTypesetResult. rewrite Hreq, Ha.
  destruct (forEachGlyph_known (sdfMargin (CONFIG w)) (nSdfGlyphSize (atArgs req))
              result (glyphIds result) (newLoopState a) Hknown)
    as (st' & indices & -> & Hatlas & Hneeded & Hids & Hall).
  simpl in *. rewrite Hatlas, Hneeded, Hids. simpl.
  rewrite app_nil_r, insert_id by done. repeat split; try done.
  eexists. split; [done|]. done.
Qed.


Lemma forEachGlyph_app m g result ids ids' st :
  forEachGlyph m g result (ids ++ ids') st
  = if (forEachGlyph m g result ids st).2
    then forEachGlyph m g result ids' (forEachGlyph m g result ids st).1
    else forEachGlyph m g result ids st.
Proof.
  revert st. induction ids as [|id ids IH]; intros st; simpl; [done|].
  destruct (visitGlyph m g result st id) as [st'|]; [apply IH | done].
Qed.

(** After a visit the atlas has the glyph. *)
Lemma visitGlyph_entry m g result st glyphId st' :
  visitGlyph m g result st glyphId = Some st' →
  is_Some (glyphs (lsAtlas st') !! glyphId).
Proof.
  intros (e & Hvisit & _)%visitGlyph_atlas.
  apply lookupOrAdd_cases in Hvisit as [(He & -> & _)|(_ & _ & -> & _)]; [eauto|].
  simpl. rewrite lookup_insert_eq. eauto.
Qed.

Lemma forEachGlyph_entries m g result ids st :
  (forEachGlyph m g result ids st).2 = true →
  Forall (λ glyphId, is_Some (glyphs (lsAtlas (forEachGlyph m g result ids st).1) !! glyphId))
         ids.
Proof.
  revert st. induction ids as [|id ids IH]; intros st; simpl; [done|].
  destruct (visitGlyph m g result st id) as [st'|] eqn:Hv; [|done].
  intros Hok. constructor; [|by apply IH].
  destruct (visitGlyph_entry _ _ _ _ _ _ Hv) as [e He].
  exists e. by apply forEachGlyph_keeps.
Qed.

(** A glyph id that is not visited is not added. *)
Lemma forEachGlyph_absent m g result ids st glyphId :
  glyphId ∉ ids → glyphs (lsAtlas st) !! glyphId = None →
  glyphs (lsAtlas (forEachGlyph m g result ids st).1) !! glyphId = None.
Proof.
  revert st. induction ids as [|id ids IH]; intros st Hnin Ha; simpl; [done|].
  apply not_elem_of_cons in Hnin as [Hne Hnin].
  destruct (visitGlyph m g result st id) as [st'|] eqn:Hv; [|done].
  apply IH; [done|].
  destruct (visitGlyph_atlas _ _ _ _ _ _ Hv) as (e & Hvisit & _).
  apply lookupOrAdd_cases in Hvisit as [(_ & -> & _)|(_ & _ & -> & _)]; [done|].
  simpl. by rewrite lookup_insert_ne.
Qed.

(** X9.  When the typesetter's answer has a glyph id that is new to the
    atlas and has no glyph data, the loop throws there: no rasterizer is
    called, not even for the new glyphs met before, the request never
    reaches its callback, and the atlas keeps the entries it had and those
    made for the glyph ids met before the failure. *)
Theorem missing_glyph_data_drops_request (w : World num) (i : nat)
    (req : AwaitTypeset num) (a : Atlas num) (result : TypesetResult num)
    (glyphId : nat) :
  awaitingTypeset w !! i = Some req →
  atlases w !! atAtlasKey req = Some a →
  glyphId ∈ glyphIds result →
  glyphs a !! glyphId = None →
  glyphData result !! glyphId = None →
  let w' := onTypesetResult w i result in
  sdfCalls w' = sdfCalls w ∧
  awaitingSDFs w' = awaitingSDFs w ∧
  delivered w' = delivered w ∧
  awaitingTypeset w' = delete i (awaitingTypeset w) ∧
  ∃ a', atlases w' !! atAtlasKey req = Some a' ∧
        (∀ glyphId' e, glyphs a !! glyphId' = Some e → glyphs a' !! glyphId' = Some e) ∧
        glyphs a' !! glyphId = None ∧
        ∀ before after,
          glyphIds result = before ++ glyphId :: after →
          glyphId ∉ before →
          Forall (λ glyphId', is_Some (glyphData result !! glyphId')) before →
          Forall (λ glyphId', is_Some (glyphs a' !! glyphId')) before.
Proof.
  intros Hreq Ha Hin Hnew Hnodata w'. unfold w', onTypesetResult. rewrite Hreq, Ha.
  set (m := sdfMargin (CONFIG w)). set (g := nSdfGlyphSize (atArgs req)).
  pose proof (forEachGlyph_missing m g result (glyphIds result) (newLoopState a)
                glyphId Hin Hnew Hnodata) as Hfalse.
  pose proof (λ glyphId' e He,
                forEachGlyph_keeps m g result (glyphIds result) (newLoopState a)
                  glyphId' e He) as Hkeep.
  assert (∀ before after,
            glyphIds result = before ++ glyphId :: after →
            glyphId ∉ before →
            Forall (λ glyphId', is_Some (glyphData result !! glyphId')) before →
            (forEachGlyph m g result (glyphIds result) (newLoopState a)).1
            = (forEachGlyph m g result before (newLoopState a)).1 ∧
            (forEachGlyph m g result before (newLoopState a)).2 = true) as Hsplit.
  { intros before after Heq Hnin Hcov.
    pose proof (forEachGlyph_covered m g result before (newLoopState a) Hcov) as Hok.
    split; [|done]. rewrite Heq, forEachGlyph_app, Hok. cbn [forEachGlyph].
    pose proof (forEachGlyph_absent m g result before (newLoopState a) glyphId Hnin Hnew)
      as Habs.
    unfold visitGlyph, lookupOrAdd. rewrite Habs, Hnodata. done. }
  assert (glyphs (lsAtlas (forEachGlyph m g result (glyphIds result) (newLoopState a)).1)
            !! glyphId = None) as Hstill.
  { apply list_elem_of_split in Hin as (before & after & Heq).
    assert (∃ before' after', glyphIds result = before' ++ glyphId :: after' ∧
                              glyphId ∉ before') as (b & af & Hb & Hnb).
    { clear -Heq. revert Heq. generalize (glyphIds result). intros l.
      revert l. induction before as [|x before IH]; intros l ->.
      - exists [], after. split; [done|]. by intros ?%elem_of_nil.
      - destruct (decide (x = glyphId)) as [->|Hne].
        + exists [], (before ++ glyphId :: after). split; [done|]. by intros ?%elem_of_nil.
        + destruct (IH _ eq_refl) as (b & af & Hb & Hnb).
          exists (x :: b), af. simpl. rewrite Hb. split; [done|].
          by intros [?|?]%elem_of_cons. }
    rewrite Hb at 1. rewrite forEachGlyph_app.
    destruct (forEachGlyph m g result b (newLoopState a)).2 eqn:Hok.
    - cbn [forEachGlyph].
      pose proof (forEachGlyph_absent m g result b (newLoopState a) glyphId Hnb Hnew)
        as Habs.
      unfold visitGlyph, lookupOrAdd. rewrite Habs, Hnodata. done.
    - by apply forEachGlyph_absent. }
  destruct (forEachGlyph m g result (glyphIds result) (newLoopState a))
    as [st completed] eqn:Hloop.
  simpl in Hfalse. subst completed. simpl in *.
  repeat split; try done.
  exists (lsAtlas st). rewrite lookup_insert_eq. repeat split; try done.
  intros before after Heq Hnin Hcov.
  destruct (Hsplit before after Heq Hnin Hcov) as [-> Hok].
  by apply forEachGlyph_entries.
Qed.

(** The slots handed out never decrease. *)
Lemma step_count_mono w ev k a :
  worldOK w → atlases w !! k = Some a →
  ∃ a', atlases (step'' w ev) !! k = Some a' ∧ count a ≤ count a'.
Proof.
  intros Hw Hk. destruct ev as [config|args|i result|j textures]; simpl.
  - unfold configureTextBuilder. destruct (hasRequested w); simpl; eauto.
  - exists a. split; [|done]. by apply getTextRenderInfo_keeps.
  - unfold onTypesetResult.
    destruct (awaitingTypeset w !! i) as [req|]; [|eauto].
    destruct (atlases w !! atAtlasKey req) as [a0|] eqn:Ha0; [|eauto].
    pose proof (forEachGlyph_inv (sdfMargin (CONFIG w)) (nSdfGlyphSize (atArgs req))
                  result a0 (glyphIds result) (newLoopState a0)
                  (loopInv_start a0 (proj1 Hw _ _ Ha0)))
      as (_ & Hcount & _).
    destruct (forEachGlyph _ _ _ _ _) as [st completed]. simpl in *.
    destruct (decide (atAtlasKey req = k)) as [<-|Hne].
    + rewrite lookup_insert_eq. rewrite Ha0 in Hk. injection Hk as <-.
      eexists. split; [done|]. lia.
    + rewrite lookup_insert_ne by done. eauto.
  - destruct (onSDFResults_keeps w j textures _ _ Hk) as (a' & Ha' & Hc & _).
    exists a'. split; [done|]. lia.
Qed.

(** No call for a slot already handed out is made later. *)
Lemma step_no_call w ev k i :
  worldOK w →
  (∃ a, atlases w !! k = Some a ∧ i < count a) →
  (∀ c, c ∈ sdfCalls w → callSlot c ≠ (k, i)) →
  ∀ c, c ∈ sdfCalls (step'' w ev) → callSlot c ≠ (k, i).
Proof.
  intros Hw (a & Hk & Hi) Hnone.
  destruct ev as [config|args|n result|j textures]; simpl.
  - unfold configureTextBuilder. by destruct (hasRequested w).
  - done.
  - unfold onTypesetResult.
    destruct (awaitingTypeset w !! n) as [req|]; [|done].
    destruct (atlases w !! atAtlasKey req) as [a0|] eqn:Ha0; [|done].
    pose proof (forEachGlyph_inv (sdfMargin (CONFIG w)) (nSdfGlyphSize (atArgs req))
                  result a0 (glyphIds result) (newLoopState a0)
                  (loopInv_start a0 (proj1 Hw _ _ Ha0)))
      as (_ & _ & Hneeded & _).
    destruct (forEachGlyph _ _ _ _ _) as [st [|]]; simpl in *; [|done].
    intros c [Hc|Hc]%elem_of_app; [by apply Hnone|].
    apply list_elem_of_fmap in Hc as (e & -> & He). unfold callSlot. simpl.
    intros [= Hkey Hidx].
    rewrite Hkey, Hk in Ha0. injection Ha0 as <-.
    assert (atlasIndex e ∈ atlasIndex <$> lsNeededSDFs st) as Hin
      by (apply list_elem_of_fmap; eauto).
    rewrite Hneeded in Hin. apply elem_of_seq in Hin. lia.
  - by rewrite onSDFResults_calls.
Qed.

Lemma run_no_call evs w k i :
  worldOK w →
  (∃ a, atlases w !! k = Some a ∧ i < count a) →
  (∀ c, c ∈ sdfCalls w → callSlot c ≠ (k, i)) →
  ∀ c, c ∈ sdfCalls (run'' evs w) → callSlot c ≠ (k, i).
Proof.
  revert w. induction evs as [|ev evs IH]; intros w Hw Hslot Hnone; [done|].
  simpl. apply IH.
  - by apply step_OK.
  - destruct Hslot as (a & Hk & Hi).
    destruct (step_count_mono w ev k a Hw Hk) as (a' & Hk' & Hle).
    exists a'. split; [done|]. lia.
  - by apply step_no_call.
Qed.

(** X10.  A glyph that was given its slot by a loop that then threw is
    never rasterized: the continuation that made the entry called no
    rasterizer, and whatever happens later no call is made for its slot,
    which therefore stays as it is in the texture. *)
Theorem glyph_of_aborted_loop_never_rasterized (evs evs' : list (Event num)) (i : nat)
    (result : TypesetResult num) (k : string) (a a1 : Atlas num) (glyphId : nat)
    (e : GlyphInfo num) :
  let w := run'' evs initialWorld in
  let w1 := onTypesetResult w i result in
  atlases w !! k = Some a → glyphs a !! glyphId = None →
  atlases w1 !! k = Some a1 → glyphs a1 !! glyphId = Some e →
  sdfCalls w1 = sdfCalls w →
  filter (λ c, callSlot c = (k, atlasIndex e)) (sdfCalls (run'' evs' w1)) = [].
Proof.
  intros w w1 Hk Hnew Hk1 He Hcalls.
  pose proof (run_OK toAbsoluteURL evs _ worldOK_initial) as Hw. fold w in Hw.
  assert (worldOK w1) as Hw1 by (by apply onTypesetResult_OK).
  assert (count a ≤ atlasIndex e) as Hge.
  { unfold w1, onTypesetResult in Hk1.
    destruct (awaitingTypeset w !! i) as [req|]; [|congruence].
    destruct (atlases w !! atAtlasKey req) as [a0|] eqn:Ha0; [|congruence].
    pose proof (forEachGlyph_added (sdfMargin (CONFIG w)) (nSdfGlyphSize (atArgs req))
                  result a0 (glyphIds result) (newLoopState a0) glyphId e
                  (loopInv_start a0 (proj1 Hw _ _ Ha0))) as Hadded.
    destruct (forEachGlyph _ _ _ _ _) as [st completed]. simpl in *.
    destruct (decide (atAtlasKey req = k)) as [Heq|Hne].
    - rewrite Heq in *. rewrite lookup_insert_eq in Hk1. injection Hk1 as <-.
      rewrite Hk in Ha0. injection Ha0 as <-.
      destruct (Hadded Hnew He) as [?|?]; [congruence|done].
    - rewrite lookup_insert_ne in Hk1 by done. congruence. }
  apply filter_none. intros c Hc.
  apply (run_no_call evs' w1 k (atlasIndex e)); try done.
  - exists a1. split; [done|]. by apply (proj2 (proj1 Hw1 _ _ Hk1) glyphId).
  - intros c' Hc'. rewrite Hcalls in Hc'.
    destruct (proj2 (proj2 Hw) c' Hc') as (a' & Ha' & Hlt).
    unfold callSlot. intros [= Hkey Hidx]. rewrite Hkey, Hk in Ha'.
    injection Ha' as <-. lia.
Qed.

Lemma lookup_skip4 {A} (x0 x1 x2 x3 : A) (l : list A) n :
  ([x0; x1; x2; x3] ++ l) !! (4 + n) = l !! n.
Proof. reflexivity. Qed.

(** What a completed loop appends to its outputs. *)
Lemma forEachGlyph_outputs m g result ids st st' :
  forEachGlyph m g result ids st = (st', true) →
  ∃ newIds newBounds,
    lsGlyphIds st' = lsGlyphIds st ++ newIds ∧
    lsGlyphBounds st' = lsGlyphBounds st ++ newBounds ∧
    length newIds = length ids ∧
    length newBounds = 4 * length ids ∧
    ∀ j glyphId, ids !! j = Some glyphId →
      ∃ e, glyphs (lsAtlas st') !! glyphId = Some e ∧
           newIds !! j = Some (atlasIndex e) ∧
           let mult := fontSize result /! unitsPerEm result in
           let posX := glyphPositions result !! (lsPositionsIdx st + 2 * j) in
           let posY := glyphPositions result !! (lsPositionsIdx st + 2 * j + 1) in
           newBounds !! (4 * j) = Some (quadCoord posX (b0 (sdfViewBox e)) mult) ∧
           newBounds !! (4 * j + 1) = Some (quadCoord posY (b1 (sdfViewBox e)) mult) ∧
           newBounds !! (4 * j + 2) = Some (quadCoord posX (b2 (sdfViewBox e)) mult) ∧
           newBounds !! (4 * j + 3) = Some (quadCoord posY (b3 (sdfViewBox e)) mult).
Proof.
  revert st. induction ids as [|id ids IH]; intros st.
  - simpl. intros [= <-]. exists [], []. rewrite !app_nil_r.
    repeat split; try done.
  - cbn [forEachGlyph].
    destruct (visitGlyph m g result st id) as [st1|] eqn:Hv; [|done].
    intros Hloop.
    destruct (IH st1 Hloop) as (newIds & newBounds & Hids & Hbounds & Hlen & Hlenb & Hall).
    assert (∃ e, glyphs (lsAtlas st1) !! id = Some e ∧
                 lsGlyphIds st1 = lsGlyphIds st ++ [atlasIndex e] ∧
                 lsPositionsIdx st1 = lsPositionsIdx st + 2 ∧
                 lsGlyphBounds st1
                 = lsGlyphBounds st ++
                   [ quadCoord (glyphPositions result !! lsPositionsIdx st)
                       (b0 (sdfViewBox e)) (fontSize result /! unitsPerEm result);
                     quadCoord (glyphPositions result !! (lsPositionsIdx st + 1))
                       (b1 (sdfViewBox e)) (fontSize result /! unitsPerEm result);
                     quadCoord (glyphPositions result !! lsPositionsIdx st)
                       (b2 (sdfViewBox e)) (fontSize result /! unitsPerEm result);
                     quadCoord (glyphPositions result !! (lsPositionsIdx st + 1))
                       (b3 (sdfViewBox e)) (fontSize result /! unitsPerEm result) ])
      as (e & He & Hids1 & Hpos1 & Hbounds1).
    { unfold visitGlyph in Hv.
      destruct (lookupOrAdd _ _ _ _ _ _) as [[[a' needed'] e]|] eqn:Hla; [|done].
      simpl in Hv. injection Hv as <-. simpl. exists e. split; [|done].
      apply lookupOrAdd_cases in Hla as [(He & -> & _)|(_ & _ & -> & _)]; [done|].
      simpl. apply lookup_insert_eq. }
    exists (atlasIndex e :: newIds),
      ([ quadCoord (glyphPositions result !! lsPositionsIdx st)
           (b0 (sdfViewBox e)) (fontSize result /! unitsPerEm result);
         quadCoord (glyphPositions result !! (lsPositionsIdx st + 1))
           (b1 (sdfViewBox e)) (fontSize result /! unitsPerEm result);
         quadCoord (glyphPositions result !! lsPositionsIdx st)
           (b2 (sdfViewBox e)) (fontSize result /! unitsPerEm result);
         quadCoord (glyphPositions result !! (lsPositionsIdx st + 1))
           (b3 (sdfViewBox e)) (fontSize result /! unitsPerEm result) ] ++ newBounds).
    rewrite Hids, Hbounds, Hids1, Hbounds1, <- !app_assoc.
    split; [done|]. split; [done|].
    split; [simpl; lia|]. split; [rewrite length_app; simpl; lia|].
    intros [|j] glyphId Hj; simpl in Hj.
    + injection Hj as <-. exists e. split.
      { replace st' with (forEachGlyph m g result ids st1).1 by (by rewrite Hloop).
        by apply forEachGlyph_keeps. }
      split; [done|]. cbv zeta. rewrite !Nat.add_0_r. done.
    + destruct (Hall j glyphId Hj) as (e' & He' & Hi' & Hb0 & Hb1 & Hb2 & Hb3).
      exists e'. split; [done|]. split; [done|]. cbv zeta in *.
      rewrite Hpos1 in Hb0, Hb1, Hb2, Hb3.
      replace (lsPositionsIdx st + 2 * S j) with (lsPositionsIdx st + 2 + 2 * j) by lia.
      replace (4 * S j + 1) with (4 + (4 * j + 1)) by lia.
      replace (4 * S j + 2) with (4 + (4 * j + 2)) by lia.
      replace (4 * S j + 3) with (4 + (4 * j + 3)) by lia.
      replace (4 * S j) with (4 + 4 * j) by lia.
      rewrite !lookup_skip4. done.
Qed.

(** X11.  When the loop ends normally its outputs are aligned with the
    typesetter's glyph sequence: one slot index per glyph id, four bounds
    per glyph id, the [j]-th index being that of the entry of the [j]-th
    glyph id and its four bounds being that entry's view box scaled by
    [fontSize / unitsPerEm] and moved to the [j]-th pair of
    [glyphPositions], each rounded to binary32 as the [Float32Array]
    stores it (not a number where the pair is missing). *)
Theorem loop_outputs_are_aligned (m : num) (g : nat) (result : TypesetResult num)
    (a : Atlas num) (st' : LoopState num) :
  forEachGlyph m g result (glyphIds result) (newLoopState a) = (st', true) →
  length (lsGlyphIds st') = length (glyphIds result) ∧
  length (lsGlyphBounds st') = 4 * length (glyphIds result) ∧
  ∀ j glyphId, glyphIds result !! j = Some glyphId →
    ∃ e, glyphs (lsAtlas st') !! glyphId = Some e ∧
         lsGlyphIds st' !! j = Some (atlasIndex e) ∧
         let mult := fontSize result /! unitsPerEm result in
         let posX := glyphPositions result !! (2 * j) in
         let posY := glyphPositions result !! (2 * j + 1) in
         let stored (pos : option num) (v : num) :=
           (λ p, num_fround (p +! v *! mult)) <$> pos in
         lsGlyphBounds st' !! (4 * j) = Some (stored posX (b0 (sdfViewBox e))) ∧
         lsGlyphBounds st' !! (4 * j + 1) = Some (stored posY (b1 (sdfViewBox e))) ∧
         lsGlyphBounds st' !! (4 * j + 2) = Some (stored posX (b2 (sdfViewBox e))) ∧
         lsGlyphBounds st' !! (4 * j + 3) = Some (stored posY (b3 (sdfViewBox e))).
Proof.
  intros (newIds & newBounds & Hids & Hbounds & Hlen & Hlenb & Hall)%forEachGlyph_outputs.
  simpl in Hids, Hbounds. subst newIds newBounds.
  split; [done|]. split; [done|]. exact Hall.
Qed.


Lemma step_CONFIG w ev : hasRequested w = true → CONFIG (step'' w ev) = CONFIG w.
Proof.
  intros Hw. destruct ev as [config|args|i result|j textures]; simpl.
  - unfold configureTextBuilder. by rewrite Hw.
  - done.
  - unfold onTypesetResult.
    destruct (awaitingTypeset w !! i) as [req|]; [|done].
    destruct (atlases w !! atAtlasKey req) as [a0|]; [|done].
    by destruct (forEachGlyph _ _ _ _ _) as [st completed].
  - unfold onSDFResults.
    destruct (awaitingSDFs w !! j) as [p|]; [|done].
    destruct (atlases w !! atAtlasKey (asRequest p)) as [a0|]; [|done].
    destruct (negb _); [done|].
    match goal with |- context [match ?x with Some _ => _ | None => w end] =>
      destruct x as [tex'|] end; done.
Qed.

Lemma run_CONFIG evs w : hasRequested w = true → CONFIG (run'' evs w) = CONFIG w.
Proof.
  revert w. induction evs as [|ev evs IH]; intros w Hw; [done|].
  simpl. rewrite IH by (by apply step_hasRequested). by apply step_CONFIG.
Qed.

(** X13.  The first request freezes the configuration: whatever happens
    after it (further requests with their own glyph size, answers of the
    workers, calls of [configureTextBuilder]), [CONFIG] stays what it was
    when the first request was made. *)
Theorem config_frozen_by_first_request (evs evs' : list (Event num)) (args : Args) :
  CONFIG (run'' (evs ++ Request args :: evs') initialWorld)
  = CONFIG (run'' evs initialWorld).
Proof.
  rewrite (run_app toAbsoluteURL). simpl. by rewrite run_CONFIG.
Qed.

Lemma step_accountedFor w ev :
  accountedFor (step'' w ev) ≤ accountedFor w + (if isRequest ev then 1 else 0).
Proof.
  unfold accountedFor. destruct ev as [config|args|i result|j textures]; simpl.
  - unfold configureTextBuilder. destruct (hasRequested w); simpl; lia.
  - rewrite length_app. simpl. lia.
  - unfold onTypesetResult.
    destruct (awaitingTypeset w !! i) as [req|] eqn:Hi; [|lia].
    destruct (atlases w !! atAtlasKey req) as [a0|]; [|lia].
    destruct (forEachGlyph _ _ _ _ _) as [st completed]. simpl.
    pose proof (length_delete (awaitingTypeset w) i ltac:(eauto)) as Hlen.
    apply lookup_lt_Some in Hi.
    destruct completed; rewrite ?length_app; simpl; lia.
  - unfold onSDFResults.
    destruct (awaitingSDFs w !! j) as [p|] eqn:Hj; [|lia].
    destruct (atlases w !! atAtlasKey (asRequest p)) as [a0|]; [|lia].
    destruct (negb _); [lia|].
    match goal with |- context [match ?x with Some _ => _ | None => w end] =>
      destruct x as [tex'|] end; [|lia].
    simpl. rewrite length_app. simpl.
    pose proof (length_delete (awaitingSDFs w) j ltac:(eauto)) as Hlen.
    apply lookup_lt_Some in Hj. lia.
Qed.

(** X14.  The callback is invoked at most once per request: at any
    moment the callbacks made plus the requests still waiting, for the
    typesetter or for the rasterizers, are no more than the calls of
    [getTextRenderInfo] so far. *)
Theorem callbacks_at_most_requests (evs : list (Event num)) :
  accountedFor (run'' evs initialWorld)
  ≤ length (filter (λ ev, isRequest ev = true) evs).
Proof.
  assert (∀ w, accountedFor (run'' evs w)
               ≤ accountedFor w + length (filter (λ ev, isRequest ev = true) evs))
    as Hgen.
  { induction evs as [|ev evs IH]; intros w; simpl; [lia|].
    specialize (IH (step'' w ev)). pose proof (step_accountedFor w ev) as Hstep.
    rewrite filter_cons. destruct (isRequest ev) eqn:Hev.
    - rewrite decide_True by done. simpl. lia.
    - rewrite decide_False by done. lia. }
  apply (Hgen initialWorld).
Qed.

Lemma outputsOK_mono w w' :
  (∀ k a, atlases w !! k = Some a → ∃ a', atlases w' !! k = Some a' ∧ count a ≤ count a') →
  ∀ key (ids : list nat) (bounds : list (option num)),
    (∃ a, atlases w !! key = Some a ∧ Forall (λ i, i < count a) ids ∧
          length bounds = 4 * length ids) →
    ∃ a, atlases w' !! key = Some a ∧ Forall (λ i, i < count a) ids ∧
         length bounds = 4 * length ids.
Proof.
  intros Hmono key ids bounds (a & Ha & Hall & Hlen).
  destruct (Hmono _ _ Ha) as (a' & Ha' & Hle).
  exists a'. split; [done|]. split; [|done].
  eapply Forall_impl; [exact Hall|]. simpl. intros. lia.
Qed.

Lemma onTypesetResult_outputs w i result p :
  worldOK w →
  p ∈ awaitingSDFs (onTypesetResult w i result) →
  p ∈ awaitingSDFs w ∨
  ∃ a, atlases (onTypesetResult w i result) !! atAtlasKey (asRequest p) = Some a ∧
       Forall (λ i, i < count a) (asGlyphIds p) ∧
       length (asGlyphBounds p) = 4 * length (asGlyphIds p).
Proof.
  intros Hw. unfold onTypesetResult.
  destruct (awaitingTypeset w !! i) as [req|]; [|by left].
  destruct (atlases w !! atAtlasKey req) as [a0|] eqn:Ha0; [|by left].
  pose proof (forEachGlyph_inv (sdfMargin (CONFIG w)) (nSdfGlyphSize (atArgs req))
                result a0 (glyphIds result) (newLoopState a0)
                (loopInv_start a0 (proj1 Hw _ _ Ha0)))
    as ((_ & Hidx) & _).
  destruct (forEachGlyph _ _ _ _ _) as [st completed] eqn:Hloop.
  cbn [fst] in Hidx. cbn [awaitingSDFs atlases].
  destruct completed; [|by left].
  intros [Hold|Heq%list_elem_of_singleton]%elem_of_app; [by left|]. right.
  subst p. cbn [asRequest asGlyphIds asGlyphBounds].
  exists (lsAtlas st). rewrite lookup_insert_eq. split; [done|].
  destruct (forEachGlyph_outputs _ _ _ _ _ _ Hloop)
    as (newIds & newBounds & Hids & Hbounds & Hlen & Hlenb & Hall).
  simpl in Hids, Hbounds. subst newIds newBounds. split; [|lia].
  apply Forall_lookup. intros n x Hn.
  destruct (lookup_lt_is_Some_2 (glyphIds result) n) as [glyphId Hg].
  { apply lookup_lt_Some in Hn. lia. }
  destruct (Hall n glyphId Hg) as (e & He & Hx & _).
  rewrite Hn in Hx. injection Hx as ->. by eapply Hidx.
Qed.

Lemma onTypesetResult_delivered w i result :
  delivered (onTypesetResult w i result) = delivered w.
Proof.
  unfold onTypesetResult.
  destruct (awaitingTypeset w !! i) as [req|]; [|done].
  destruct (atlases w !! atAtlasKey req) as [a0|]; [|done].
  by destruct (forEachGlyph _ _ _ _ _) as [st completed].
Qed.

Lemma onSDFResults_outputs w j textures :
  (∀ p, p ∈ awaitingSDFs (onSDFResults w j textures) → p ∈ awaitingSDFs w) ∧
  (∀ ri, ri ∈ delivered (onSDFResults w j textures) →
     ri ∈ delivered w ∨
     ∃ p, p ∈ awaitingSDFs w ∧ riTexture ri = atAtlasKey (asRequest p) ∧
          glyphAtlasIndices ri = asGlyphIds p ∧ glyphBounds ri = asGlyphBounds p).
Proof.
  unfold onSDFResults.
  destruct (awaitingSDFs w !! j) as [p|] eqn:Hj; [|by split; [|left]].
  destruct (atlases w !! atAtlasKey (asRequest p)) as [a0|]; [|by split; [|left]].
  destruct (negb _); [by split; [|left]|].
  match goal with |- context [match ?x with Some _ => _ | None => w end] =>
    destruct x as [tex'|] end; [|by split; [|left]].
  cbn [awaitingSDFs delivered]. split.
  - intros p'. apply PoolFacts.elem_of_delete.
  - intros ri [Hri|Heq%list_elem_of_singleton]%elem_of_app; [by left|]. right.
    subst ri. exists p. split; [by eapply list_elem_of_lookup_2|]. done.
Qed.

Lemma step_outputsOK w ev : worldOK w → outputsOK w → outputsOK (step'' w ev).
Proof.
  intros Hw [Hwait Hdone].
  pose proof (λ k a, step_count_mono w ev k a Hw) as Hmono.
  destruct ev as [config|args|i result|j textures].
  - simpl. unfold configureTextBuilder. by destruct (hasRequested w).
  - split.
    + intros p Hp. by apply (outputsOK_mono w _ Hmono), Hwait.
    + intros ri Hri. by apply (outputsOK_mono w _ Hmono), Hdone.
  - split.
    + intros p Hp. cbn [step] in *.
      destruct (onTypesetResult_outputs w i result p Hw Hp) as [Hold|Hnew]; [|done].
      by apply (outputsOK_mono w _ Hmono), Hwait.
    + intros ri Hri. cbn [step] in *. rewrite onTypesetResult_delivered in Hri.
      by apply (outputsOK_mono w _ Hmono), Hdone.
  - destruct (onSDFResults_outputs w j textures) as [Hwait' Hdone']. split.
    + intros p Hp%Hwait'. by apply (outputsOK_mono w _ Hmono), Hwait.
    + intros ri [Hri|(p & Hp & Hk & Hi & Hb)]%Hdone'.
      * by apply (outputsOK_mono w _ Hmono), Hdone.
      * rewrite Hk, Hi, Hb. by apply (outputsOK_mono w _ Hmono), Hwait.
Qed.

Lemma run_outputsOK evs w : worldOK w → outputsOK w → outputsOK (run'' evs w).
Proof.
  revert w. induction evs as [|ev evs IH]; intros w Hw Ho; [done|].
  simpl. apply IH; [by apply step_OK | by apply step_outputsOK].
Qed.

(** X15.  Every index handed to a callback is a slot its atlas has
    handed out, then and at any later moment, and the callback gets four
    bounds per index. *)
Theorem delivered_indices_are_slots (evs : list (Event num)) (ri : RenderInfo num) :
  ri ∈ delivered (run'' evs initialWorld) →
  ∃ a, atlases (run'' evs initialWorld) !! riTexture ri = Some a ∧
       Forall (λ i, i < count a) (glyphAtlasIndices ri) ∧
       length (glyphBounds ri) = 4 * length (glyphAtlasIndices ri).
Proof.
  intros Hri.
  assert (outputsOK (initialWorld (num:=num))) as Hinit.
  { split; simpl; intros ? ?%elem_of_nil; done. }
  by apply (run_outputsOK evs _ worldOK_initial Hinit).
Qed.

(** *** The atlas key *)

Lemma pretty_N_go_no_at x s :
  (∀ s1 s2, s ≠ s1 +:+ "@" +:+ s2) →
  ∀ s1 s2, pretty_N_go x s ≠ s1 +:+ "@" +:+ s2.
Proof.
  clear. revert s. induction (N.lt_wf_0 x) as [x _ IH]; intros s Hs.
  assert (x = 0 ∨ 0 < x)%N as [->|?] by lia.
  - by rewrite pretty_N_go_0.
  - rewrite pretty_N_go_step by done. apply IH.
    { by apply N.div_lt. }
    intros [|c s1] s2; simpl.
    + unfold pretty_N_char. by repeat case_match.
    + intros [= _ Heq]. by apply (Hs s1 s2).
Qed.

Lemma pretty_nat_no_at (n : nat) s1 s2 : pretty n ≠ s1 +:+ "@" +:+ s2.
Proof.
  clear. unfold pretty, pretty_nat, pretty, pretty_N. case_decide.
  - by destruct s1 as [|c [|c' s1]].
  - apply pretty_N_go_no_at. by intros [|? ?] ?.
Qed.

Lemma atlasKeyOf_inj font font' g g' :
  atlasKeyOf font g = atlasKeyOf font' g' → font = font' ∧ g = g'.
Proof.
  clear. unfold atlasKeyOf. revert font'.
  induction font as [|c font IH]; intros [|c' font']; simpl.
  - intros [= Heq]. split; [done|]. by apply (inj pretty).
  - intros [= <- Heq]. by destruct (pretty_nat_no_at g font' (pretty g')).
  - intros [= -> Heq]. by destruct (pretty_nat_no_at g' font (pretty g)).
  - intros [= -> Heq]. destruct (IH _ Heq) as [-> ->]. done.
Qed.

(** X16.  The atlas key tells fonts and glyph sizes apart: two requests
    get the same key, hence the same atlas, exactly when they have the
    same font and the same glyph size, whatever characters the font's URL
    is made of. *)
Theorem atlas_key_determines_font_and_size (font font' : string) (g g' : nat) :
  atlasKeyOf font g = atlasKeyOf font' g' ↔ font = font' ∧ g = g'.
Proof.
  split; [apply atlasKeyOf_inj|]. by intros [-> ->].
Qed.

(** *** The shape of every atlas texture *)

Lemma insertSDF_rectangular_Some g W k0 s td texImg texImg' :
  Texture.rectangular g W k0 texImg →
  Texture.insertSDF g s td texImg = Some texImg' →
  ∃ k, Texture.rectangular g W k texImg'.
Proof.
  clear. intros (Hw & Hh & Hlen) Hins.
  destruct (TextureFacts.insertSDF_Some _ _ _ _ _ Hins) as (k & Heq & _). simpl in Heq.
  pose proof (TextureFacts.insertSDF_length _ _ _ _ _ _ Heq) as Hlen'.
  exists (k0 + k). unfold Texture.rectangular. rewrite Hlen'. subst texImg'. simpl.
  rewrite Hlen, Hw, Hh, Nat.pow_add_r. lia.
Qed.

Lemma insertAll_rectangular_Some g W k0 ws texImg texImg' :
  Texture.rectangular g W k0 texImg →
  Texture.insertAll g ws texImg = Some texImg' →
  ∃ k, Texture.rectangular g W k texImg'.
Proof.
  clear. revert k0 texImg.
  induction ws as [|[s td] ws IH]; intros k0 texImg Hrect; simpl.
  - intros [= <-]. eauto.
  - destruct (Texture.insertSDF g s td texImg) as [texImg1|] eqn:Hins; [|done]. simpl.
    destruct (insertSDF_rectangular_Some _ _ _ _ _ _ _ Hrect Hins) as [k1 Hrect1].
    by apply IH with k1.
Qed.

Lemma texturesOK_initial : texturesOK (initialWorld (num:=num)).
Proof.
  clear. split; [done|]. split; [|split]; simpl.
  - by intros ? ?%elem_of_nil.
  - by intros ? ?%elem_of_nil.
  - intros k a Ha. by rewrite lookup_empty in Ha.
Qed.

Lemma configureTextBuilder_textures w config :
  texturesOK w → texturesOK (configureTextBuilder w config).
Proof.
  clear. intros (Hnone & Htype & Hsdf & Hshape). unfold configureTextBuilder.
  destruct (hasRequested w) eqn:Hreq; [done|].
  specialize (Hnone eq_refl).
  split; [done|]. split; [|split]; simpl.
  - intros req [_ [a Ha]]%Htype. by rewrite Hnone, lookup_empty in Ha.
  - intros p [_ [a Ha]]%Hsdf. by rewrite Hnone, lookup_empty in Ha.
  - intros k a Ha. by rewrite Hnone, lookup_empty in Ha.
Qed.

Lemma getTextRenderInfo_textures w args :
  texturesOK w → texturesOK (getTextRenderInfo toAbsoluteURL w args).
Proof.
  intros (Hnone & Htype & Hsdf & Hshape).
  pose proof (getTextRenderInfo_keeps toAbsoluteURL w args) as Hkeeps.
  split; [done|]. split; [|split].
  - intros req Hreq. cbn [getTextRenderInfo awaitingTypeset] in Hreq.
    apply elem_of_app in Hreq as [Hold|Heq%list_elem_of_singleton].
    + destruct (Htype _ Hold) as [Hkey [a Ha]]. split; [done|].
      exists a. by apply Hkeeps.
    + subst req. split; [done|]. cbn [atAtlasKey getTextRenderInfo atlases].
      destruct (atlases w !! _) eqn:Hk; [by rewrite Hk|].
      by rewrite lookup_insert_eq.
  - intros p Hp. destruct (Hsdf _ Hp) as [Hkey [a Ha]]. split; [done|].
    exists a. by apply Hkeeps.
  - intros k a Ha. cbn [getTextRenderInfo atlases CONFIG] in *.
    destruct (atlases w !! atlasKeyOf _ _) eqn:Hk; [by apply Hshape|].
    apply lookup_insert_Some in Ha as [[<- <-]|[_ Ha]]; [|by apply Hshape].
    eexists _, _, 0. split; [done|]. split; [done|].
    apply TextureFacts.rectangular_new.
Qed.

Lemma onTypesetResult_textures w i result :
  worldOK w → texturesOK w → texturesOK (onTypesetResult w i result).
Proof.
  clear. intros Hw (Hnone & Htype & Hsdf & Hshape). unfold onTypesetResult.
  destruct (awaitingTypeset w !! i) as [req|] eqn:Hi; [|done].
  destruct (atlases w !! atAtlasKey req) as [a0|] eqn:Ha0; [|done].
  pose proof (forEachGlyph_inv (sdfMargin (CONFIG w)) (nSdfGlyphSize (atArgs req))
                result a0 (glyphIds result) (newLoopState a0)
                (loopInv_start a0 (proj1 Hw _ _ Ha0)))
    as (_ & _ & _ & _ & Htex).
  destruct (forEachGlyph _ _ _ _ _) as [st completed]. cbn [fst] in Htex.
  assert (∀ k, is_Some (atlases w !! k) →
               is_Some (<[atAtlasKey req := lsAtlas st]> (atlases w) !! k)) as Hstill.
  { intros k Hk. apply lookup_insert_is_Some.
    destruct (decide (atAtlasKey req = k)); [by left | by right]. }
  split; [|split; [|split]]; cbn [hasRequested atlases awaitingTypeset awaitingSDFs CONFIG].
  - intros Hreq. by rewrite (Hnone Hreq), lookup_empty in Ha0.
  - intros req' Hreq'%PoolFacts.elem_of_delete.
    destruct (Htype _ Hreq') as [Hkey Hsome]. split; [done|]. by apply Hstill.
  - intros p Hp.
    assert (p ∈ awaitingSDFs w ∨ asRequest p = req) as [Hold| ->].
    { destruct completed; [|by left].
      apply elem_of_app in Hp as [?|Heq%list_elem_of_singleton]; [by left|].
      subst p. by right. }
    + destruct (Hsdf _ Hold) as [Hkey Hsome]. split; [done|]. by apply Hstill.
    + destruct (Htype req) as [Hkey Hsome]; [by eapply list_elem_of_lookup_2|].
      split; [done|]. by apply Hstill.
  - intros k a [[<- <-]|[_ Ha]]%lookup_insert_Some; [|by apply Hshape].
    rewrite Htex. by apply Hshape.
Qed.

Lemma onSDFResults_textures w j textures :
  texturesOK w → texturesOK (onSDFResults w j textures).
Proof.
  clear. intros (Hnone & Htype & Hsdf & Hshape). unfold onSDFResults.
  destruct (awaitingSDFs w !! j) as [p|] eqn:Hj; [|done].
  destruct (atlases w !! atAtlasKey (asRequest p)) as [a0|] eqn:Ha0; [|done].
  destruct (negb _); [done|].
  match goal with |- context [match ?x with Some _ => _ | None => w end] =>
    destruct x as [tex'|] eqn:Hwritten end; [|done].
  assert (∀ k, is_Some (atlases w !! k) →
               is_Some (<[atAtlasKey (asRequest p) :=
                            {| count := count a0; glyphs := glyphs a0;
                               sdfTexture := tex' |}]> (atlases w) !! k)) as Hstill.
  { intros k Hk. apply lookup_insert_is_Some.
    destruct (decide (atAtlasKey (asRequest p) = k)); [by left | by right]. }
  split; [|split; [|split]]; cbn [hasRequested atlases awaitingTypeset awaitingSDFs CONFIG].
  - intros Hreq. by rewrite (Hnone Hreq), lookup_empty in Ha0.
  - intros req' Hreq'. destruct (Htype _ Hreq') as [Hkey Hsome].
    split; [done|]. by apply Hstill.
  - intros p' Hp'%PoolFacts.elem_of_delete.
    destruct (Hsdf _ Hp') as [Hkey Hsome]. split; [done|]. by apply Hstill.
  - intros k a [[<- <-]|[_ Ha]]%lookup_insert_Some; [|by apply Hshape].
    cbn [sdfTexture].
    destruct (Hshape _ _ Ha0) as (f & g & k0 & Hk & Hf & Hrect).
    destruct (Hsdf p) as [Hown _]; [by eapply list_elem_of_lookup_2|].
    unfold ownKey in Hown. rewrite Hk in Hown.
    apply atlasKeyOf_inj in Hown as [Hfont Hsize].
    destruct (neededSDFs p) as [|e0 needed].
    + injection Hwritten as <-. eauto 10.
    + destruct (Texture.insertAll _ _ _) as [img|] eqn:Hins; [|done].
      simpl in Hwritten. injection Hwritten as <-. simpl.
      rewrite <-Hsize in Hins.
      destruct (insertAll_rectangular_Some _ _ _ _ _ _ Hrect Hins) as [k1 Hrect1].
      eauto 10.
Qed.

Lemma step_textures w ev : worldOK w → texturesOK w → texturesOK (step'' w ev).
Proof.
  intros Hw Ht. destruct ev; simpl.
  - by apply configureTextBuilder_textures.
  - by apply getTextRenderInfo_textures.
  - by apply onTypesetResult_textures.
  - by apply onSDFResults_textures.
Qed.

Lemma run_textures evs w : worldOK w → texturesOK w → texturesOK (run'' evs w).
Proof.
  revert w. induction evs as [|ev evs IH]; intros w Hw Ht; [done|].
  simpl. apply IH; [by apply step_OK | by apply step_textures].
Qed.

Lemma insertAll_zero_size ws texImg : is_Some (Texture.insertAll 0 ws texImg).
Proof.
  clear. revert texImg. induction ws as [|[s td] ws IH]; intros texImg; simpl; [eauto|].
  unfold Texture.insertSDF, Texture.growFuel.
  replace ((s + 1) * 0 * 0) with 0 by lia. simpl.
  replace ((s + 1) * 0 * 0) with 0 by lia. simpl. apply IH.
Qed.

Lemma reachable_textures evs : texturesOK (run'' evs initialWorld).
Proof. apply run_textures; [apply worldOK_initial | apply texturesOK_initial]. Qed.

(** X17.  At any moment every atlas is stored under the key made of the
    font its texture is tagged with and of a glyph size, and its image is
    as wide as [CONFIG.textureWidth], that glyph size high doubled some
    number of times, with four bytes per texel. *)
Theorem atlas_image_has_configured_width (evs : list (Event num)) (k : string)
    (a : Atlas num) :
  let w := run'' evs initialWorld in
  atlases w !! k = Some a →
  ∃ g j, k = atlasKeyOf (font (sdfTexture a)) g ∧
         Texture.width (image (sdfTexture a)) = textureWidth (CONFIG w) ∧
         Texture.height (image (sdfTexture a)) = g * 2 ^ j ∧
         length (Texture.data (image (sdfTexture a)))
         = Texture.width (image (sdfTexture a)) * Texture.height (image (sdfTexture a)) * 4.
Proof.
  intros w Ha.
  destruct (reachable_textures evs) as (_ & _ & _ & Hshape).
  destruct (Hshape _ _ Ha) as (f & g & j & Hk & Hf & Hwd & Hht & Hlen).
  exists g, j. by rewrite Hf.
Qed.

(** X18.  A request that waits for the typesetter or for its rasterizers
    always has its atlas, and it is the atlas of its own font and glyph
    size: the texture is tagged with the request's font and is the
    request's glyph size high, doubled some number of times. *)
Theorem waiting_request_has_own_atlas (evs : list (Event num)) (req : AwaitTypeset num) :
  let w := run'' evs initialWorld in
  req ∈ awaitingTypeset w ∨ req ∈ asRequest <$> awaitingSDFs w →
  ∃ a j, atlases w !! atAtlasKey req = Some a ∧
         font (sdfTexture a) = nFont (atArgs req) ∧
         Texture.height (image (sdfTexture a)) = nSdfGlyphSize (atArgs req) * 2 ^ j.
Proof.
  intros w Hreq.
  destruct (reachable_textures evs) as (_ & Htype & Hsdf & Hshape). fold w in Htype, Hsdf, Hshape.
  assert (ownKey req ∧ is_Some (atlases w !! atAtlasKey req)) as [Hown [a Ha]].
  { destruct Hreq as [Hreq|Hreq]; [by apply Htype|].
    apply list_elem_of_fmap in Hreq as (p & -> & Hp). by apply Hsdf. }
  destruct (Hshape _ _ Ha) as (f & g & j & Hk & Hf & _ & Hht & _).
  unfold ownKey in Hown. rewrite Hk in Hown.
  apply atlasKeyOf_inj in Hown as [-> ->]. eauto.
Qed.

(** X19.  With a texture width that is not 0, the continuation run on
    the rasterizers' answers always ends: the request leaves the waiting
    list and its callback is invoked, with the request's arguments, its
    atlas, and the indices and bounds the loop computed. *)
Theorem callback_invoked_when_width_positive (evs : list (Event num)) (j : nat)
    (p : AwaitSDFs num) (textures : list (list byte)) :
  let w := run'' evs initialWorld in
  let w' := onSDFResults w j textures in
  awaitingSDFs w !! j = Some p →
  length textures = length (neededSDFs p) →
  0 < textureWidth (CONFIG w) →
  awaitingSDFs w' = delete j (awaitingSDFs w) ∧
  ∃ ri, delivered w' = delivered w ++ [ri] ∧
        parameters ri = atArgs (asRequest p) ∧
        riTexture ri = atAtlasKey (asRequest p) ∧
        glyphAtlasIndices ri = asGlyphIds p ∧
        glyphBounds ri = asGlyphBounds p.
Proof.
  intros w w' Hj Hlen HW.
  destruct (reachable_textures evs) as (_ & _ & Hsdf & Hshape). fold w in Hsdf, Hshape.
  destruct (Hsdf p) as [Hown [a Ha]]; [by eapply list_elem_of_lookup_2|].
  destruct (Hshape _ _ Ha) as (f & g & k0 & Hk & Hf & Hrect).
  unfold ownKey in Hown. rewrite Hk in Hown.
  apply atlasKeyOf_inj in Hown as [Hfont Hsize].
  assert (is_Some (Texture.insertAll (nSdfGlyphSize (atArgs (asRequest p)))
                     (zip (atlasIndex <$> neededSDFs p) textures)
                     (image (sdfTexture a)))) as [img Himg].
  { rewrite <-Hsize. destruct (decide (g = 0)) as [->|Hg].
    - apply insertAll_zero_size.
    - destruct (TextureFacts.insertAll_rectangular g (textureWidth (CONFIG w)) k0
                  (zip (atlasIndex <$> neededSDFs p) textures) (image (sdfTexture a)))
        as (img & k1 & -> & _); [lia|lia|done|eauto]. }
  unfold w', onSDFResults. rewrite Hj, Ha, Hlen, Nat.eqb_refl. cbn [negb].
  destruct (neededSDFs p) as [|e0 needed].
  - cbn [awaitingSDFs delivered]. split; [done|]. eauto 10.
  - rewrite Himg. cbn [mbind option_bind awaitingSDFs delivered]. split; [done|]. eauto 10.
Qed.

(** X20.  With [textureWidth] configured to 0 and a glyph size that is
    not 0, a request with a new glyph never reaches its callback: the
    array of its atlas is empty, so the growth loop entered for the first
    new glyph does not end, whatever the number of turns allowed, and the
    continuation has no next state. *)
Theorem zero_width_never_calls_back (evs : list (Event num)) (j : nat)
    (p : AwaitSDFs num) (e : GlyphInfo num) (textures : list (list byte)) :
  let w := run'' evs initialWorld in
  awaitingSDFs w !! j = Some p →
  neededSDFs p !! 0 = Some e →
  length textures = length (neededSDFs p) →
  textureWidth (CONFIG w) = 0 →
  0 < nSdfGlyphSize (atArgs (asRequest p)) →
  (∃ a, atlases w !! atAtlasKey (asRequest p) = Some a ∧
        Texture.data (image (sdfTexture a)) = [] ∧
        ∀ fuel, Texture.growLoop fuel (nSdfGlyphSize (atArgs (asRequest p)))
                  (atlasIndex e) (image (sdfTexture a)) = None) ∧
  onSDFResults w j textures = w.
Proof.
  intros w Hj He Hlen HW Hg.
  destruct (reachable_textures evs) as (_ & _ & Hsdf & Hshape). fold w in Hsdf, Hshape.
  destruct (Hsdf p) as [Hown [a Ha]]; [by eapply list_elem_of_lookup_2|].
  destruct (Hshape _ _ Ha) as (f & g & k0 & Hk & Hf & Hwd & Hht & Hdata).
  assert (length (Texture.data (image (sdfTexture a))) = 0) as Hempty.
  { rewrite Hdata, Hwd, HW. lia. }
  split.
  - exists a. split; [done|]. split; [by apply length_zero_iff_nil|].
    intros fuel. by apply TextureMore.growLoop_empty.
  - unfold onSDFResults. rewrite Hj, Ha, Hlen, Nat.eqb_refl. cbn [negb].
    destruct (neededSDFs p) as [|e0 needed]; [done|].
    destruct textures as [|td textures]; [done|].
    simpl in He. injection He as ->. simpl.
    unfold Texture.insertSDF.
    rewrite TextureMore.growLoop_empty by done. done.
Qed.

(** *** Preloading *)

Lemma getTextRenderInfo_waiting w args :
  let nargs := normalizeArgs toAbsoluteURL (CONFIG w) args in
  let key := atlasKeyOf (nFont nargs) (nSdfGlyphSize nargs) in
  let w' := getTextRenderInfo toAbsoluteURL w args in
  (∃ req, awaitingTypeset w' !! length (awaitingTypeset w) = Some req ∧
          atAtlasKey req = key ∧ atArgs req = nargs) ∧
  is_Some (atlases w' !! key) ∧
  (∀ a, atlases w !! key = Some a → atlases w' = atlases w).
Proof.
  intros nargs key w'. unfold w', getTextRenderInfo. fold nargs. fold key.
  cbn [awaitingTypeset atlases]. split; [|split].
  - eexists. split.
    + rewrite lookup_app_r by lia. by rewrite Nat.sub_diag.
    + done.
  - destruct (atlases w !! key) eqn:Hk; [by rewrite Hk|]. by rewrite lookup_insert_eq.
  - intros a Ha. by rewrite Ha.
Qed.

(** X21.  Preloading does its job: once the typesetter has answered a
    [preloadFont] call with glyph data for all its glyphs, a later request
    for the same font and glyph size whose glyphs are among the preloaded
    ones calls no rasterizer, whatever happened in between. *)
Theorem preloaded_glyphs_need_no_rasterizer (evs evs' : list (Event num))
    (options : PreloadOptions) (text : string) (result1 result2 : TypesetResult num) :
  let w0 := run'' evs initialWorld in
  let w1 := preloadFont toAbsoluteURL w0 options in
  let w2 := onTypesetResult w1 (length (awaitingTypeset w0)) result1 in
  let w3 := run'' evs' w2 in
  let w4 := getTextRenderInfo toAbsoluteURL w3
              {| argFont := poFont options; argText := text;
                 argSdfGlyphSize := poSdfGlyphSize options |} in
  let w5 := onTypesetResult w4 (length (awaitingTypeset w3)) result2 in
  covered result1 →
  glyphIds result2 ⊆ glyphIds result1 →
  sdfCalls w5 = sdfCalls w3 ∧
  ∃ p, awaitingSDFs w5 = awaitingSDFs w3 ++ [p] ∧ neededSDFs p = [] ∧
       nText (atArgs (asRequest p)) = text.
Proof.
  intros w0 w1 w2 w3 w4 w5 Hcov Hsub.
  pose proof (run_OK toAbsoluteURL evs _ worldOK_initial) as Hw0. fold w0 in Hw0.
  assert (worldOK w1) as Hw1 by apply getTextRenderInfo_OK, Hw0.
  assert (worldOK w2) as Hw2 by apply onTypesetResult_OK, Hw1.
  set (args1 := {| argFont := poFont options;
                   argText := preloadText (poCharacters options);
                   argSdfGlyphSize := poSdfGlyphSize options |}).
  set (args2 := {| argFont := poFont options; argText := text;
                   argSdfGlyphSize := poSdfGlyphSize options |}).
  destruct (getTextRenderInfo_waiting w0 args1)
    as ((req1 & Hreq1 & Hkey1 & _) & [a1 Ha1] & _).
  change (getTextRenderInfo toAbsoluteURL w0 args1) with w1 in Hreq1, Ha1.
  set (key := atlasKeyOf (nFont (normalizeArgs toAbsoluteURL (CONFIG w0) args1))
                (nSdfGlyphSize (normalizeArgs toAbsoluteURL (CONFIG w0) args1))) in *.
  (* the preloaded glyphs have their entries once the typesetter has answered *)
  assert (hasRequested w2 = true ∧ CONFIG w2 = CONFIG w0 ∧
          ∃ a2, atlases w2 !! key = Some a2 ∧
                ∀ glyphId, glyphId ∈ glyphIds result1 → is_Some (glyphs a2 !! glyphId))
    as (Hreq2 & Hconf2 & a2 & Ha2 & Hall2).
  { unfold w2, onTypesetResult. rewrite Hreq1, Hkey1, Ha1.
    pose proof (forEachGlyph_covered (sdfMargin (CONFIG w1)) (nSdfGlyphSize (atArgs req1))
                  result1 (glyphIds result1) (newLoopState a1) Hcov) as Hdone.
    destruct (forEachGlyph _ _ _ _ _) as [st completed] eqn:Hloop.
    simpl in Hdone. subst completed.
    cbn [hasRequested CONFIG atlases]. split; [done|]. split; [done|].
    exists (lsAtlas st). rewrite lookup_insert_eq. split; [done|].
    intros glyphId [n Hn]%list_elem_of_lookup.
    destruct (forEachGlyph_outputs _ _ _ _ _ _ Hloop) as (? & ? & _ & _ & _ & _ & Hall).
    destruct (Hall n glyphId Hn) as (e & He & _). eauto. }
  assert (hasRequested w3 = true) as Hreq3 by (by apply run_hasRequested).
  assert (CONFIG w3 = CONFIG w0) as Hconf3.
  { unfold w3. by rewrite run_CONFIG. }
  (* the request made later finds the same atlas, with these entries *)
  destruct (getTextRenderInfo_waiting w3 args2)
    as ((req4 & Hreq4 & Hkey4 & Hargs4) & [a4 Ha4] & _).
  change (getTextRenderInfo toAbsoluteURL w3 args2) with w4 in Hreq4, Ha4.
  rewrite Hconf3 in Hkey4, Ha4. change (atlasKeyOf _ _) with key in Hkey4, Ha4.
  assert (Forall (λ glyphId, is_Some (glyphs a4 !! glyphId)) (glyphIds result2)) as Hknown.
  { apply Forall_forall. intros glyphId Hin%Hsub.
    destruct (Hall2 _ Hin) as [e He].
    destruct (run_entry_stable toAbsoluteURL evs' w2 key a2 glyphId e Hw2 Ha2 He)
      as (a3 & Ha3 & He3).
    fold w3 in Ha3.
    pose proof (getTextRenderInfo_keeps toAbsoluteURL w3 args2 _ _ Ha3) as Ha3'.
    change (getTextRenderInfo toAbsoluteURL w3 args2) with w4 in Ha3'. rewrite Ha4 in Ha3'. injection Ha3' as ->. eauto. }
  unfold w5, onTypesetResult. rewrite Hreq4, Hkey4, Ha4.
  destruct (forEachGlyph_known (sdfMargin (CONFIG w4)) (nSdfGlyphSize (atArgs req4))
              result2 (glyphIds result2) (newLoopState a4) Hknown)
    as (st' & indices & -> & _ & Hneeded & _).
  cbn [sdfCalls awaitingSDFs]. simpl in Hneeded. rewrite Hneeded. simpl.
  rewrite app_nil_r. split; [done|].
  eexists. split; [done|]. split; [done|]. simpl. by rewrite Hargs4.
Qed.


(** *** The rasterizer call of a new glyph *)

(** The glyphs queued stay queued. *)
Lemma visitGlyph_needed m g result st glyphId st' e :
  visitGlyph m g result st glyphId = Some st' →
  e ∈ lsNeededSDFs st → e ∈ lsNeededSDFs st'.
Proof.
  intros (e0 & Hvisit & _)%visitGlyph_atlas He.
  apply lookupOrAdd_cases in Hvisit as [(_ & _ & ->)|(_ & _ & _ & ->)]; [done|].
  apply elem_of_app. by left.
Qed.

Lemma forEachGlyph_needed m g result ids st e :
  e ∈ lsNeededSDFs st → e ∈ lsNeededSDFs (forEachGlyph m g result ids st).1.
Proof.
  revert st. induction ids as [|id ids IH]; intros st He; simpl; [done|].
  destruct (visitGlyph m g result st id) as [st'|] eqn:Hv; [|done].
  apply IH. by eapply visitGlyph_needed.
Qed.

(** A glyph that is new to the atlas and has glyph data is given an entry
    made from that data, and is queued. *)
Lemma forEachGlyph_new m g result ids st st' glyphId d :
  forEachGlyph m g result ids st = (st', true) →
  glyphId ∈ ids →
  glyphs (lsAtlas st) !! glyphId = None →
  glyphData result !! glyphId = Some d →
  ∃ e, e ∈ lsNeededSDFs st' ∧ glyphs (lsAtlas st') !! glyphId = Some e ∧
       path e = gdPath d ∧
       sdfViewBox e = viewBoxOf (pathBounds d) (fontUnitsMargin m g (pathBounds d)).
Proof.
  revert st. induction ids as [|id ids IH]; intros st Hloop Hin Hnew Hd.
  { by apply elem_of_nil in Hin. }
  cbn [forEachGlyph] in Hloop.
  destruct (visitGlyph m g result st id) as [st1|] eqn:Hv; [|done].
  destruct (visitGlyph_atlas _ _ _ _ _ _ Hv) as (e0 & Hvisit & _).
  destruct (decide (glyphId = id)) as [->|Hne].
  - rewrite (lookupOrAdd_new m g _ _ _ _ d Hnew Hd) in Hvisit.
    injection Hvisit as Ha1 Hn1 _.
    set (e := {| path := gdPath d; atlasIndex := count (lsAtlas st);
                 sdfViewBox := viewBoxOf (pathBounds d)
                                 (fontUnitsMargin m g (pathBounds d)) |}) in *.
    exists e. replace st' with (forEachGlyph m g result ids st1).1 by (by rewrite Hloop).
    split; [|split; [|done]].
    + apply forEachGlyph_needed. rewrite <- Hn1. apply elem_of_app. right.
      by apply list_elem_of_singleton.
    + apply forEachGlyph_keeps. rewrite <- Ha1. simpl. by rewrite lookup_insert_eq.
  - apply (IH st1); [done| |  |done].
    + apply elem_of_cons in Hin as [?|?]; done.
    + apply lookupOrAdd_cases in Hvisit as [(_ & -> & _)|(_ & _ & -> & _)]; [done|].
      simpl. by rewrite lookup_insert_ne.
Qed.

(** C10 (amended).  When the typesetter's answer brings a glyph that is
    new to the atlas, the continuation makes one entry for it, whose view
    box is the glyph's path bounds widened by the margin computed for it,
    and calls the rasterizer for that entry with the glyph size as width
    and height, the entry's path and view box, and as [maxDist] the
    larger of the width and the height of that view box, in whatever
    arithmetic; so has every call made so far.  In exact arithmetic the
    larger side of a box widened by a margin is the larger extent of the
    box plus twice the margin. *)
Theorem maxDist_is_viewBox_extent (evs : list (Event num)) (i : nat)
    (req : AwaitTypeset num) (a : Atlas num) (result : TypesetResult num)
    (glyphId : nat) (d : GlyphData num) :
  let w := run'' evs initialWorld in
  let w' := onTypesetResult w i result in
  let g := nSdfGlyphSize (atArgs req) in
  let vb := viewBoxOf (pathBounds d)
              (fontUnitsMargin (sdfMargin (CONFIG w)) g (pathBounds d)) in
  awaitingTypeset w !! i = Some req →
  atlases w !! atAtlasKey req = Some a →
  covered result →
  glyphId ∈ glyphIds result →
  glyphs a !! glyphId = None →
  glyphData result !! glyphId = Some d →
  (∃ calls c e a',
     sdfCalls w' = sdfCalls w ++ calls ∧ c ∈ calls ∧
     atlases w' !! atAtlasKey req = Some a' ∧ glyphs a' !! glyphId = Some e ∧
     sdfViewBox e = vb ∧
     callAtlas c = atAtlasKey req ∧ callAtlasIndex c = atlasIndex e ∧
     callPath c = gdPath d ∧ callWidth c = g ∧ callHeight c = g ∧
     callViewBox c = vb ∧
     callMaxDist c = num_max (b2 vb -! b0 vb) (b3 vb -! b1 vb)) ∧
  Forall (λ c, callMaxDist c
               = num_max (b2 (callViewBox c) -! b0 (callViewBox c))
                         (b3 (callViewBox c) -! b1 (callViewBox c)))
         (sdfCalls w') ∧
  ∀ (pb : Bounds Q) (m : Q),
    (num_max (b2 (viewBoxOf pb m) - b0 (viewBoxOf pb m))
             (b3 (viewBoxOf pb m) - b1 (viewBoxOf pb m))
     == num_max (b2 pb - b0 pb) (b3 pb - b1 pb) + 2 * m)%Q.
Proof.
  intros w w' g vb Hreq Ha Hcov Hin Hnew Hd. split; [|split].
  - unfold w', onTypesetResult. rewrite Hreq, Ha.
    pose proof (forEachGlyph_covered (sdfMargin (CONFIG w)) g result (glyphIds result)
                  (newLoopState a) Hcov) as Hdone.
    fold g. destruct (forEachGlyph _ _ _ _ _) as [st completed] eqn:Hloop.
    simpl in Hdone. subst completed.
    destruct (forEachGlyph_new _ _ _ _ _ _ glyphId d Hloop Hin Hnew Hd)
      as (e & He & Hentry & Hpath & Hvb).
    cbn [sdfCalls atlases].
    eexists _, (sdfCallOf (atAtlasKey req) g (sdfExponent (CONFIG w)) e), e, (lsAtlas st).
    split; [done|]. split.
    { apply list_elem_of_fmap. by exists e. }
    rewrite lookup_insert_eq. split; [done|]. split; [done|]. split; [done|].
    cbn [sdfCallOf callAtlas callAtlasIndex callPath callWidth callHeight callViewBox
         callMaxDist].
    rewrite Hpath. unfold maxDistOf. rewrite Hvb. done.
  - pose proof (run_calls_maxDist toAbsoluteURL (evs ++ [TypesetDone i result])
                  initialWorld (Forall_nil_2 _)) as Hall.
    rewrite (run_snoc toAbsoluteURL) in Hall. exact Hall.
  - intros pb m. exact (QFacts.maxDist_viewBox pb m).
Qed.

End BuilderMore.

(** ** The added properties at work on the scenario *)

Lemma known_glyphs_dispatch_nothing_witness :
  sdfCalls (onTypesetResult
              (getTextRenderInfo Scenario.url (Scenario.dispatched (num:=Q)) Scenario.request)
              0 Scenario.typeset)
  = sdfCalls (getTextRenderInfo Scenario.url (Scenario.dispatched (num:=Q)) Scenario.request).
Proof.
  refine (proj1 (proj2 (known_glyphs_dispatch_nothing (num:=Q)
            (getTextRenderInfo Scenario.url (Scenario.dispatched (num:=Q)) Scenario.request)
            0 _ _ Scenario.typeset _ _ _))).
  - vm_compute. reflexivity.
  - vm_compute. reflexivity.
  - repeat constructor; eexists; vm_compute; reflexivity.
Defined.

Lemma missing_glyph_data_drops_request_witness :
  sdfCalls (onTypesetResult
              (run Scenario.url [Configure Scenario.config; Request Scenario.request]
                 (initialWorld (num:=Q)))
              0 (Scenario.answer [7; 5]))
  = sdfCalls (run Scenario.url [Configure Scenario.config; Request Scenario.request]
                (initialWorld (num:=Q))).
Proof.
  refine (proj1 (missing_glyph_data_drops_request (num:=Q)
            (run Scenario.url [Configure Scenario.config; Request Scenario.request]
               (initialWorld (num:=Q)))
            0 _ _ (Scenario.answer [7; 5]) 5 _ _ _ _ _)).
  - vm_compute. reflexivity.
  - vm_compute. reflexivity.
  - apply (list_elem_of_lookup_2 _ 1). reflexivity.
  - vm_compute. reflexivity.
  - vm_compute. reflexivity.
Defined.

Lemma glyph_of_aborted_loop_never_rasterized_witness :
  filter (λ c, callSlot c = ("a.woff@32", 0))
    (sdfCalls
       (run Scenario.url
          [Request Scenario.request; TypesetDone 0 (Scenario.answer [7; 3])]
          (onTypesetResult
             (run Scenario.url [Configure Scenario.config; Request Scenario.request]
                (initialWorld (num:=Q)))
             0 (Scenario.answer [7; 5]))))
  = [].
Proof.
  refine (glyph_of_aborted_loop_never_rasterized (num:=Q) Scenario.url
            [Configure Scenario.config; Request Scenario.request]
            [Request Scenario.request; TypesetDone 0 (Scenario.answer [7; 3])]
            0 (Scenario.answer [7; 5]) "a.woff@32" _ _ 7
            {| path := "seven"; atlasIndex := 0;
               sdfViewBox :=
                 viewBoxOf Scenario.boundsA
                   (fontUnitsMargin (sdfMargin defaultConfig) 32 Scenario.boundsA) |}
            _ _ _ _ _).
  - vm_compute. reflexivity.
  - vm_compute. reflexivity.
  - vm_compute. reflexivity.
  - vm_compute. reflexivity.
  - vm_compute. reflexivity.
Defined.

(** In binary64, one glyph with the scenario's path bounds at the origin,
    with [fontSize] 0.1 and 1000 units per em: the left bound
    [0 + -7.8125 * 0.0001] is stored as the binary32 number next to it,
    -0.00078125001164153218. *)
Lemma loop_outputs_are_aligned_witness :
  lsGlyphBounds
    (forEachGlyph (sdfMargin (defaultConfig (num:=float))) 32
       {| glyphIds := [36];
          glyphPositions := [num_of_nat 0; num_of_nat 0];
          glyphData := glyphData Scenario.typeset;
          fontSize := num_of_nat 1 /! num_of_nat 10;
          unitsPerEm := num_of_nat 1000 |}%num
       [36] (newLoopState (newAtlas "a.woff" 32 128))).1 !! 0
  = Some (Some (-0x1.99999ap-11)%float).
Proof.
  destruct (loop_outputs_are_aligned (num:=float) (sdfMargin defaultConfig) 32
              {| glyphIds := [36];
                 glyphPositions := [num_of_nat 0; num_of_nat 0];
                 glyphData := glyphData Scenario.typeset;
                 fontSize := num_of_nat 1 /! num_of_nat 10;
                 unitsPerEm := num_of_nat 1000 |}%num
              (newAtlas "a.woff" 32 128) _ eq_refl) as (_ & _ & Hall).
  destruct (Hall 0 36 eq_refl) as (e & He & _ & H0 & _).
  vm_compute in He. injection He as <-.
  etrans; [exact H0|]. vm_compute. reflexivity.
Defined.


Lemma delivered_indices_are_slots_witness :
  ∃ ri a,
    delivered (run Scenario.url
                 [Configure Scenario.config; Request Scenario.request;
                  TypesetDone 0 Scenario.typeset; SDFsDone 0 [[]]]
                 (initialWorld (num:=Q))) !! 0 = Some ri ∧
    atlases (run Scenario.url
               [Configure Scenario.config; Request Scenario.request;
                TypesetDone 0 Scenario.typeset; SDFsDone 0 [[]]]
               (initialWorld (num:=Q))) !! riTexture ri = Some a ∧
    Forall (λ i, i < count a) (glyphAtlasIndices ri) ∧
    length (glyphBounds ri) = 4 * length (glyphAtlasIndices ri).
Proof.
  assert ({ri | delivered (run Scenario.url
                 [Configure Scenario.config; Request Scenario.request;
                  TypesetDone 0 Scenario.typeset; SDFsDone 0 [[]]]
                 (initialWorld (num:=Q))) !! 0 = Some ri}) as [ri Hri].
  { eexists. vm_compute. reflexivity. }
  destruct (delivered_indices_are_slots (num:=Q) Scenario.url _ ri
              (list_elem_of_lookup_2 _ _ _ Hri)) as (a & Ha).
  exists ri, a. split; [exact Hri | exact Ha].
Defined.

Lemma atlas_image_has_configured_width_witness :
  ∃ a g j,
    atlases (run Scenario.url [Configure Scenario.config; Request Scenario.request]
               (initialWorld (num:=Q))) !! "a.woff@32" = Some a ∧
    "a.woff@32" = atlasKeyOf (font (sdfTexture a)) g ∧
    Texture.width (image (sdfTexture a)) = 128 ∧
    Texture.height (image (sdfTexture a)) = g * 2 ^ j.
Proof.
  assert ({a | atlases (run Scenario.url [Configure Scenario.config; Request Scenario.request]
                          (initialWorld (num:=Q))) !! "a.woff@32" = Some a}) as [a Ha].
  { eexists. vm_compute. reflexivity. }
  destruct (atlas_image_has_configured_width (num:=Q) Scenario.url _ _ a Ha)
    as (g & j & Hk & Hw & Hh & _).
  exists a, g, j. repeat split; [exact Ha | exact Hk | exact Hw | exact Hh].
Defined.

Lemma waiting_request_has_own_atlas_witness :
  ∃ req a j,
    awaitingTypeset (run Scenario.url [Configure Scenario.config; Request Scenario.request]
                       (initialWorld (num:=Q))) !! 0 = Some req ∧
    atlases (run Scenario.url [Configure Scenario.config; Request Scenario.request]
               (initialWorld (num:=Q))) !! atAtlasKey req = Some a ∧
    font (sdfTexture a) = nFont (atArgs req) ∧
    Texture.height (image (sdfTexture a)) = nSdfGlyphSize (atArgs req) * 2 ^ j.
Proof.
  assert ({req | awaitingTypeset
                   (run Scenario.url [Configure Scenario.config; Request Scenario.request]
                      (initialWorld (num:=Q))) !! 0 = Some req}) as [req Hreq].
  { eexists. vm_compute. reflexivity. }
  destruct (waiting_request_has_own_atlas (num:=Q) Scenario.url _ req
              (or_introl (list_elem_of_lookup_2 _ _ _ Hreq))) as (a & j & Ha).
  exists req, a, j. split; [exact Hreq | exact Ha].
Defined.

Lemma callback_invoked_when_width_positive_witness :
  awaitingSDFs (onSDFResults (Scenario.dispatched (num:=Q)) 0 [[]])
  = delete 0 (awaitingSDFs (Scenario.dispatched (num:=Q))).
Proof.
  refine (proj1 (callback_invoked_when_width_positive (num:=Q) Scenario.url
            [Configure Scenario.config; Request Scenario.request;
             TypesetDone 0 Scenario.typeset] 0 _ [[]] _ _ _)).
  - vm_compute. reflexivity.
  - vm_compute. reflexivity.
  - vm_compute. lia.
Defined.

Lemma zero_width_never_calls_back_witness :
  onSDFResults
    (run Scenario.url
       [Configure {| optDefaultFontURL := None; optSdfGlyphSize := Some 32;
                     optSdfMargin := None; optSdfExponent := None;
                     optTextureWidth := Some 0 |};
        Request Scenario.request; TypesetDone 0 Scenario.typeset]
       (initialWorld (num:=Q)))
    0 [[]]
  = run Scenario.url
      [Configure {| optDefaultFontURL := None; optSdfGlyphSize := Some 32;
                    optSdfMargin := None; optSdfExponent := None;
                    optTextureWidth := Some 0 |};
       Request Scenario.request; TypesetDone 0 Scenario.typeset]
      (initialWorld (num:=Q)).
Proof.
  refine (proj2 (zero_width_never_calls_back (num:=Q) Scenario.url
            [Configure {| optDefaultFontURL := None; optSdfGlyphSize := Some 32;
                          optSdfMargin := None; optSdfExponent := None;
                          optTextureWidth := Some 0 |};
             Request Scenario.request; TypesetDone 0 Scenario.typeset]
            0 _ _ [[]] _ _ _ _ _)).
  - vm_compute. reflexivity.
  - vm_compute. reflexivity.
  - vm_compute. reflexivity.
  - vm_compute. reflexivity.
  - vm_compute. lia.
Defined.

Lemma preloaded_glyphs_need_no_rasterizer_witness :
  sdfCalls
    (onTypesetResult
       (getTextRenderInfo Scenario.url
          (onTypesetResult
             (preloadFont Scenario.url
                (run Scenario.url [Configure Scenario.config] (initialWorld (num:=Q)))
                {| poFont := Some "a.woff"; poCharacters := CharsArray ["ab"; "c"];
                   poSdfGlyphSize := None |})
             0 (Scenario.answer [7; 3]))
          {| argFont := Some "a.woff"; argText := "b"; argSdfGlyphSize := None |})
       0 (Scenario.answer [3]))
  = sdfCalls
      (onTypesetResult
         (preloadFont Scenario.url
            (run Scenario.url [Configure Scenario.config] (initialWorld (num:=Q)))
            {| poFont := Some "a.woff"; poCharacters := CharsArray ["ab"; "c"];
               poSdfGlyphSize := None |})
         0 (Scenario.answer [7; 3])).
Proof.
  refine (proj1 (preloaded_glyphs_need_no_rasterizer (num:=Q) Scenario.url
            [Configure Scenario.config] []
            {| poFont := Some "a.woff"; poCharacters := CharsArray ["ab"; "c"];
               poSdfGlyphSize := None |}
            "b" (Scenario.answer [7; 3]) (Scenario.answer [3]) _ _)).
  - repeat constructor; eexists; vm_compute; reflexivity.
  - intros glyphId Hin. apply list_elem_of_singleton in Hin. subst glyphId.
    apply (list_elem_of_lookup_2 _ 1). reflexivity.
Defined.

(** The amended C10 in binary64: a glyph with path bounds
    [13, -200, 587, 1456], glyph size 64, [sdfMargin] 0.1.  The margin is
    178.53750000000002, and [maxDist] is the height of the view box,
    1634.5374999999999 - -378.53750000000002 = 2013.0749999999998. *)
Lemma maxDist_is_viewBox_extent_witness :
  ∃ c,
    c ∈ sdfCalls
          (run Scenario.url
             [Configure {| optDefaultFontURL := None; optSdfGlyphSize := None;
                           optSdfMargin := Some (num_of_nat 1 /! num_of_nat 10)%num;
                           optSdfExponent := None; optTextureWidth := Some 64 |};
              Request Scenario.request;
              TypesetDone 0
                {| glyphIds := [5];
                   glyphPositions := [0%float; 0%float];
                   glyphData :=
                     {[ 5 := {| gdPath := "M13,-200L587,1456";
                                pathBounds :=
                                  mkBounds 13%float (-200)%float 587%float 1456%float |} ]};
                   fontSize := 10%float;
                   unitsPerEm := 1000%float |}]
             (initialWorld (num:=float))) ∧
    callWidth c = 64 ∧ callHeight c = 64 ∧
    callMaxDist c = 0x1.f744cccccccccp+10%float.
Proof.
  destruct (maxDist_is_viewBox_extent (num:=float) Scenario.url
              [Configure {| optDefaultFontURL := None; optSdfGlyphSize := None;
                            optSdfMargin := Some (num_of_nat 1 /! num_of_nat 10)%num;
                            optSdfExponent := None; optTextureWidth := Some 64 |};
               Request Scenario.request]
              0
              {| atArgs := {| nFont := "a.woff"; nText := "AA"; nSdfGlyphSize := 64 |};
                 atAtlasKey := "a.woff@64";
                 atSdfExponent := num_of_nat 9 |}
              (newAtlas "a.woff" 64 64)
              {| glyphIds := [5];
                 glyphPositions := [0%float; 0%float];
                 glyphData :=
                   {[ 5 := {| gdPath := "M13,-200L587,1456";
                              pathBounds :=
                                mkBounds 13%float (-200)%float 587%float 1456%float |} ]};
                 fontSize := 10%float;
                 unitsPerEm := 1000%float |}
              5
              {| gdPath := "M13,-200L587,1456";
                 pathBounds := mkBounds 13%float (-200)%float 587%float 1456%float |})
    as ((calls & c & e & a' & Hcalls & Hc & _ & _ & _ & _ & _ & _ & Hw & Hh & _ & Hmax)
        & _).
  - vm_compute. reflexivity.
  - vm_compute. reflexivity.
  - repeat constructor; eexists; vm_compute; reflexivity.
  - apply (list_elem_of_lookup_2 _ 0). reflexivity.
  - vm_compute. reflexivity.
  - vm_compute. reflexivity.
  - exists c. split; [|split; [|split]].
    + change (c ∈ sdfCalls (onTypesetResult
                (run Scenario.url
                   [Configure {| optDefaultFontURL := None; optSdfGlyphSize := None;
                                 optSdfMargin := Some (num_of_nat 1 /! num_of_nat 10)%num;
                                 optSdfExponent := None; optTextureWidth := Some 64 |};
                    Request Scenario.request] initialWorld)
                0
                {| glyphIds := [5];
                   glyphPositions := [0%float; 0%float];
                   glyphData :=
                     {[ 5 := {| gdPath := "M13,-200L587,1456";
                                pathBounds :=
                                  mkBounds 13%float (-200)%float 587%float 1456%float |} ]};
                   fontSize := 10%float;
                   unitsPerEm := 1000%float |})).
      rewrite Hcalls. apply elem_of_app. by right.
    + etrans; [exact Hw|]. vm_compute. reflexivity.
    + etrans; [exact Hh|]. vm_compute. reflexivity.
    + etrans; [exact Hmax|]. vm_compute. reflexivity.
Defined.

(** C10 as stated fails in the arithmetic of the code: for the same
    glyph the larger extent of the path bounds plus twice the margin is
    1656 + 2 * 178.53750000000002 = 2013.075 in binary64, and the
    [maxDist] passed is 2013.0749999999998, the bounds of the view box
    having been rounded one by one. *)
Lemma maxDist_not_extent_plus_margins :
  let pb := mkBounds 13%float (-200)%float 587%float 1456%float in
  let w := run Scenario.url
             [Configure {| optDefaultFontURL := None; optSdfGlyphSize := None;
                           optSdfMargin := Some (num_of_nat 1 /! num_of_nat 10)%num;
                           optSdfExponent := None; optTextureWidth := Some 64 |};
              Request Scenario.request;
              TypesetDone 0
                {| glyphIds := [5];
                   glyphPositions := [0%float; 0%float];
                   glyphData := {[ 5 := {| gdPath := "M13,-200L587,1456";
                                           pathBounds := pb |} ]};
                   fontSize := 10%float;
                   unitsPerEm := 1000%float |}]
             (initialWorld (num:=float)) in
  let margin := fontUnitsMargin (sdfMargin (CONFIG w)) 64 pb in
  let sum := (num_max (b2 pb -! b0 pb) (b3 pb -! b1 pb) +! num_of_nat 2 *! margin)%num in
  ∃ c, sdfCalls w = [c] ∧
       callViewBox c = viewBoxOf pb margin ∧
       callMaxDist c = 0x1.f744cccccccccp+10%float ∧
       sum = 0x1.f744ccccccccdp+10%float ∧
       callMaxDist c ≠ sum.
Proof.
  intros pb w margin sum. eexists. split; [vm_compute; reflexivity|].
  split; [vm_compute; reflexivity|]. split; [vm_compute; reflexivity|].
  split; [vm_compute; reflexivity|].
  intros Heq. apply (f_equal (λ z, PrimFloat.eqb z sum)) in Heq.
  vm_compute in Heq. discriminate.
Qed.
